(** * slowjson: a position-tracking JSON parser

    A shallow embedding of [slowjson/parser.go] and the properties of its
    node spans, its string and number scanners, its error results and its
    debug-context renderer.

    Conventions of the embedding:
    - a Go [string] is a byte sequence, modelled as a Rocq [string] (a
      sequence of 8-bit [ascii]);
    - a [rune] is an integer code point, modelled in [Z];
    - the methods of [Parser] become functions from a [Parser] state to the
      updated state (explicit state passing);
    - a result pair of a node pointer and an [error] becomes
      [Node * option string] (or [option Node * option string] where the
      node may be [nil]);
    - loops carry a [fuel] argument; a result of [None] at the level of
      [option (... * Parser)] means that the fuel ran out, and is shown
      never to happen for the fuel used by [Parse];
    - the nodes are values first; module [Mem] has them as objects behind
      pointers, made and assigned to in place, and the two are shown to
      agree. *)

From Stdlib Require Import ZArith List String Ascii Bool Lia Arith.
From Stdlib Require Import DecimalString.
Import ListNotations.

Local Open Scope string_scope.
Local Open Scope Z_scope.

(* ================================================================== *)
(** ** Go runtime: runes, strings, formatting *)

Definition rune := Z.

Definition runeOf (c : ascii) : rune := Z.of_N (N_of_ascii c).

Definition quoteChar : ascii := ascii_of_nat 34.
Definition rQuote : rune := runeOf quoteChar.
Definition rBackslash : rune := runeOf "\".
Definition rNewline : rune := 10.
Definition rTab : rune := 9.
Definition rCR : rune := 13.
Definition rSpace : rune := runeOf " ".

Definition RuneError : rune := 65533.
Definition MaxRune : rune := 1114111.

Definition byteOf (z : Z) : ascii := ascii_of_N (Z.to_N (z mod 256)).

Fixpoint bytesOf (s : string) : list Z :=
  match s with
  | EmptyString => []
  | String c s' => Z.of_N (N_of_ascii c) :: bytesOf s'
  end.

(** [utf8.EncodeRune]: what [strings.Builder.WriteRune] appends and what
    [string(rune)] yields. *)
Definition encodeRune (r : rune) : string :=
  let bad := (r <? 0) || (MaxRune <? r) || ((55296 <=? r) && (r <=? 57343)) in
  let r := if bad then RuneError else r in
  if r <=? 127 then String (byteOf r) EmptyString
  else if r <=? 2047 then
    String (byteOf (Z.lor 192 (Z.shiftr r 6)))
   (String (byteOf (Z.lor 128 (Z.land r 63))) EmptyString)
  else if r <=? 65535 then
    String (byteOf (Z.lor 224 (Z.shiftr r 12)))
   (String (byteOf (Z.lor 128 (Z.land (Z.shiftr r 6) 63)))
   (String (byteOf (Z.lor 128 (Z.land r 63))) EmptyString))
  else
    String (byteOf (Z.lor 240 (Z.shiftr r 18)))
   (String (byteOf (Z.lor 128 (Z.land (Z.shiftr r 12) 63)))
   (String (byteOf (Z.lor 128 (Z.land (Z.shiftr r 6) 63)))
   (String (byteOf (Z.lor 128 (Z.land r 63))) EmptyString))).

(** [string(runes)]: the UTF-8 encoding of a rune slice. *)
Fixpoint stringOfRunes (rs : list rune) : string :=
  match rs with
  | [] => EmptyString
  | r :: rs' => encodeRune r ++ stringOfRunes rs'
  end.

(** Lead byte table of [unicode/utf8]: the size of the sequence and the
    accepted range of its second byte; [None] for an invalid lead byte. *)
Definition leadByte (b : Z) : option (Z * Z * Z) :=
  if b <? 194 then None
  else if b <=? 223 then Some (2, 128, 191)
  else if b =? 224 then Some (3, 160, 191)
  else if b <=? 236 then Some (3, 128, 191)
  else if b =? 237 then Some (3, 128, 159)
  else if b <=? 239 then Some (3, 128, 191)
  else if b =? 240 then Some (4, 144, 191)
  else if b <=? 243 then Some (4, 128, 191)
  else if b =? 244 then Some (4, 128, 143)
  else None.

Definition contByte (b : Z) : bool := (128 <=? b) && (b <=? 191).

(** [[]rune(s)] on the bytes of [s]: every invalid byte decodes to
    [RuneError] with width 1. *)
Fixpoint decodeBytes (bs : list Z) : list rune :=
  match bs with
  | [] => []
  | s0 :: t0 =>
    if s0 <? 128 then s0 :: decodeBytes t0
    else
      match leadByte s0 with
      | None => RuneError :: decodeBytes t0
      | Some (sz, lo, hi) =>
        match t0 with
        | [] => RuneError :: decodeBytes t0
        | s1 :: t1 =>
          if (s1 <? lo) || (hi <? s1) then RuneError :: decodeBytes t0
          else if sz <=? 2 then
            Z.lor (Z.shiftl (Z.land s0 31) 6) (Z.land s1 63) :: decodeBytes t1
          else
            match t1 with
            | [] => RuneError :: decodeBytes t0
            | s2 :: t2 =>
              if negb (contByte s2) then RuneError :: decodeBytes t0
              else if sz <=? 3 then
                Z.lor (Z.shiftl (Z.land s0 15) 12)
                  (Z.lor (Z.shiftl (Z.land s1 63) 6) (Z.land s2 63))
                :: decodeBytes t2
              else
                match t2 with
                | [] => RuneError :: decodeBytes t0
                | s3 :: t3 =>
                  if negb (contByte s3) then RuneError :: decodeBytes t0
                  else
                    Z.lor (Z.shiftl (Z.land s0 7) 18)
                      (Z.lor (Z.shiftl (Z.land s1 63) 12)
                         (Z.lor (Z.shiftl (Z.land s2 63) 6) (Z.land s3 63)))
                    :: decodeBytes t3
                end
            end
        end
      end
  end.

Definition runesOf (s : string) : list rune := decodeBytes (bytesOf s).

(** [%d] of [fmt]. *)
Definition itoa (z : Z) : string := NilZero.string_of_int (Z.to_int z).

(** [strings.HasPrefix s prefix]. *)
Definition HasPrefix (s pre : string) : bool := String.prefix pre s.

(** [strings.Contains s substr]. *)
Fixpoint Contains (s sub : string) : bool :=
  HasPrefix s sub ||
  match s with
  | EmptyString => false
  | String _ s' => Contains s' sub
  end.

(** [strings.Repeat s count] for a non-negative count. *)
Definition Repeat (s : string) (count : Z) : string :=
  Nat.iter (Z.to_nat count) (fun acc => s ++ acc) EmptyString.

(** [strings.Split s "\n"]: never empty; the separator is dropped. *)
Fixpoint splitLines (s : string) : list string :=
  match s with
  | EmptyString => [EmptyString]
  | String c s' =>
    if Ascii.eqb c (ascii_of_nat 10) then EmptyString :: splitLines s'
    else match splitLines s' with
         | [] => [String c EmptyString]
         | l :: ls => String c l :: ls
         end
  end.

(** Go's [int] on a 64-bit target: arithmetic wraps around. *)
Definition int_bits : Z := 64.
Definition min_int : Z := - 2 ^ (int_bits - 1).
Definition max_int : Z := 2 ^ (int_bits - 1) - 1.
Definition wrap (z : Z) : Z :=
  (z + 2 ^ (int_bits - 1)) mod 2 ^ int_bits - 2 ^ (int_bits - 1).
Definition int_add (a b : Z) : Z := wrap (a + b).
Definition int_sub (a b : Z) : Z := wrap (a - b).

(** [unicode.IsDigit]: Latin-1 is decided inline, everything above by the
    [unicode.Digit] range table [(lo, hi, stride)] of the Go release in use,
    which is a parameter of the development. *)
Definition inRange (r : rune) (e : Z * Z * Z) : bool :=
  let '(lo, hi, stride) := e in
  (lo <=? r) && (r <=? hi) && ((r - lo) mod stride =? 0).

Definition IsDigit (Digit : list (Z * Z * Z)) (r : rune) : bool :=
  if r <=? 255 then (runeOf "0" <=? r) && (r <=? runeOf "9")
  else existsb (inRange r) Digit.

(* ================================================================== *)
(** ** Node tree *)

Inductive NodeType : Type :=
| NodeUnknown
| NodeObject
| NodeArray
| NodeString
| NodeNumber
| NodeBoolean
| NodeNull.

(** [Type_] is the field [Type] of the source. The zero value of an unset
    field is [EmptyString], [[]] or [0]. *)
#[local] Unset Elimination Schemes.
Inductive Node : Type := mkNode {
  Type_ : NodeType;
  Value : string;
  Children : list Node;
  StartLine : Z;
  StartCol : Z;
  EndLine : Z;
  EndCol : Z;
  Source : string
}.
#[local] Set Elimination Schemes.

Definition withValue (n : Node) (v : string) : Node :=
  mkNode (Type_ n) v (Children n)
         (StartLine n) (StartCol n) (EndLine n) (EndCol n) (Source n).

Definition withChildren (n : Node) (cs : list Node) : Node :=
  mkNode (Type_ n) (Value n) cs
         (StartLine n) (StartCol n) (EndLine n) (EndCol n) (Source n).

Definition withEnd (n : Node) (l c : Z) : Node :=
  mkNode (Type_ n) (Value n) (Children n)
         (StartLine n) (StartCol n) l c (Source n).

(** [m] is a node of the tree rooted at [n]. *)
Inductive InTree (m : Node) : Node -> Prop :=
| InTree_root : InTree m m
| InTree_child : forall c n, In c (Children n) -> InTree m c -> InTree m n.

(* ================================================================== *)
(** ** Cursor *)

(** [pos] and [length] index the rune slice and are kept in [nat]; [line]
    and [col] flow into the nodes as [int] and are kept in [Z]. Both grow
    by one per consumed rune from 1, so they stay below the slice length
    plus two and never wrap. *)
Record Parser : Type := mkParser {
  runes : list rune;
  pos : nat;
  line : Z;
  col : Z;
  length : nat;
  source : string
}.

Definition NewParser (input : string) : Parser :=
  let r := runesOf input in
  mkParser r 0 1 1 (List.length r) input.

Definition isEOF (p : Parser) : bool := (length p <=? pos p)%nat.

(** [length] is the length of [runes] in every state that [NewParser]
    builds or a method returns (predicate [wf]), so the index below stays
    inside the slice. *)
Definition peekChar (p : Parser) : rune :=
  if (length p <=? pos p)%nat then 0 else nth (pos p) (runes p) 0.

Definition consumeChar (p : Parser) : Parser :=
  if (length p <=? pos p)%nat then p
  else
    let ch := nth (pos p) (runes p) 0 in
    if ch =? rNewline
    then mkParser (runes p) (S (pos p)) (line p + 1) 1 (length p) (source p)
    else mkParser (runes p) (S (pos p)) (line p) (col p + 1) (length p) (source p).

Definition remaining (p : Parser) : string :=
  if (length p <=? pos p)%nat then EmptyString
  else stringOfRunes (skipn (pos p) (runes p)).

Definition isSpace (ch : rune) : bool :=
  (ch =? rSpace) || (ch =? rTab) || (ch =? rNewline) || (ch =? rCR).

Fixpoint skipWhitespaceLoop (fuel : nat) (p : Parser) : Parser :=
  match fuel with
  | O => p
  | S fuel =>
    if isEOF p then p
    else if isSpace (peekChar p) then skipWhitespaceLoop fuel (consumeChar p)
    else p
  end.

(** The loop runs at most once per remaining rune. *)
Definition skipWhitespace (p : Parser) : Parser :=
  skipWhitespaceLoop (length p - pos p) p.

(** [k] calls of [consumeChar]. *)
Definition advance (k : nat) (p : Parser) : Parser := Nat.iter k consumeChar p.

(* ================================================================== *)
(** ** Value grammar *)

Definition newNode (t : NodeType) (p : Parser) : Node :=
  mkNode t EmptyString [] (line p) (col p) 0 0 (source p).

(** [fmt.Errorf("<msg> at line %d col %d", p.line, p.col)]. *)
Definition errAt (msg : string) (p : Parser) : string :=
  (msg ++ " at line " ++ itoa (line p) ++ " col " ++ itoa (col p))%string.

Definition Result : Type := (Node * option string * Parser)%type.

Fixpoint stringLoop (fuel : nat) (n : Node) (sb : string) (p : Parser)
  : option Result :=
  match fuel with
  | O => None
  | S fuel =>
    if isEOF p then
      Some (withEnd (withValue n sb) (line p) (col p),
            Some "unexpected end of input in string", p)
    else
      let ch := peekChar p in
      if ch =? rQuote then
        let p := consumeChar p in
        Some (withEnd (withValue n sb) (line p) (col p), None, p)
      else if ch =? rBackslash then
        let p := consumeChar p in
        if isEOF p then
          Some (n, Some "unexpected end of input in string escape", p)
        else
          let escaped := peekChar p in
          stringLoop fuel n (sb ++ encodeRune escaped)%string (consumeChar p)
      else
        stringLoop fuel n (sb ++ encodeRune ch)%string (consumeChar p)
  end.

Definition parseString (p : Parser) : option Result :=
  let n := newNode NodeString p in
  let p := consumeChar p in
  stringLoop (S (length p - pos p)) n EmptyString p.

Section Number.

Variable Digit : list (Z * Z * Z).

Definition isNumberChar (ch : rune) : bool :=
  (ch =? runeOf "-") || (ch =? runeOf "+") || (ch =? runeOf ".")
  || IsDigit Digit ch.

Fixpoint numberLoop (fuel : nat) (sb : string) (p : Parser) : string * Parser :=
  match fuel with
  | O => (sb, p)
  | S fuel =>
    if isEOF p then (sb, p)
    else
      let ch := peekChar p in
      if isNumberChar ch
      then numberLoop fuel (sb ++ encodeRune ch)%string (consumeChar p)
      else (sb, p)
  end.

Definition parseNumber (p : Parser) : Result :=
  let n := newNode NodeNumber p in
  let '(sb, p) := numberLoop (length p - pos p) EmptyString p in
  (withEnd (withValue n sb) (line p) (col p), None, p).

End Number.

Definition parseBoolean (p : Parser) : Result :=
  let n := newNode NodeBoolean p in
  if HasPrefix (remaining p) "true" then
    let p := advance 4 p in
    (withEnd (withValue n "true") (line p) (col p), None, p)
  else if HasPrefix (remaining p) "false" then
    let p := advance 5 p in
    (withEnd (withValue n "false") (line p) (col p), None, p)
  else (n, Some (errAt "invalid boolean" p), p).

Definition parseNull (p : Parser) : Result :=
  let n := newNode NodeNull p in
  if HasPrefix (remaining p) "null" then
    let p := advance 4 p in
    (withEnd (withValue n "null") (line p) (col p), None, p)
  else (n, Some (errAt "invalid null" p), p).

(** One pass through the body of a [for] loop of [parseObject] or
    [parseArray]: the function returns, the loop goes round again, or a
    nested call ran out of fuel. *)
Inductive LoopStep : Type :=
| Return (n : Node) (err : option string) (p : Parser)
| Continue (n : Node) (p : Parser)
| Exhausted.

(** [[]*Node{valueNode}]; [parseValue] returns a [nil] node only together
    with an error, so the [None] case is not reached (lemma
    [parseValue_node]). *)
Definition single (v : option Node) : list Node :=
  match v with
  | Some v => [v]
  | None => []
  end.

Section Grammar.

(** The recursive call, at the fuel left for nested values. *)
Variable parseValue : Parser -> option (option Node * option string * Parser).

Definition objectIter (n : Node) (p : Parser) : LoopStep :=
  let p := skipWhitespace p in
  if negb (peekChar p =? rQuote) then
    Return n (Some (errAt "expected string key" p)) p
  else
    match parseString p with
    | None => Exhausted
    | Some (keyNode, Some err, p) => Return n (Some err) p
    | Some (keyNode, None, p) =>
      let p := skipWhitespace p in
      if negb (peekChar p =? runeOf ":") then
        Return n (Some (errAt "expected ':' after object key" p)) p
      else
        let p := consumeChar p in
        match parseValue p with
        | None => Exhausted
        | Some (valueNode, Some err, p) => Return n (Some err) p
        | Some (valueNode, None, p) =>
          let keyNode := withChildren keyNode (single valueNode) in
          let n := withChildren n (Children n ++ [keyNode])%list in
          let p := skipWhitespace p in
          if peekChar p =? runeOf "}" then
            let p := consumeChar p in
            Return (withEnd n (line p) (col p)) None p
          else if negb (peekChar p =? runeOf ",") then
            Return n (Some (errAt "expected ',' or '}' in object" p)) p
          else Continue n (consumeChar p)
        end
    end.

Fixpoint objectLoop (fuel : nat) (n : Node) (p : Parser) : option Result :=
  match fuel with
  | O => None
  | S fuel =>
    match objectIter n p with
    | Return n err p => Some (n, err, p)
    | Continue n p => objectLoop fuel n p
    | Exhausted => None
    end
  end.

Definition parseObject (fuel : nat) (p : Parser) : option Result :=
  let n := newNode NodeObject p in
  let p := consumeChar p in
  let p := skipWhitespace p in
  let n := withChildren n [] in
  if peekChar p =? runeOf "}" then
    let p := consumeChar p in
    Some (withEnd n (line p) (col p), None, p)
  else objectLoop fuel n p.

Definition arrayIter (n : Node) (p : Parser) : LoopStep :=
  match parseValue p with
  | None => Exhausted
  | Some (valueNode, Some err, p) => Return n (Some err) p
  | Some (valueNode, None, p) =>
    let n := withChildren n (Children n ++ single valueNode)%list in
    let p := skipWhitespace p in
    if peekChar p =? runeOf "]" then
      let p := consumeChar p in
      Return (withEnd n (line p) (col p)) None p
    else if negb (peekChar p =? runeOf ",") then
      Return n (Some (errAt "expected ',' or ']' in array" p)) p
    else Continue n (skipWhitespace (consumeChar p))
  end.

Fixpoint arrayLoop (fuel : nat) (n : Node) (p : Parser) : option Result :=
  match fuel with
  | O => None
  | S fuel =>
    match arrayIter n p with
    | Return n err p => Some (n, err, p)
    | Continue n p => arrayLoop fuel n p
    | Exhausted => None
    end
  end.

Definition parseArray (fuel : nat) (p : Parser) : option Result :=
  let n := newNode NodeArray p in
  let p := consumeChar p in
  let p := skipWhitespace p in
  let n := withChildren n [] in
  if peekChar p =? runeOf "]" then
    let p := consumeChar p in
    Some (withEnd n (line p) (col p), None, p)
  else arrayLoop fuel n p.

End Grammar.

Definition nodeResult (r : option Result)
  : option (option Node * option string * Parser) :=
  match r with
  | None => None
  | Some (n, err, p) => Some (Some n, err, p)
  end.

Section Parse.

Variable Digit : list (Z * Z * Z).

Fixpoint parseValue (fuel : nat) (p : Parser)
  : option (option Node * option string * Parser) :=
  match fuel with
  | O => None
  | S fuel =>
    let p := skipWhitespace p in
    if isEOF p then Some (None, Some "unexpected end of input", p)
    else
      let ch := peekChar p in
      if ch =? runeOf "{" then nodeResult (parseObject (parseValue fuel) fuel p)
      else if ch =? runeOf "[" then nodeResult (parseArray (parseValue fuel) fuel p)
      else if ch =? rQuote then nodeResult (parseString p)
      else if (ch =? runeOf "t") || (ch =? runeOf "f") then
        nodeResult (Some (parseBoolean p))
      else if ch =? runeOf "n" then nodeResult (Some (parseNull p))
      else nodeResult (Some (parseNumber Digit p))
  end.

(** [Parse], with the fuel that [parseValue] needs for the runes that are
    left (theorem [Parse_total]). After a successful value only trailing
    white space is skipped; what follows it is ignored. *)
Definition Parse (p : Parser) : option (option Node * option string * Parser) :=
  match parseValue (S (length p - pos p)) p with
  | None => None
  | Some (n, Some err, p) => Some (n, Some err, p)
  | Some (n, None, p) => Some (n, None, skipWhitespace p)
  end.

End Parse.

(* ================================================================== *)
(** ** Debug context renderer *)

Definition nl : string := String (ascii_of_nat 10) EmptyString.

(** What one [builder.WriteString] call appends: a numbered source line,
    or a caret line under the start or the end column. *)
Inductive Emit : Type :=
| EmitLine (lineNum : Z) (text : string)
| EmitStart (caretPos : Z)
| EmitEnd (caretPos : Z).

Definition render (e : Emit) : string :=
  match e with
  | EmitLine lineNum text => (itoa lineNum ++ ": " ++ text ++ nl)%string
  | EmitStart caretPos => (Repeat " " caretPos ++ "^ start" ++ nl)%string
  | EmitEnd caretPos => (Repeat " " caretPos ++ "^ end" ++ nl)%string
  end.

Definition isEmitLine (e : Emit) : bool :=
  match e with
  | EmitLine _ _ => true
  | _ => false
  end.

(** [sourceLines[i]]: an index outside the slice panics ([None]). *)
Definition index (sourceLines : list string) (i : Z) : option string :=
  if i <? 0 then None else nth_error sourceLines (Z.to_nat i).

Definition len (s : string) : Z := Z.of_nat (String.length s).

Definition caret (mk : Z -> Emit) (caretPos : Z) (text : string) : list Emit :=
  if (0 <? caretPos) && (caretPos <=? len text) then [mk caretPos] else [].

(** The body of the [for] loop at line index [i]. *)
Definition contextIter (n : Node) (sourceLines : list string) (i : Z)
  : option (list Emit) :=
  let lineNum := int_add i 1 in
  match index sourceLines i with
  | None => None
  | Some text =>
    Some ([EmitLine lineNum text]
          ++ (if lineNum =? StartLine n then caret EmitStart (StartCol n) text
              else [])
          ++ (if lineNum =? EndLine n then caret EmitEnd (EndCol n) text
              else []))%list
  end.

Fixpoint contextLoop (n : Node) (sourceLines : list string) (count : nat)
  (i : Z) (out : list Emit) : option (list Emit) :=
  match count with
  | O => Some out
  | S count =>
    match contextIter n sourceLines i with
    | None => None
    | Some es => contextLoop n sourceLines count (int_add i 1) (out ++ es)%list
    end
  end.

(** [for i := start; i <= end; i++] runs [end - start + 1] times when
    [start <= end] and not at all otherwise: [end] is below the number of
    lines, so [i++] does not wrap. *)
Definition DebugContextEmits (n : Node) (linesBefore linesAfter : Z)
  : option (list Emit) :=
  let sourceLines := splitLines (Source n) in
  let count := Z.of_nat (List.length sourceLines) in
  let start := int_sub (int_sub (StartLine n) 1) linesBefore in
  let start := if start <? 0 then 0 else start in
  let end_ := int_add (int_sub (EndLine n) 1) linesAfter in
  let end_ := if end_ >=? count then int_sub count 1 else end_ in
  contextLoop n sourceLines (Z.to_nat (end_ - start + 1)) start [].

Definition DebugContext (n : Node) (linesBefore linesAfter : Z)
  : option string :=
  option_map (fun es => String.concat EmptyString (map render es))
             (DebugContextEmits n linesBefore linesAfter).

(** The integers from [lo] through [hi]. *)
Definition zrange (lo hi : Z) : list Z :=
  map (fun k => lo + Z.of_nat k) (seq 0 (Z.to_nat (hi - lo + 1))).

(* ================================================================== *)
(** ** Spans *)

Definition startPos (n : Node) : Z * Z := (StartLine n, StartCol n).
Definition endPos (n : Node) : Z * Z := (EndLine n, EndCol n).
Definition cursor (p : Parser) : Z * Z := (line p, col p).

(** Order of positions: by line, then by column. *)
Definition posLe (a b : Z * Z) : Prop :=
  fst a < fst b \/ (fst a = fst b /\ snd a <= snd b).

Definition posLt (a b : Z * Z) : Prop :=
  fst a < fst b \/ (fst a = fst b /\ snd a < snd b).

(** The span invariant of the data model. *)
Definition spanOk (n : Node) : Prop :=
  StartLine n <= EndLine n /\ (StartLine n = EndLine n -> StartCol n <= EndCol n).

(* ================================================================== *)
(** ** Vocabulary of the specification *)

(** A parser state as [NewParser] builds it and every method keeps it. *)
Definition wf (p : Parser) : Prop := length p = List.length (runes p).

(** [p'] is [p] after consuming some runes. *)
Record reach (p p' : Parser) : Prop := mkReach {
  reach_runes : runes p' = runes p;
  reach_length : length p' = length p;
  reach_source : source p' = source p;
  reach_pos : (pos p <= pos p')%nat;
  reach_bound : (pos p <= length p -> pos p' <= length p)%nat;
  reach_cursor : posLe (cursor p) (cursor p')
}.

(** Fields that the scanners leave alone while they fill in a node. *)
Record sameShape (n n' : Node) : Prop := mkSameShape {
  shape_type : Type_ n' = Type_ n;
  shape_children : Children n' = Children n;
  shape_start : startPos n' = startPos n;
  shape_source : Source n' = Source n
}.

Ltac inv H := inversion H; subst; clear H.

(** [E : t = v], for [v] the value that [t] evaluates to. *)
Ltac evaluate t E :=
  let v := eval vm_compute in t in
  assert (E : t = v) by (vm_compute; reflexivity).

(** The span of [a] encloses the span of [b]. *)
Definition encloses (a b : Node) : Prop :=
  posLe (startPos a) (startPos b) /\ posLe (endPos b) (endPos a).

(** A child of an object: the node that [parseString] returned for the
    key, ending where [parseString] left the cursor, with the value as its
    one child, the value starting after the key has ended. *)
Definition keyProp (k : Node) : Prop :=
  exists k0 v p0 p1,
    peekChar p0 = rQuote /\ parseString p0 = Some (k0, None, p1) /\
    k = withChildren k0 [v] /\ endPos k = cursor p1 /\
    posLt (endPos k) (startPos v) /\ posLe (startPos v) (endPos v).

Definition nodeOk (n : Node) : Prop :=
  spanOk n /\ (Type_ n = NodeObject -> Forall keyProp (Children n)).

Definition treeOk (n : Node) : Prop := forall m, InTree m n -> nodeOk m.

(** What a value parser promises about the result it returns from [p]. *)
Definition valueOk (p : Parser) (r : option Node * option string * Parser)
  : Prop :=
  let '(on, err, p') := r in
  reach p p'
  /\ (forall n, on = Some n -> forall c, In c (Children n) -> treeOk c)
  /\ (err = None ->
      exists n, on = Some n /\ nodeOk n
                /\ posLe (cursor p) (startPos n) /\ endPos n = cursor p').

(** The node [n] under construction in a loop whose cursor is at [p]. *)
Definition accOk (n : Node) (p : Parser) : Prop :=
  posLe (startPos n) (cursor p)
  /\ (forall c, In c (Children n) -> treeOk c)
  /\ (Type_ n = NodeObject -> Forall keyProp (Children n)).

(** What [parseObject] and [parseArray] promise when they return, having
    started to fill [n] at [p]. *)
Definition loopOk (n : Node) (p : Parser) (r : Result) : Prop :=
  let '(n', err, p') := r in
  reach p p' /\ startPos n' = startPos n /\ Type_ n' = Type_ n
  /\ (forall c, In c (Children n') -> treeOk c)
  /\ (err = None -> nodeOk n' /\ endPos n' = cursor p').

Definition stepOk (n : Node) (p : Parser) (s : LoopStep) : Prop :=
  match s with
  | Return n' err p' => loopOk n p (n', err, p')
  | Continue n' p' =>
    reach p p' /\ (pos p < pos p')%nat /\ accOk n' p'
    /\ startPos n' = startPos n /\ Type_ n' = Type_ n
  | Exhausted => True
  end.

(** Runes that are left to read. *)
Definition unread (p : Parser) : nat := length p - pos p.

Definition quoted (s : string) : string :=
  String quoteChar (s ++ String quoteChar EmptyString).

(** The first range of [unicode.Digit]; enough for Latin-1 input. *)
Definition latinDigit : list (Z * Z * Z) := [(48, 57, 1)].

Definition unclosedObject : string := "{" ++ quoted "key" ++ ": " ++ quoted "value".
Definition unclosedArray : string := "[1, 2, 3".
Definition unclosedString : string :=
  "{" ++ quoted "key" ++ ": " ++ String quoteChar "value".
Definition invalidBoolean : string := "{" ++ quoted "key" ++ ": tru}".
Definition nestedDocument : string :=
  "{" ++ quoted "a" ++ ": [1, {" ++ quoted "b" ++ ": true}]," ++ nl
      ++ quoted "c" ++ ": null}".

(** Induction on a tree, with the property at hand for every child. *)
Fixpoint Node_induction (P : Node -> Prop)
  (step : forall n, Forall P (Children n) -> P n) (n : Node) {struct n} : P n :=
  match n as n0 return (Forall P (Children n0) -> P n0) -> P n0 with
  | mkNode t v cs sl sc el ec src =>
    fun k =>
      k ((fix children (l : list Node) : Forall P l :=
            match l with
            | [] => Forall_nil P
            | c :: l' => Forall_cons c (Node_induction P step c) (children l')
            end) cs)
  end (step n).

(** Kind, literal and number of children of the root of a result. *)
Definition summary (r : option (option Node * option string * Parser))
  : option (NodeType * string * nat) :=
  match r with
  | Some (Some n, None, _) => Some (Type_ n, Value n, List.length (Children n))
  | _ => None
  end.

(** The error of a result, or the empty message. *)
Definition errorOf (r : option (option Node * option string * Parser)) : string :=
  match r with
  | Some (_, Some e, _) => e
  | _ => EmptyString
  end.

Definition failed (r : option (option Node * option string * Parser)) : bool :=
  match r with
  | Some (_, Some _, _) => true
  | _ => false
  end.

(** The body of a string literal, item by item: a rune that stands for
    itself, or a backslash with the rune after it. *)
Inductive StrItem : Type :=
| Plain (c : rune)
| Escaped (c : rune).

(** The runes that an item takes up in the input. *)
Definition itemRunes (i : StrItem) : list rune :=
  match i with
  | Plain c => [c]
  | Escaped c => [rBackslash; c]
  end.

(** The rune that an item contributes to the literal. *)
Definition itemLit (i : StrItem) : rune :=
  match i with
  | Plain c => c
  | Escaped c => c
  end.

(** A rune that stands for itself is neither the quote nor a backslash. *)
Definition itemOk (i : StrItem) : Prop :=
  match i with
  | Plain c => c <> rQuote /\ c <> rBackslash
  | Escaped _ => True
  end.

Definition bodyRunes (items : list StrItem) : list rune := flat_map itemRunes items.
Definition bodyLit (items : list StrItem) : string := stringOfRunes (map itemLit items).

Definition danglingEscape : string := String quoteChar "ab\".
Definition escapedN : string := quoted "a\nb".

(** The runes that a number is made of: a sign, the point, or a digit. *)
Definition numberRune (Digit : list (Z * Z * Z)) (c : rune) : Prop :=
  c = runeOf "-" \/ c = runeOf "+" \/ c = runeOf "." \/ IsDigit Digit c = true.

(** The window of the specification, in mathematical integers. *)
Definition windowLo (n : Node) (linesBefore : Z) : Z :=
  Z.max 0 (StartLine n - 1 - linesBefore).

Definition windowHi (n : Node) (linesAfter : Z) : Z :=
  Z.min (Z.of_nat (List.length (splitLines (Source n))) - 1)
        (EndLine n - 1 + linesAfter).

(** The numbered source line with index [i]. *)
Definition sourceLine (n : Node) (i : Z) : Emit :=
  EmitLine (i + 1) (nth (Z.to_nat i) (splitLines (Source n)) EmptyString).

(** What the specification says of a call: it returns, and the source
    lines it emits are those of the window, in order, each inside the
    document. *)
Definition windowSpec (n : Node) (linesBefore linesAfter : Z) : Prop :=
  exists emits,
    DebugContextEmits n linesBefore linesAfter = Some emits
    /\ DebugContext n linesBefore linesAfter
       = Some (String.concat EmptyString (map render emits))
    /\ filter isEmitLine emits
       = map (sourceLine n) (zrange (windowLo n linesBefore) (windowHi n linesAfter))
    /\ Forall (fun i => 0 <= i < Z.of_nat (List.length (splitLines (Source n))))
              (zrange (windowLo n linesBefore) (windowHi n linesAfter)).

Definition inInt (z : Z) : Prop := min_int <= z <= max_int.

(** What the body of the loop emits at a line index inside the document. *)
Definition lineEmits (n : Node) (i : Z) : list Emit :=
  let text := nth (Z.to_nat i) (splitLines (Source n)) EmptyString in
  (sourceLine n i
   :: (if i + 1 =? StartLine n then caret EmitStart (StartCol n) text else [])
   ++ (if i + 1 =? EndLine n then caret EmitEnd (EndCol n) text else []))%list.

(* ================================================================== *)
(** ** Vocabulary of the further properties *)

(** White space: space, tab, line feed, carriage return. *)
Definition spaceRune (c : rune) : Prop :=
  c = rSpace \/ c = rTab \/ c = rNewline \/ c = rCR.

(** Line of the position behind the runes [consumed]: one more than the
    number of line feeds among them. *)
Definition lineOf (consumed : list rune) : Z :=
  1 + Z.of_nat (count_occ Z.eq_dec consumed rNewline).

(** Number of runes in front of the first line feed. *)
Fixpoint plainPrefix (l : list rune) : nat :=
  match l with
  | [] => O
  | c :: l' => if c =? rNewline then O else S (plainPrefix l')
  end.

(** Column of the position behind the runes [consumed]: one more than the
    number of runes behind the last line feed. *)
Definition colOf (consumed : list rune) : Z :=
  1 + Z.of_nat (plainPrefix (rev consumed)).

(** Line and column of the rune offset [i] of the input [rs]. *)
Definition posAt (rs : list rune) (i : nat) : Z * Z :=
  (lineOf (firstn i rs), colOf (firstn i rs)).

(** A state whose line and column are those of its offset. *)
Definition tracked (p : Parser) : Prop :=
  wf p /\ (pos p <= length p)%nat /\ cursor p = posAt (runes p) (pos p).

(** [p'] is [p] after some calls of [consumeChar]. *)
Definition consumedTo (p p' : Parser) : Prop := exists k, p' = advance k p.

(** The runes [i], ..., [j - 1] of [rs]. *)
Definition slice (rs : list rune) (i j : nat) : list rune :=
  firstn (j - i) (skipn i rs).

(** The runes of a word of ASCII letters. *)
Definition asciiRunes (w : string) : list rune := bytesOf w.

(** The kind of node that a value starting with the rune [c] gets. *)
Definition kindOf (c : rune) : NodeType :=
  if c =? runeOf "{" then NodeObject
  else if c =? runeOf "[" then NodeArray
  else if c =? rQuote then NodeString
  else if (c =? runeOf "t") || (c =? runeOf "f") then NodeBoolean
  else if c =? runeOf "n" then NodeNull
  else NodeNumber.

(** The messages that come with a line and a column. *)
Definition positionalErrors : list string :=
  [ "expected string key"; "expected ':' after object key";
    "expected ',' or '}' in object"; "expected ',' or ']' in array";
    "invalid boolean"; "invalid null" ].

(** The errors of the parser: the three for the end of the input, raised
    at the end of the input only, and the positional ones, which carry the
    line and column of the state [p'] that is returned with them. *)
Definition knownError (e : string) (p' : Parser) : Prop :=
  (isEOF p' = true
   /\ (e = "unexpected end of input"
       \/ e = "unexpected end of input in string"
       \/ e = "unexpected end of input in string escape"))
  \/ exists msg, In msg positionalErrors /\ e = errAt msg p'.

(** What a parse function promises about the state and the error it
    returns from [p]. *)
Definition errOk (p : Parser) (err : option string) (p' : Parser) : Prop :=
  consumedTo p p' /\ forall e, err = Some e -> knownError e p'.

Definition stepErr (p : Parser) (s : LoopStep) : Prop :=
  match s with
  | Return _ err p' => errOk p err p'
  | Continue _ p' => consumedTo p p'
  | Exhausted => True
  end.

(** The code of a byte of a string. *)
Definition codeOf (a : ascii) : Z := Z.of_N (N_of_ascii a).

(** A word whose bytes are all below 128. *)
Fixpoint asciiWord (w : string) : Prop :=
  match w with
  | EmptyString => True
  | String a w' => codeOf a < 128 /\ asciiWord w'
  end.

(** Between the offsets [a] and [b] there is the rune [sep], with nothing
    but white space on either side of it. *)
Definition separated (rs : list rune) (a : nat) (sep : rune) (b : nat) : Prop :=
  exists c,
    (a <= c < b)%nat
    /\ Forall spaceRune (slice rs a c)
    /\ nth c rs 0 = sep
    /\ Forall spaceRune (slice rs (S c) b).

(** The spans [(start, end)] follow each other behind the offset [e], each
    separated by a comma from what is in front of it. *)
Fixpoint chained (rs : list rune) (e : nat) (spans : list (nat * nat)) : Prop :=
  match spans with
  | [] => True
  | s :: rest =>
    separated rs e (runeOf ",") (fst s) /\ (fst s <= snd s)%nat
    /\ chained rs (snd s) rest
  end.

(** The end of the last span, or [e] when there is none. *)
Fixpoint lastEnd (e : nat) (spans : list (nat * nat)) : nat :=
  match spans with
  | [] => e
  | s :: rest => lastEnd (snd s) rest
  end.

(** A node is laid out as a value, or as the key of a member of an object
    together with its value. *)
Inductive Role : Type :=
| AsValue
| AsKey.

(** The two composite kinds: the role of the children and the brackets. *)
Inductive Bracket : NodeType -> Role -> rune -> rune -> Prop :=
| Bracket_array : Bracket NodeArray AsValue (runeOf "[") (runeOf "]")
| Bracket_object : Bracket NodeObject AsKey (runeOf "{") (runeOf "}").

Section Layout.

Variable Digit : list (Z * Z * Z).
Variable input : string.

(** The node [n], of kind [t], starts at the offset [i] and ends at the
    offset [j] of the runes of [input], and carries [input] as its source. *)
Definition placed (n : Node) (t : NodeType) (i j : nat) : Prop :=
  (i <= j <= List.length (runesOf input))%nat
  /\ Type_ n = t /\ Source n = input
  /\ startPos n = posAt (runesOf input) i
  /\ endPos n = posAt (runesOf input) j.

(** [Layout role n i j]: the runes [i], ..., [j - 1] of the input are the
    text of the node [n] with all its descendants. For a value, [j] is
    also the end of [n]; for a key, [n] ends behind the closing quote of
    the key, and [j] is the end of its value. *)
#[local] Unset Elimination Schemes.
Inductive Layout : Role -> Node -> nat -> nat -> Prop :=
| Lay_number n i j :
    placed n NodeNumber i j -> Children n = [] ->
    Forall (numberRune Digit) (slice (runesOf input) i j) ->
    Value n = stringOfRunes (slice (runesOf input) i j) ->
    Layout AsValue n i j
| Lay_boolean n i j w :
    placed n NodeBoolean i j -> Children n = [] ->
    w = "true" \/ w = "false" ->
    slice (runesOf input) i j = asciiRunes w -> Value n = w ->
    Layout AsValue n i j
| Lay_null n i j :
    placed n NodeNull i j -> Children n = [] ->
    slice (runesOf input) i j = asciiRunes "null" -> Value n = "null" ->
    Layout AsValue n i j
| Lay_string n i j items :
    placed n NodeString i j -> Children n = [] ->
    slice (runesOf input) i j = (rQuote :: bodyRunes items ++ [rQuote])%list ->
    Forall itemOk items -> Value n = bodyLit items ->
    Layout AsValue n i j
| Lay_key n i j items v iv jv :
    placed n NodeString i j ->
    slice (runesOf input) i j = (rQuote :: bodyRunes items ++ [rQuote])%list ->
    Forall itemOk items -> Value n = bodyLit items ->
    Children n = [v] ->
    separated (runesOf input) j (runeOf ":") iv ->
    Layout AsValue v iv jv ->
    Layout AsKey n i jv
| Lay_empty n i j t role o c :
    Bracket t role o c -> placed n t i j ->
    Value n = EmptyString -> Children n = [] ->
    nth i (runesOf input) 0 = o -> (S i < j)%nat ->
    Forall spaceRune (slice (runesOf input) (S i) (j - 1)) ->
    nth (j - 1) (runesOf input) 0 = c ->
    Layout AsValue n i j
| Lay_items n i j t role o c s spans :
    Bracket t role o c -> placed n t i j ->
    Value n = EmptyString ->
    nth i (runesOf input) 0 = o ->
    (S i <= fst s <= snd s)%nat ->
    Forall spaceRune (slice (runesOf input) (S i) (fst s)) ->
    chained (runesOf input) (snd s) spans ->
    Forall2 (fun ch sp => Layout role ch (fst sp) (snd sp)) (Children n) (s :: spans) ->
    (lastEnd (snd s) spans < j)%nat ->
    Forall spaceRune (slice (runesOf input) (lastEnd (snd s) spans) (j - 1)) ->
    nth (j - 1) (runesOf input) 0 = c ->
    Layout AsValue n i j.
#[local] Set Elimination Schemes.

(** A state of a parser that [NewParser] made for [input]. *)
Definition onInput (p : Parser) : Prop :=
  runes p = runesOf input /\ source p = input /\ tracked p.

(** The node [n] that a loop is filling, for the bracket at the offset
    [i0], with the cursor at [p] in front of the next child. *)
Definition filling (t : NodeType) (role : Role) (n : Node) (i0 : nat)
  (p : Parser) : Prop :=
  Type_ n = t /\ Source n = input /\ Value n = EmptyString
  /\ startPos n = posAt (runesOf input) i0
  /\ (i0 < pos p)%nat
  /\ ((Children n = []
       /\ Forall spaceRune (slice (runesOf input) (S i0) (pos p)))
      \/ exists s spans,
           (S i0 <= fst s <= snd s)%nat
           /\ Forall spaceRune (slice (runesOf input) (S i0) (fst s))
           /\ chained (runesOf input) (snd s) spans
           /\ Forall2 (fun ch sp => Layout role ch (fst sp) (snd sp))
                      (Children n) (s :: spans)
           /\ separated (runesOf input) (lastEnd (snd s) spans) (runeOf ",") (pos p)).

(** The node [n] of a loop, for the bracket at the offset [i0], with its
    last child ending at the offset [e]. *)
Definition filled (t : NodeType) (role : Role) (n : Node) (i0 e : nat) : Prop :=
  Type_ n = t /\ Source n = input /\ Value n = EmptyString
  /\ startPos n = posAt (runesOf input) i0
  /\ exists s spans,
       (S i0 <= fst s <= snd s)%nat
       /\ Forall spaceRune (slice (runesOf input) (S i0) (fst s))
       /\ chained (runesOf input) (snd s) spans
       /\ Forall2 (fun ch sp => Layout role ch (fst sp) (snd sp))
                  (Children n) (s :: spans)
       /\ lastEnd (snd s) spans = e.

(** What a value parser promises about a result without an error. *)
Definition valueLay (p : Parser)
  (r : option Node * option string * Parser) : Prop :=
  let '(on, err, p') := r in
  err = None ->
  exists n i,
    on = Some n /\ onInput p' /\ (pos p <= i)%nat
    /\ Forall spaceRune (slice (runesOf input) (pos p) i)
    /\ Layout AsValue n i (pos p').

Definition stepLay (t : NodeType) (role : Role) (n : Node) (i0 : nat)
  (s : LoopStep) : Prop :=
  match s with
  | Return n' None p' => onInput p' /\ Layout AsValue n' i0 (pos p')
  | Return _ (Some _) _ => True
  | Continue n' p' => onInput p' /\ filling t role n' i0 p'
  | Exhausted => True
  end.

End Layout.

(** The literal of a node against the runes [i], ..., [j - 1] of its
    span: a number, a boolean and [null] hold these runes as they are; a
    string holds the runes between its quotes with the escaping
    backslashes left out; an array and an object hold nothing, and their
    span runs from the opening to the closing bracket. *)
Definition textOf (Digit : list (Z * Z * Z)) (rs : list rune) (m : Node)
  (i j : nat) : Prop :=
  match Type_ m with
  | NodeNumber =>
    Forall (numberRune Digit) (slice rs i j)
    /\ Value m = stringOfRunes (slice rs i j)
  | NodeBoolean =>
    (Value m = "true" \/ Value m = "false")
    /\ Value m = stringOfRunes (slice rs i j)
  | NodeNull => Value m = "null" /\ Value m = stringOfRunes (slice rs i j)
  | NodeString =>
    exists items,
      slice rs i j = (rQuote :: bodyRunes items ++ [rQuote])%list
      /\ Forall itemOk items /\ Value m = bodyLit items
  | NodeArray =>
    Value m = EmptyString /\ (i < j)%nat
    /\ nth i rs 0 = runeOf "[" /\ nth (j - 1) rs 0 = runeOf "]"
  | NodeObject =>
    Value m = EmptyString /\ (i < j)%nat
    /\ nth i rs 0 = runeOf "{" /\ nth (j - 1) rs 0 = runeOf "}"
  | NodeUnknown => False
  end.

(** A string that stands as a value has no child. *)
Definition leafValue (v : Node) : Prop := Type_ v = NodeString -> Children v = [].

(** A key: a string with one child, its value. *)
Definition keyShape (k : Node) : Prop :=
  Type_ k = NodeString /\ exists v, Children k = [v] /\ leafValue v.

(** The children that a node of each kind has. *)
Definition shapeOk (m : Node) : Prop :=
  match Type_ m with
  | NodeNumber | NodeBoolean | NodeNull => Children m = []
  | NodeString => Children m = [] \/ keyShape m
  | NodeArray => Forall leafValue (Children m)
  | NodeObject => Forall keyShape (Children m)
  | NodeUnknown => False
  end.

(** Number of line feeds in a list of runes or bytes. *)
Definition newlines (l : list Z) : nat := count_occ Z.eq_dec l rNewline.

(* ================================================================== *)
(** ** Nodes in memory *)

(** [Parse] returns a [*Node]. Every [&Node{...}] makes a new object and
    every assignment to a field goes through the pointer; the objects of
    one call stay in memory while the next call runs. The memory is the
    list of the objects made so far, and a pointer is an index into it. *)
Definition ptr : Type := nat.

Record Cell : Type := mkCell {
  cType : NodeType;
  cValue : string;
  cChildren : list ptr;
  cStartLine : Z;
  cStartCol : Z;
  cEndLine : Z;
  cEndCol : Z;
  cSource : string
}.

Definition Heap : Type := list Cell.

(** [&Node{...}]: the new object gets an address that no pointer holds. *)
Definition alloc (c : Cell) (h : Heap) : ptr * Heap :=
  (List.length h, (h ++ [c])%list).

(** An assignment through the pointer [a]. Every pointer that the parser
    assigns through comes from [alloc], so the first case is not reached
    (lemma [store_app_last]). *)
Fixpoint store (h : Heap) (a : ptr) (f : Cell -> Cell) : Heap :=
  match h, a with
  | [], _ => []
  | c :: h', O => f c :: h'
  | c :: h', S a' => c :: store h' a' f
  end.

Definition setValue (v : string) (c : Cell) : Cell :=
  mkCell (cType c) v (cChildren c)
         (cStartLine c) (cStartCol c) (cEndLine c) (cEndCol c) (cSource c).

Definition setChildren (cs : list ptr) (c : Cell) : Cell :=
  mkCell (cType c) (cValue c) cs
         (cStartLine c) (cStartCol c) (cEndLine c) (cEndCol c) (cSource c).

Definition setEnd (l k : Z) (c : Cell) : Cell :=
  mkCell (cType c) (cValue c) (cChildren c)
         (cStartLine c) (cStartCol c) l k (cSource c).

(** [n.Children = append(n.Children, child)]. *)
Definition appendChild (child : ptr) (c : Cell) : Cell :=
  setChildren (cChildren c ++ [child])%list c.

Definition newCell (t : NodeType) (p : Parser) : Cell :=
  mkCell t EmptyString [] (line p) (col p) 0 0 (source p).

(** The parser on this memory: the functions of the source once more, with
    the node a pointer and its fields assigned in place. *)
Module Mem.

Definition Result : Type := (ptr * option string * Parser * Heap)%type.

Fixpoint stringLoop (fuel : nat) (n : ptr) (sb : string) (p : Parser)
  (h : Heap) : option Result :=
  match fuel with
  | O => None
  | S fuel =>
    if isEOF p then
      Some (n, Some "unexpected end of input in string", p,
            store (store h n (setValue sb)) n (setEnd (line p) (col p)))
    else
      let ch := peekChar p in
      if ch =? rQuote then
        let p := consumeChar p in
        Some (n, None, p,
              store (store h n (setValue sb)) n (setEnd (line p) (col p)))
      else if ch =? rBackslash then
        let p := consumeChar p in
        if isEOF p then
          Some (n, Some "unexpected end of input in string escape", p, h)
        else
          let escaped := peekChar p in
          stringLoop fuel n (sb ++ encodeRune escaped)%string (consumeChar p) h
      else
        stringLoop fuel n (sb ++ encodeRune ch)%string (consumeChar p) h
  end.

Definition parseString (p : Parser) (h : Heap) : option Result :=
  let '(n, h) := alloc (newCell NodeString p) h in
  let p := consumeChar p in
  stringLoop (S (length p - pos p)) n EmptyString p h.

Definition parseNumber (Digit : list (Z * Z * Z)) (p : Parser) (h : Heap)
  : Result :=
  let '(n, h) := alloc (newCell NodeNumber p) h in
  let '(sb, p) := numberLoop Digit (length p - pos p) EmptyString p in
  (n, None, p, store (store h n (setValue sb)) n (setEnd (line p) (col p))).

Definition parseBoolean (p : Parser) (h : Heap) : Result :=
  let '(n, h) := alloc (newCell NodeBoolean p) h in
  if HasPrefix (remaining p) "true" then
    let h := store h n (setValue "true") in
    let p := advance 4 p in
    (n, None, p, store h n (setEnd (line p) (col p)))
  else if HasPrefix (remaining p) "false" then
    let h := store h n (setValue "false") in
    let p := advance 5 p in
    (n, None, p, store h n (setEnd (line p) (col p)))
  else (n, Some (errAt "invalid boolean" p), p, h).

Definition parseNull (p : Parser) (h : Heap) : Result :=
  let '(n, h) := alloc (newCell NodeNull p) h in
  if HasPrefix (remaining p) "null" then
    let h := store h n (setValue "null") in
    let p := advance 4 p in
    (n, None, p, store h n (setEnd (line p) (col p)))
  else (n, Some (errAt "invalid null" p), p, h).

(** The loops fill the node behind the one pointer [n]. *)
Inductive LoopStep : Type :=
| Return (err : option string) (p : Parser) (h : Heap)
| Continue (p : Parser) (h : Heap)
| Exhausted.

(** [[]*Node{valueNode}], see [single]. *)
Definition single (v : option ptr) : list ptr :=
  match v with
  | Some v => [v]
  | None => []
  end.

Section Grammar.

Variable parseValue
  : Parser -> Heap -> option (option ptr * option string * Parser * Heap).

Definition objectIter (n : ptr) (p : Parser) (h : Heap) : LoopStep :=
  let p := skipWhitespace p in
  if negb (peekChar p =? rQuote) then
    Return (Some (errAt "expected string key" p)) p h
  else
    match parseString p h with
    | None => Exhausted
    | Some (keyNode, Some err, p, h) => Return (Some err) p h
    | Some (keyNode, None, p, h) =>
      let p := skipWhitespace p in
      if negb (peekChar p =? runeOf ":") then
        Return (Some (errAt "expected ':' after object key" p)) p h
      else
        let p := consumeChar p in
        match parseValue p h with
        | None => Exhausted
        | Some (valueNode, Some err, p, h) => Return (Some err) p h
        | Some (valueNode, None, p, h) =>
          let h := store h keyNode (setChildren (single valueNode)) in
          let h := store h n (appendChild keyNode) in
          let p := skipWhitespace p in
          if peekChar p =? runeOf "}" then
            let p := consumeChar p in
            Return None p (store h n (setEnd (line p) (col p)))
          else if negb (peekChar p =? runeOf ",") then
            Return (Some (errAt "expected ',' or '}' in object" p)) p h
          else Continue (consumeChar p) h
        end
    end.

Fixpoint objectLoop (fuel : nat) (n : ptr) (p : Parser) (h : Heap)
  : option Result :=
  match fuel with
  | O => None
  | S fuel =>
    match objectIter n p h with
    | Return err p h => Some (n, err, p, h)
    | Continue p h => objectLoop fuel n p h
    | Exhausted => None
    end
  end.

Definition parseObject (fuel : nat) (p : Parser) (h : Heap) : option Result :=
  let '(n, h) := alloc (newCell NodeObject p) h in
  let p := consumeChar p in
  let p := skipWhitespace p in
  let h := store h n (setChildren []) in
  if peekChar p =? runeOf "}" then
    let p := consumeChar p in
    Some (n, None, p, store h n (setEnd (line p) (col p)))
  else objectLoop fuel n p h.

Definition arrayIter (n : ptr) (p : Parser) (h : Heap) : LoopStep :=
  match parseValue p h with
  | None => Exhausted
  | Some (valueNode, Some err, p, h) => Return (Some err) p h
  | Some (valueNode, None, p, h) =>
    let h := store h n (fun c => setChildren (cChildren c ++ single valueNode)%list c) in
    let p := skipWhitespace p in
    if peekChar p =? runeOf "]" then
      let p := consumeChar p in
      Return None p (store h n (setEnd (line p) (col p)))
    else if negb (peekChar p =? runeOf ",") then
      Return (Some (errAt "expected ',' or ']' in array" p)) p h
    else Continue (skipWhitespace (consumeChar p)) h
  end.

Fixpoint arrayLoop (fuel : nat) (n : ptr) (p : Parser) (h : Heap)
  : option Result :=
  match fuel with
  | O => None
  | S fuel =>
    match arrayIter n p h with
    | Return err p h => Some (n, err, p, h)
    | Continue p h => arrayLoop fuel n p h
    | Exhausted => None
    end
  end.

Definition parseArray (fuel : nat) (p : Parser) (h : Heap) : option Result :=
  let '(n, h) := alloc (newCell NodeArray p) h in
  let p := consumeChar p in
  let p := skipWhitespace p in
  let h := store h n (setChildren []) in
  if peekChar p =? runeOf "]" then
    let p := consumeChar p in
    Some (n, None, p, store h n (setEnd (line p) (col p)))
  else arrayLoop fuel n p h.

End Grammar.

Definition nodeResult (r : option Result)
  : option (option ptr * option string * Parser * Heap) :=
  match r with
  | None => None
  | Some (n, err, p, h) => Some (Some n, err, p, h)
  end.

Section Parse.

Variable Digit : list (Z * Z * Z).

Fixpoint parseValue (fuel : nat) (p : Parser) (h : Heap)
  : option (option ptr * option string * Parser * Heap) :=
  match fuel with
  | O => None
  | S fuel =>
    let p := skipWhitespace p in
    if isEOF p then Some (None, Some "unexpected end of input", p, h)
    else
      let ch := peekChar p in
      if ch =? runeOf "{" then nodeResult (parseObject (parseValue fuel) fuel p h)
      else if ch =? runeOf "[" then nodeResult (parseArray (parseValue fuel) fuel p h)
      else if ch =? rQuote then nodeResult (parseString p h)
      else if (ch =? runeOf "t") || (ch =? runeOf "f") then
        nodeResult (Some (parseBoolean p h))
      else if ch =? runeOf "n" then nodeResult (Some (parseNull p h))
      else nodeResult (Some (parseNumber Digit p h))
  end.

Definition Parse (p : Parser) (h : Heap)
  : option (option ptr * option string * Parser * Heap) :=
  match parseValue (S (length p - pos p)) p h with
  | None => None
  | Some (n, Some err, p, h) => Some (n, Some err, p, h)
  | Some (n, None, p, h) => Some (n, None, skipWhitespace p, h)
  end.

End Parse.

End Mem.

(** The object that a node is in memory, with the pointers [ps] to its
    children. *)
Definition cellOf (n : Node) (ps : list ptr) : Cell :=
  mkCell (Type_ n) (Value n) ps
         (StartLine n) (StartCol n) (EndLine n) (EndCol n) (Source n).

(** [TreeAt lo h n a]: the pointer [a] leads, in the memory [h], to the
    tree [n]: the object at [a] has the kind, the literal, the span and
    the source of [n] and as many children, and its children lead to the
    children of [n] in the same way. No object of the tree has an address
    below [lo]. *)
Fixpoint TreeAt (lo : nat) (h : Heap) (n : Node) (a : ptr) {struct n} : Prop :=
  (lo <= a)%nat
  /\ exists ps,
       nth_error h a = Some (cellOf n ps)
       /\ (fix all (cs : list Node) (ps : list ptr) {struct cs} : Prop :=
             match cs, ps with
             | [], [] => True
             | c :: cs', p :: ps' => TreeAt lo h c p /\ all cs' ps'
             | _, _ => False
             end) (Children n) ps.

(** The same for a pointer that may be [nil]. *)
Definition treeAt (lo : nat) (h : Heap) (n : option Node) (a : option ptr)
  : Prop :=
  match n, a with
  | Some n, Some a => TreeAt lo h n a
  | None, None => True
  | _, _ => False
  end.

(** The node [n] that a loop is filling is the object behind the first
    address after [h], and the children it has so far are trees behind
    it. *)
Definition building (h : Heap) (n : Node) (H : Heap) : Prop :=
  exists ps t,
    H = (h ++ cellOf n ps :: t)%list
    /\ Forall2 (TreeAt (S (List.length h)) H) (Children n) ps.

(** The passes of the two loops go the same way. *)
Definition stepSim (h : Heap) (s : LoopStep) (m : Mem.LoopStep) : Prop :=
  match s, m with
  | Return n e p, Mem.Return e' p' H => e' = e /\ p' = p /\ building h n H
  | Continue n p, Mem.Continue p' H => p' = p /\ building h n H
  | Exhausted, Mem.Exhausted => True
  | _, _ => False
  end.

(** What a call on the memory [h] does, for the result [r] of the same
    call on values: it returns as [r] does, leaves [h] as it is, and the
    pointer it returns leads to the tree of [r], made of new objects. *)
Definition valueSim (r : option (option Node * option string * Parser))
  (m : option (option ptr * option string * Parser * Heap)) (h : Heap) : Prop :=
  match r with
  | None => m = None
  | Some (n, e, p) =>
    exists a t,
      m = Some (a, e, p, (h ++ t)%list)
      /\ treeAt (List.length h) (h ++ t)%list n a
  end.

(** A call that fills a node: it returns as the call on values does, with
    the pointer to the node, which is the first new object. *)
Definition fillSim (h : Heap) (r : option Result) (m : option Mem.Result)
  : Prop :=
  match r with
  | None => m = None
  | Some (n, e, p) =>
    exists H, m = Some (List.length h, e, p, H) /\ building h n H
  end.

(* ================================================================== *)
(** ** Cursor lemmas *)

Lemma posLe_refl a : posLe a a.
Proof. unfold posLe; lia. Qed.

Lemma posLe_trans a b c : posLe a b -> posLe b c -> posLe a c.
Proof. unfold posLe; lia. Qed.

Lemma posLt_le a b : posLt a b -> posLe a b.
Proof. unfold posLe, posLt; lia. Qed.

Lemma posLe_lt_trans a b c : posLe a b -> posLt b c -> posLt a c.
Proof. unfold posLe, posLt; lia. Qed.

Lemma posLt_le_trans a b c : posLt a b -> posLe b c -> posLt a c.
Proof. unfold posLe, posLt; lia. Qed.

Lemma posLt_irrefl a b : posLt a b -> posLe b a -> False.
Proof. unfold posLe, posLt; lia. Qed.

Lemma reach_refl p : reach p p.
Proof. constructor; auto using posLe_refl. Qed.

Lemma reach_trans p q r : reach p q -> reach q r -> reach p r.
Proof.
  intros [R1 L1 S1 P1 B1 C1] [R2 L2 S2 P2 B2 C2]; constructor.
  - congruence.
  - congruence.
  - congruence.
  - lia.
  - rewrite L1 in B2. lia.
  - eapply posLe_trans; eauto.
Qed.

Lemma isEOF_true p : isEOF p = true <-> (length p <= pos p)%nat.
Proof. unfold isEOF. apply Nat.leb_le. Qed.

Lemma isEOF_false p : isEOF p = false <-> (pos p < length p)%nat.
Proof. unfold isEOF. apply Nat.leb_gt. Qed.

Lemma consumeChar_eof p : isEOF p = true -> consumeChar p = p.
Proof. unfold isEOF, consumeChar. intros ->. reflexivity. Qed.

Lemma consumeChar_pos p :
  isEOF p = false -> pos (consumeChar p) = S (pos p).
Proof.
  unfold isEOF, consumeChar. intros ->.
  destruct (_ =? rNewline); reflexivity.
Qed.

Lemma consumeChar_cursor p :
  isEOF p = false -> posLt (cursor p) (cursor (consumeChar p)).
Proof.
  unfold isEOF, consumeChar, posLt, cursor. intros ->.
  destruct (_ =? rNewline); simpl; lia.
Qed.

Lemma consumeChar_reach p : reach p (consumeChar p).
Proof.
  destruct (isEOF p) eqn:E.
  - rewrite consumeChar_eof by assumption. apply reach_refl.
  - pose proof (consumeChar_cursor p E) as Hc.
    pose proof (consumeChar_pos p E) as Hp.
    apply isEOF_false in E.
    constructor; try lia; auto using posLt_le;
      unfold consumeChar; destruct (_ <=? _)%nat; try reflexivity;
      destruct (_ =? rNewline); reflexivity.
Qed.

Lemma peekChar_eof p : isEOF p = true -> peekChar p = 0.
Proof. unfold isEOF, peekChar. intros ->. reflexivity. Qed.

Lemma peekChar_nonzero p : peekChar p <> 0 -> isEOF p = false.
Proof.
  intros H. destruct (isEOF p) eqn:E; [|reflexivity].
  apply peekChar_eof in E. contradiction.
Qed.

Lemma peekChar_is p c :
  (c =? 0) = false -> (peekChar p =? c) = true -> isEOF p = false.
Proof.
  intros Hc H. apply Z.eqb_eq in H. apply Z.eqb_neq in Hc.
  apply peekChar_nonzero. congruence.
Qed.

Lemma skipWhitespaceLoop_reach fuel : forall p, reach p (skipWhitespaceLoop fuel p).
Proof.
  induction fuel as [|fuel IH]; intros p; simpl.
  - apply reach_refl.
  - destruct (isEOF p); [apply reach_refl|].
    destruct (isSpace _); [|apply reach_refl].
    eapply reach_trans; [apply consumeChar_reach | apply IH].
Qed.

Lemma skipWhitespace_reach p : reach p (skipWhitespace p).
Proof. apply skipWhitespaceLoop_reach. Qed.

(** The fuel of [skipWhitespace] is enough: the loop stops at the end of
    the input or in front of a rune that is not white space. *)
Lemma skipWhitespaceLoop_stops fuel : forall p,
  (length p - pos p <= fuel)%nat ->
  let p' := skipWhitespaceLoop fuel p in
  isEOF p' = true \/ isSpace (peekChar p') = false.
Proof.
  induction fuel as [|fuel IH]; intros p Hf; simpl.
  - left. apply isEOF_true. lia.
  - destruct (isEOF p) eqn:E; [left; assumption|].
    destruct (isSpace (peekChar p)) eqn:Es; [|right; assumption].
    apply IH.
    pose proof (consumeChar_pos p E). pose proof (consumeChar_reach p) as [].
    lia.
Qed.

Lemma skipWhitespace_stops p :
  isEOF (skipWhitespace p) = true \/ isSpace (peekChar (skipWhitespace p)) = false.
Proof. apply skipWhitespaceLoop_stops. lia. Qed.

Lemma advance_reach k p : reach p (advance k p).
Proof.
  induction k as [|k IH]; simpl.
  - apply reach_refl.
  - eapply reach_trans; [exact IH | apply consumeChar_reach].
Qed.

Lemma advance_S k p : advance (S k) p = advance k (consumeChar p).
Proof. unfold advance. rewrite Nat.iter_succ_r. reflexivity. Qed.

Lemma advance_add j k p : advance (j + k) p = advance k (advance j p).
Proof.
  revert p. induction j as [|j IH]; intros p.
  - reflexivity.
  - change (S j + k)%nat with (S (j + k)). rewrite !advance_S. apply IH.
Qed.

Lemma advance_pos k : forall p,
  (pos p + k <= length p)%nat -> pos (advance k p) = (pos p + k)%nat.
Proof.
  induction k as [|k IH]; intros p H.
  - simpl. lia.
  - rewrite advance_S.
    assert (E : isEOF p = false) by (apply isEOF_false; lia).
    pose proof (consumeChar_pos p E). pose proof (consumeChar_reach p) as [].
    rewrite IH; lia.
Qed.

Lemma NewParser_wf input : wf (NewParser input).
Proof. reflexivity. Qed.

Lemma reach_wf p p' : reach p p' -> wf p -> wf p'.
Proof. unfold wf. intros [] H. congruence. Qed.

Lemma nth_skipn_head (A : Type) (d : A) : forall k (l : list A) c rest,
  skipn k l = c :: rest -> nth k l d = c /\ (k < List.length l)%nat.
Proof.
  induction k as [|k IH]; intros [|x l] c rest H; simpl in *; try discriminate.
  - injection H as -> _. split; [reflexivity | lia].
  - destruct (IH _ _ _ H). split; [assumption | lia].
Qed.

(** The rune under the cursor is the head of what is left to read. *)
Lemma peekChar_skipn p c rest :
  wf p -> skipn (pos p) (runes p) = c :: rest ->
  isEOF p = false /\ peekChar p = c.
Proof.
  unfold wf. intros Hwf Hs.
  destruct (nth_skipn_head _ 0 _ _ _ _ Hs) as [Hn Hlt'].
  assert (Hlt : (pos p < length p)%nat) by (rewrite Hwf; exact Hlt').
  split; [apply isEOF_false; assumption|].
  unfold peekChar. apply Nat.leb_gt in Hlt. rewrite Hlt. exact Hn.
Qed.

Lemma skipn_nil_eof p : wf p -> skipn (pos p) (runes p) = [] -> isEOF p = true.
Proof.
  unfold wf. intros Hwf Hs. apply isEOF_true. rewrite Hwf.
  apply (f_equal (@List.length rune)) in Hs. rewrite length_skipn in Hs.
  simpl in Hs. lia.
Qed.

Lemma consumeChar_skipn p c rest :
  wf p -> skipn (pos p) (runes p) = c :: rest ->
  skipn (pos (consumeChar p)) (runes (consumeChar p)) = rest.
Proof.
  intros Hwf Hs. destruct (peekChar_skipn p c rest Hwf Hs) as [E _].
  rewrite (consumeChar_pos p E). destruct (consumeChar_reach p) as [-> _ _ _ _ _].
  change (S (pos p)) with (1 + pos p)%nat. rewrite <- skipn_skipn, Hs.
  reflexivity.
Qed.

(* ================================================================== *)
(** ** Scalars: what every result satisfies *)

Lemma sameShape_refl n : sameShape n n.
Proof. constructor; reflexivity. Qed.

Lemma sameShape_fill n v l c : sameShape n (withEnd (withValue n v) l c).
Proof. constructor; reflexivity. Qed.

Lemma stringLoop_ok fuel : forall n sb p n' err p',
  stringLoop fuel n sb p = Some (n', err, p') ->
  reach p p' /\ sameShape n n' /\ (err = None -> endPos n' = cursor p').
Proof.
  induction fuel as [|fuel IH]; intros n sb p n' err p' H; simpl in H.
  - discriminate.
  - destruct (isEOF p) eqn:E.
    { inv H. split; [apply reach_refl | split; [apply sameShape_fill | reflexivity]]. }
    destruct (peekChar p =? rQuote).
    { inv H. split; [apply consumeChar_reach | split; [apply sameShape_fill | reflexivity]]. }
    destruct (peekChar p =? rBackslash).
    + destruct (isEOF (consumeChar p)).
      { inv H. split; [apply consumeChar_reach | split; [apply sameShape_refl | discriminate]]. }
      apply IH in H. destruct H as (Hr & Hs & He).
      split; [|split; assumption].
      eapply reach_trans; [|exact Hr].
      eapply reach_trans; apply consumeChar_reach.
    + apply IH in H. destruct H as (Hr & Hs & He).
      split; [|split; assumption].
      eapply reach_trans; [apply consumeChar_reach | exact Hr].
Qed.

Lemma stringLoop_total fuel : forall n sb p,
  (length p - pos p < fuel)%nat -> exists r, stringLoop fuel n sb p = Some r.
Proof.
  induction fuel as [|fuel IH]; intros n sb p Hf; simpl.
  - lia.
  - destruct (isEOF p) eqn:E; [eauto|].
    destruct (peekChar p =? rQuote); [eauto|].
    pose proof (consumeChar_pos p E) as Hp.
    pose proof (consumeChar_reach p) as [_ Hl _ _ _ _].
    apply isEOF_false in E.
    destruct (peekChar p =? rBackslash).
    + destruct (isEOF (consumeChar p)) eqn:E'; [eauto|].
      pose proof (consumeChar_pos _ E') as Hp'.
      pose proof (consumeChar_reach (consumeChar p)) as [_ Hl' _ _ _ _].
      apply IH. lia.
    + apply IH. lia.
Qed.

Lemma parseString_total p : exists r, parseString p = Some r.
Proof. unfold parseString. apply stringLoop_total. lia. Qed.

Lemma parseString_ok p n err p' :
  parseString p = Some (n, err, p') ->
  reach p p' /\ sameShape (newNode NodeString p) n
  /\ (err = None -> endPos n = cursor p').
Proof.
  unfold parseString. intros H. apply stringLoop_ok in H.
  destruct H as (Hr & Hs & He). split; [|split; assumption].
  eapply reach_trans; [apply consumeChar_reach | exact Hr].
Qed.

(** A key or string value that starts on a rune takes that rune. *)
Lemma parseString_progress p n err p' :
  isEOF p = false -> parseString p = Some (n, err, p') -> (pos p < pos p')%nat.
Proof.
  unfold parseString. intros E H. apply stringLoop_ok in H.
  destruct H as ([_ _ _ Hp _ _] & _). rewrite (consumeChar_pos p E) in Hp. lia.
Qed.

Lemma numberLoop_reach Digit fuel : forall sb p sb' p',
  numberLoop Digit fuel sb p = (sb', p') -> reach p p'.
Proof.
  induction fuel as [|fuel IH]; intros sb p sb' p' H; simpl in H.
  - inv H. apply reach_refl.
  - destruct (isEOF p); [inv H; apply reach_refl|].
    destruct (isNumberChar Digit (peekChar p)); [|inv H; apply reach_refl].
    apply IH in H. eapply reach_trans; [apply consumeChar_reach | exact H].
Qed.

Lemma parseNumber_ok Digit p n err p' :
  parseNumber Digit p = (n, err, p') ->
  reach p p' /\ sameShape (newNode NodeNumber p) n /\ err = None
  /\ endPos n = cursor p'.
Proof.
  unfold parseNumber. destruct (numberLoop _ _ _ _) as [sb q] eqn:E.
  intros H. inv H. apply numberLoop_reach in E.
  split; [assumption | split; [apply sameShape_fill | split; reflexivity]].
Qed.

Lemma parseBoolean_ok p n err p' :
  parseBoolean p = (n, err, p') ->
  reach p p' /\ sameShape (newNode NodeBoolean p) n
  /\ (err = None -> endPos n = cursor p').
Proof.
  unfold parseBoolean. intros H.
  destruct (HasPrefix _ "true"); [|destruct (HasPrefix _ "false")]; inv H;
    (split; [first [apply reach_refl | apply (advance_reach 4) | apply (advance_reach 5)]
            | split; [auto using sameShape_fill, sameShape_refl
                     | first [intros _; reflexivity | discriminate]]]).
Qed.

Lemma parseNull_ok p n err p' :
  parseNull p = (n, err, p') ->
  reach p p' /\ sameShape (newNode NodeNull p) n
  /\ (err = None -> endPos n = cursor p').
Proof.
  unfold parseNull. intros H.
  destruct (HasPrefix _ "null"); inv H;
    (split; [first [apply reach_refl | apply (advance_reach 4) | apply (advance_reach 5)]
            | split; [auto using sameShape_fill, sameShape_refl
                     | first [intros _; reflexivity | discriminate]]]).
Qed.

(* ================================================================== *)
(** ** Trees: what every node of a result satisfies *)

Lemma spanOk_posLe n : spanOk n <-> posLe (startPos n) (endPos n).
Proof. unfold spanOk, posLe, startPos, endPos; simpl. lia. Qed.

Lemma InTree_inv m n :
  InTree m n -> m = n \/ exists c, In c (Children n) /\ InTree m c.
Proof. intros H. inversion H; subst; eauto. Qed.

Lemma treeOk_intro n :
  nodeOk n -> (forall c, In c (Children n) -> treeOk c) -> treeOk n.
Proof.
  intros Hn Hc m Hm. apply InTree_inv in Hm.
  destruct Hm as [-> | (c & Hin & Hm)]; [assumption|].
  exact (Hc c Hin m Hm).
Qed.

Lemma treeOk_leaf n : nodeOk n -> Children n = [] -> treeOk n.
Proof.
  intros Hn Hc. apply treeOk_intro; [assumption|].
  rewrite Hc. intros c [].
Qed.

(** A scalar that starts at [p] and ends where the cursor stands. *)
Lemma scalar_nodeOk t p n p' :
  sameShape (newNode t p) n -> t <> NodeObject ->
  reach p p' -> endPos n = cursor p' -> nodeOk n /\ Children n = [].
Proof.
  intros [Ht Hc Hs _] Hne [_ _ _ _ _ Hle] He. split; [split|].
  - apply spanOk_posLe. rewrite Hs, He. exact Hle.
  - rewrite Ht. simpl. intros; contradiction.
  - exact Hc.
Qed.

Lemma accOk_return n p p' e :
  accOk n p -> reach p p' -> loopOk n p (n, Some e, p').
Proof.
  intros (Hs & Hc & Hk) Hr. unfold loopOk.
  repeat (split; [first [assumption | reflexivity]|]). discriminate.
Qed.

Lemma accOk_close n p p' :
  accOk n p -> reach p p' ->
  loopOk n p (withEnd n (line p') (col p'), None, p').
Proof.
  intros (Hs & Hc & Hk) Hr. unfold loopOk.
  repeat (split; [first [assumption | reflexivity]|]).
  intros _. split; [split|reflexivity].
  - apply spanOk_posLe. eapply posLe_trans; [exact Hs | apply Hr].
  - exact Hk.
Qed.

Section GrammarOk.

Variable pv : Parser -> option (option Node * option string * Parser).
Hypothesis pv_ok : forall p r, pv p = Some r -> valueOk p r.

Lemma objectIter_ok n p : accOk n p -> stepOk n p (objectIter pv n p).
Proof.
  intros Hacc. unfold objectIter.
  pose proof (skipWhitespace_reach p) as R1.
  set (p1 := skipWhitespace p) in *.
  destruct (peekChar p1 =? rQuote) eqn:Eq; simpl.
  2:{ apply accOk_return; assumption. }
  destruct (parseString p1) as [[[k0 [e|]] p2]|] eqn:Es; simpl; [| |exact I].
  { apply parseString_ok in Es. destruct Es as (R2 & _).
    apply accOk_return; [assumption|]. eapply reach_trans; eassumption. }
  pose proof (parseString_progress _ _ _ _ (peekChar_is p1 rQuote eq_refl Eq) Es) as Hprog.
  pose proof (parseString_ok _ _ _ _ Es) as (R2 & [Kt Kc Ks _] & Ke).
  specialize (Ke eq_refl).
  pose proof (skipWhitespace_reach p2) as R3.
  set (p3 := skipWhitespace p2) in *.
  assert (R13 : reach p p3) by (repeat (eapply reach_trans; [eassumption|]); apply reach_refl).
  destruct (peekChar p3 =? runeOf ":") eqn:Ec; simpl.
  2:{ apply accOk_return; assumption. }
  pose proof (consumeChar_reach p3) as R4.
  pose proof (consumeChar_cursor p3 (peekChar_is p3 (runeOf ":") eq_refl Ec)) as Hlt.
  set (p4 := consumeChar p3) in *.
  assert (R14 : reach p p4) by (eapply reach_trans; eassumption).
  destruct (pv p4) as [[[ov [e|]] p5]|] eqn:Ev; simpl; [| |exact I].
  { apply pv_ok in Ev. destruct Ev as (R5 & _).
    apply accOk_return; [assumption|]. eapply reach_trans; eassumption. }
  apply pv_ok in Ev. destruct Ev as (R5 & Hch & Hv).
  destruct (Hv eq_refl) as (v & -> & Hvok & Hvs & Hve). simpl.
  specialize (Hch v eq_refl).
  assert (R15 : reach p p5) by (eapply reach_trans; eassumption).
  pose proof (skipWhitespace_reach p5) as R6.
  set (p6 := skipWhitespace p5) in *.
  assert (R16 : reach p p6) by (eapply reach_trans; eassumption).
  set (key := withChildren k0 [v]).
  assert (Hkey : keyProp key).
  { exists k0, v, p1, p2. split; [apply Z.eqb_eq; exact Eq|].
    split; [exact Es|]. split; [reflexivity|]. split; [exact Ke|].
    split.
    - change (endPos key) with (endPos k0). rewrite Ke.
      eapply posLt_le_trans; [|exact Hvs].
      eapply posLe_lt_trans; [apply R3 | exact Hlt].
    - apply spanOk_posLe. apply Hvok. }
  assert (Htree : treeOk key).
  { apply treeOk_intro.
    - split.
      + apply spanOk_posLe. change (startPos key) with (startPos k0).
        change (endPos key) with (endPos k0). rewrite Ks, Ke. apply R2.
      + change (Type_ key) with (Type_ k0). rewrite Kt. discriminate.
    - simpl. intros c [<-|[]]. apply treeOk_intro; assumption. }
  set (n' := withChildren n (Children n ++ [key])%list).
  assert (Hacc' : forall q, reach p q -> accOk n' q).
  { intros q Rq. destruct Hacc as (Hs & Hc & Hk). split; [|split].
    - change (startPos n') with (startPos n).
      eapply posLe_trans; [exact Hs | apply Rq].
    - simpl. intros c Hin. apply in_app_or in Hin.
      destruct Hin as [Hin | [<-|[]]]; auto.
    - simpl. intros Ht. apply Forall_app. split; auto. }
  destruct (peekChar p6 =? runeOf "}") eqn:Eb; simpl.
  { pose proof (consumeChar_reach p6) as R7.
    assert (L : loopOk n' p6 (withEnd n' (line (consumeChar p6)) (col (consumeChar p6)), None, consumeChar p6))
      by (apply accOk_close; auto).
    destruct L as (_ & L2 & L3 & L4 & L5).
    split; [eapply reach_trans; eassumption|].
    repeat (split; [assumption|]). assumption. }
  destruct (peekChar p6 =? runeOf ",") eqn:Em; simpl.
  2:{ assert (L : loopOk n' p6 (n', Some (errAt "expected ',' or '}' in object" p6), p6))
        by (apply accOk_return; [auto | apply reach_refl]).
      destruct L as (_ & L2 & L3 & L4 & L5).
      split; [assumption|]. repeat (split; [assumption|]). assumption. }
  pose proof (consumeChar_reach p6) as R7.
  assert (R17 : reach p (consumeChar p6)) by (eapply reach_trans; eassumption).
  split; [assumption|]. split.
  { pose proof (reach_pos _ _ R1). pose proof (reach_pos _ _ R3).
    pose proof (reach_pos _ _ R4). pose proof (reach_pos _ _ R5).
    pose proof (reach_pos _ _ R6). pose proof (reach_pos _ _ R7).
    fold p1 in Hprog. lia. }
  split; [auto|]. split; reflexivity.
Qed.

Lemma arrayIter_ok n p :
  accOk n p -> Type_ n <> NodeObject -> stepOk n p (arrayIter pv n p).
Proof.
  intros Hacc Hty. unfold arrayIter.
  destruct (pv p) as [[[ov [e|]] p1]|] eqn:Ev; simpl; [| |exact I].
  { apply pv_ok in Ev. destruct Ev as (R1 & _). apply accOk_return; assumption. }
  apply pv_ok in Ev. destruct Ev as (R1 & Hch & Hv).
  destruct (Hv eq_refl) as (v & -> & Hvok & Hvs & Hve). simpl.
  specialize (Hch v eq_refl).
  pose proof (skipWhitespace_reach p1) as R2.
  set (p2 := skipWhitespace p1) in *.
  assert (R12 : reach p p2) by (eapply reach_trans; eassumption).
  set (n' := withChildren n (Children n ++ [v])%list).
  assert (Hacc' : forall q, reach p q -> accOk n' q).
  { intros q Rq. destruct Hacc as (Hs & Hc & Hk). split; [|split].
    - change (startPos n') with (startPos n).
      eapply posLe_trans; [exact Hs | apply Rq].
    - simpl. intros c Hin. apply in_app_or in Hin.
      destruct Hin as [Hin | [<-|[]]]; auto. apply treeOk_intro; assumption.
    - simpl. intros Ht. contradiction. }
  destruct (peekChar p2 =? runeOf "]") eqn:Eb; simpl.
  { pose proof (consumeChar_reach p2) as R3.
    assert (L : loopOk n' p2 (withEnd n' (line (consumeChar p2)) (col (consumeChar p2)), None, consumeChar p2))
      by (apply accOk_close; auto).
    destruct L as (_ & L2 & L3 & L4 & L5).
    split; [eapply reach_trans; eassumption|].
    repeat (split; [assumption|]). assumption. }
  destruct (peekChar p2 =? runeOf ",") eqn:Em; simpl.
  2:{ assert (L : loopOk n' p2 (n', Some (errAt "expected ',' or ']' in array" p2), p2))
        by (apply accOk_return; [auto | apply reach_refl]).
      destruct L as (_ & L2 & L3 & L4 & L5).
      split; [assumption|]. repeat (split; [assumption|]). assumption. }
  pose proof (consumeChar_reach p2) as R3.
  pose proof (consumeChar_pos p2 (peekChar_is p2 (runeOf ",") eq_refl Em)) as Hp.
  pose proof (skipWhitespace_reach (consumeChar p2)) as R4.
  assert (R14 : reach p (skipWhitespace (consumeChar p2)))
    by (repeat (eapply reach_trans; [eassumption|]); apply reach_refl).
  split; [assumption|]. split.
  { pose proof (reach_pos _ _ R1). pose proof (reach_pos _ _ R2).
    pose proof (reach_pos _ _ R4). lia. }
  split; [auto|]. split; reflexivity.
Qed.

Lemma loopOk_step n p n' p' r :
  reach p p' -> startPos n' = startPos n -> Type_ n' = Type_ n ->
  loopOk n' p' r -> loopOk n p r.
Proof.
  destruct r as [[m err] q]. intros R Hs Ht (R' & Hs' & Ht' & Hc & He).
  split; [eapply reach_trans; eassumption|].
  split; [congruence|]. split; [congruence|]. split; assumption.
Qed.

Lemma objectLoop_ok fuel : forall n p r,
  accOk n p -> objectLoop pv fuel n p = Some r -> loopOk n p r.
Proof.
  induction fuel as [|fuel IH]; intros n p r Hacc H; simpl in H.
  - discriminate.
  - pose proof (objectIter_ok n p Hacc) as Hstep.
    destruct (objectIter pv n p) as [n' err p'|n' p'|]; simpl in Hstep.
    + inv H. exact Hstep.
    + destruct Hstep as (R & _ & Hacc' & Hs & Ht).
      eapply loopOk_step; eauto.
    + discriminate.
Qed.

Lemma arrayLoop_ok fuel : forall n p r,
  accOk n p -> Type_ n <> NodeObject ->
  arrayLoop pv fuel n p = Some r -> loopOk n p r.
Proof.
  induction fuel as [|fuel IH]; intros n p r Hacc Hty H; simpl in H.
  - discriminate.
  - pose proof (arrayIter_ok n p Hacc Hty) as Hstep.
    destruct (arrayIter pv n p) as [n' err p'|n' p'|]; simpl in Hstep.
    + inv H. exact Hstep.
    + destruct Hstep as (R & _ & Hacc' & Hs & Ht).
      eapply loopOk_step; eauto. apply IH; auto. congruence.
    + discriminate.
Qed.

Lemma newNode_accOk t p q :
  reach p q -> accOk (withChildren (newNode t p) []) q.
Proof.
  intros R. split; [apply R|]. split.
  - intros c [].
  - intros _. constructor.
Qed.

Lemma parseObject_ok fuel p r :
  parseObject pv fuel p = Some r -> loopOk (newNode NodeObject p) p r.
Proof.
  unfold parseObject. intros H.
  pose proof (consumeChar_reach p) as R1.
  pose proof (skipWhitespace_reach (consumeChar p)) as R2.
  set (p2 := skipWhitespace (consumeChar p)) in *.
  assert (R : reach p p2) by (eapply reach_trans; eassumption).
  pose proof (newNode_accOk NodeObject p p2 R) as Hacc.
  destruct (peekChar p2 =? runeOf "}").
  - inv H. eapply loopOk_step; [exact R | | | apply accOk_close];
      try reflexivity; [exact Hacc | apply consumeChar_reach].
  - eapply loopOk_step; [exact R | | | eapply objectLoop_ok; eassumption];
      reflexivity.
Qed.

Lemma parseArray_ok fuel p r :
  parseArray pv fuel p = Some r -> loopOk (newNode NodeArray p) p r.
Proof.
  unfold parseArray. intros H.
  pose proof (consumeChar_reach p) as R1.
  pose proof (skipWhitespace_reach (consumeChar p)) as R2.
  set (p2 := skipWhitespace (consumeChar p)) in *.
  assert (R : reach p p2) by (eapply reach_trans; eassumption).
  pose proof (newNode_accOk NodeArray p p2 R) as Hacc.
  destruct (peekChar p2 =? runeOf "]").
  - inv H. eapply loopOk_step; [exact R | | | apply accOk_close];
      try reflexivity; [exact Hacc | apply consumeChar_reach].
  - eapply loopOk_step; [exact R | | | eapply arrayLoop_ok; try eassumption];
      try reflexivity. discriminate.
Qed.

End GrammarOk.

(** A composite result, seen as a value result from the state [q] in front
    of the white space that was skipped to reach [p]. *)
Lemma loopOk_valueOk t q p r :
  reach q p -> loopOk (newNode t p) p r -> valueOk q (let '(n, err, p') := r in (Some n, err, p')).
Proof.
  destruct r as [[n err] p']. intros R (R' & Hs & Ht & Hc & He).
  split; [eapply reach_trans; eassumption|]. split.
  - intros m Hm. inv Hm. exact Hc.
  - intros ->. destruct (He eq_refl) as [Hn Hend].
    exists n. repeat (split; [first [reflexivity | assumption]|]).
    split; [|assumption]. rewrite Hs. apply R.
Qed.

Lemma scalar_valueOk t q p n err p' :
  t <> NodeObject -> reach q p -> reach p p' ->
  sameShape (newNode t p) n -> (err = None -> endPos n = cursor p') ->
  valueOk q (Some n, err, p').
Proof.
  intros Ht R R' Hs He.
  split; [eapply reach_trans; eassumption|]. split.
  - intros m Hm. inv Hm. rewrite (shape_children _ _ Hs). intros c [].
  - intros ->. destruct (scalar_nodeOk t p n p' Hs Ht R' (He eq_refl)) as [Hn _].
    exists n. repeat (split; [first [reflexivity | assumption]|]).
    split; [|auto]. rewrite (shape_start _ _ Hs). apply R.
Qed.

Lemma parseValue_ok Digit fuel : forall p r,
  parseValue Digit fuel p = Some r -> valueOk p r.
Proof.
  induction fuel as [|fuel IH]; intros p r H; simpl in H.
  - discriminate.
  - pose proof (skipWhitespace_reach p) as R.
    set (p1 := skipWhitespace p) in *.
    destruct (isEOF p1).
    { inv H. split; [assumption|]. split; [discriminate|discriminate]. }
    destruct (peekChar p1 =? runeOf "{").
    { destruct (parseObject _ fuel p1) as [[[n err] p']|] eqn:E; [|discriminate].
      inv H. apply (loopOk_valueOk NodeObject p p1 (n, err, p') R).
      eapply parseObject_ok; eassumption. }
    destruct (peekChar p1 =? runeOf "[").
    { destruct (parseArray _ fuel p1) as [[[n err] p']|] eqn:E; [|discriminate].
      inv H. apply (loopOk_valueOk NodeArray p p1 (n, err, p') R).
      eapply parseArray_ok; eassumption. }
    destruct (peekChar p1 =? rQuote).
    { destruct (parseString p1) as [[[n err] p']|] eqn:E; [|discriminate].
      inv H. apply parseString_ok in E. destruct E as (R' & Hs & He).
      apply (scalar_valueOk NodeString p p1); auto. discriminate. }
    destruct ((peekChar p1 =? runeOf "t") || (peekChar p1 =? runeOf "f")).
    { destruct (parseBoolean p1) as [[n err] p'] eqn:E.
      inv H. apply parseBoolean_ok in E. destruct E as (R' & Hs & He).
      apply (scalar_valueOk NodeBoolean p p1); auto. discriminate. }
    destruct (peekChar p1 =? runeOf "n").
    { destruct (parseNull p1) as [[n err] p'] eqn:E.
      inv H. apply parseNull_ok in E. destruct E as (R' & Hs & He).
      apply (scalar_valueOk NodeNull p p1); auto. discriminate. }
    destruct (parseNumber Digit p1) as [[n err] p'] eqn:E.
    inv H. apply parseNumber_ok in E. destruct E as (R' & Hs & He & Hend).
    apply (scalar_valueOk NodeNumber p p1); auto. discriminate.
Qed.

(* ================================================================== *)
(** ** Termination: the fuel is enough, and more fuel changes nothing *)

Lemma reach_unread p p' : reach p p' -> (unread p' <= unread p)%nat.
Proof. unfold unread. intros [_ -> _ Hp _ _]. lia. Qed.

Lemma consumeChar_unread p :
  isEOF p = false -> (S (unread (consumeChar p)) = unread p)%nat.
Proof.
  intros E. unfold unread. rewrite (consumeChar_pos p E).
  destruct (consumeChar_reach p) as [_ -> _ _ _ _].
  apply isEOF_false in E. lia.
Qed.

Section GrammarTotal.

Variable pv : Parser -> option (option Node * option string * Parser).
Variable bound : nat.
Hypothesis pv_reach : forall p on err p', pv p = Some (on, err, p') -> reach p p'.
Hypothesis pv_total : forall p, (unread p < bound)%nat -> exists r, pv p = Some r.

(** An iteration of the object loop that goes round again has consumed a
    key, a colon and the separating comma. *)
Lemma objectIter_progress n p n' p' :
  objectIter pv n p = Continue n' p' ->
  (pos p + 3 <= pos p')%nat /\ (unread p' < unread p)%nat.
Proof.
  unfold objectIter.
  pose proof (skipWhitespace_reach p) as R1.
  set (p1 := skipWhitespace p) in *.
  destruct (peekChar p1 =? rQuote) eqn:Eq; simpl; [|discriminate].
  destruct (parseString p1) as [[[k0 [e|]] p2]|] eqn:Es; try discriminate.
  pose proof (parseString_progress _ _ _ _ (peekChar_is p1 rQuote eq_refl Eq) Es) as H2.
  apply parseString_ok in Es. destruct Es as (R2 & _).
  pose proof (skipWhitespace_reach p2) as R3.
  set (p3 := skipWhitespace p2) in *.
  destruct (peekChar p3 =? runeOf ":") eqn:Ec; simpl; [|discriminate].
  pose proof (consumeChar_pos p3 (peekChar_is p3 (runeOf ":") eq_refl Ec)) as H4.
  pose proof (consumeChar_reach p3) as R4.
  destruct (pv (consumeChar p3)) as [[[ov [e|]] p5]|] eqn:Ev; try discriminate.
  apply pv_reach in Ev.
  pose proof (skipWhitespace_reach p5) as R6.
  set (p6 := skipWhitespace p5) in *.
  destruct (peekChar p6 =? runeOf "}"); [discriminate|].
  destruct (peekChar p6 =? runeOf ",") eqn:Em; simpl; [|discriminate].
  pose proof (consumeChar_pos p6 (peekChar_is p6 (runeOf ",") eq_refl Em)) as H7.
  pose proof (consumeChar_unread p6 (peekChar_is p6 (runeOf ",") eq_refl Em)) as U7.
  intros H. inv H.
  pose proof (reach_pos _ _ R1). pose proof (reach_pos _ _ R3).
  pose proof (reach_pos _ _ Ev). pose proof (reach_pos _ _ R6).
  apply reach_unread in R1, R2, R3, R4, Ev, R6.
  split; lia.
Qed.

(** An iteration of the array loop that goes round again has consumed the
    separating comma. *)
Lemma arrayIter_progress n p n' p' :
  arrayIter pv n p = Continue n' p' ->
  (pos p < pos p')%nat /\ (unread p' < unread p)%nat.
Proof.
  unfold arrayIter.
  destruct (pv p) as [[[ov [e|]] p1]|] eqn:Ev; try discriminate.
  apply pv_reach in Ev.
  pose proof (skipWhitespace_reach p1) as R2.
  set (p2 := skipWhitespace p1) in *.
  destruct (peekChar p2 =? runeOf "]"); [discriminate|].
  destruct (peekChar p2 =? runeOf ",") eqn:Em; simpl; [|discriminate].
  pose proof (consumeChar_pos p2 (peekChar_is p2 (runeOf ",") eq_refl Em)) as H3.
  pose proof (consumeChar_unread p2 (peekChar_is p2 (runeOf ",") eq_refl Em)) as U3.
  pose proof (skipWhitespace_reach (consumeChar p2)) as R4.
  intros H. inv H.
  pose proof (reach_pos _ _ Ev). pose proof (reach_pos _ _ R2).
  pose proof (reach_pos _ _ R4).
  apply reach_unread in Ev, R2, R4.
  split; lia.
Qed.

Lemma objectIter_total n p :
  (unread p < bound)%nat -> objectIter pv n p <> Exhausted.
Proof.
  intros Hb. unfold objectIter.
  pose proof (skipWhitespace_reach p) as R1.
  set (p1 := skipWhitespace p) in *.
  destruct (peekChar p1 =? rQuote); simpl; [|discriminate].
  destruct (parseString_total p1) as [[[k0 e] p2] Es]. rewrite Es.
  apply parseString_ok in Es. destruct Es as (R2 & _).
  destruct e; [discriminate|].
  pose proof (skipWhitespace_reach p2) as R3.
  set (p3 := skipWhitespace p2) in *.
  destruct (peekChar p3 =? runeOf ":"); simpl; [|discriminate].
  pose proof (consumeChar_reach p3) as R4.
  destruct (pv_total (consumeChar p3)) as [[[ov e] p5] Ev].
  { apply reach_unread in R1, R2, R3, R4. lia. }
  rewrite Ev. destruct e; [discriminate|].
  destruct (peekChar _ =? runeOf "}"); [discriminate|].
  destruct (peekChar _ =? runeOf ","); discriminate.
Qed.

Lemma arrayIter_total n p :
  (unread p < bound)%nat -> arrayIter pv n p <> Exhausted.
Proof.
  intros Hb. unfold arrayIter.
  destruct (pv_total p Hb) as [[[ov e] p1] Ev].
  rewrite Ev. destruct e; [discriminate|].
  destruct (peekChar _ =? runeOf "]"); [discriminate|].
  destruct (peekChar _ =? runeOf ","); discriminate.
Qed.

Lemma objectLoop_total fuel : forall n p,
  (unread p < fuel)%nat -> (unread p < bound)%nat ->
  exists r, objectLoop pv fuel n p = Some r.
Proof.
  induction fuel as [|fuel IH]; intros n p Hf Hb; simpl.
  - lia.
  - pose proof (objectIter_total n p Hb) as Hne.
    destruct (objectIter pv n p) as [n' err p'|n' p'|] eqn:E.
    + eauto.
    + pose proof (objectIter_progress _ _ _ _ E) as [_ Hu].
      apply IH; lia.
    + contradiction.
Qed.

Lemma arrayLoop_total fuel : forall n p,
  (unread p < fuel)%nat -> (unread p < bound)%nat ->
  exists r, arrayLoop pv fuel n p = Some r.
Proof.
  induction fuel as [|fuel IH]; intros n p Hf Hb; simpl.
  - lia.
  - pose proof (arrayIter_total n p Hb) as Hne.
    destruct (arrayIter pv n p) as [n' err p'|n' p'|] eqn:E.
    + eauto.
    + pose proof (arrayIter_progress _ _ _ _ E) as [_ Hu].
      apply IH; lia.
    + contradiction.
Qed.

Lemma parseObject_total p :
  isEOF p = false -> (unread p <= bound)%nat ->
  exists r, parseObject pv bound p = Some r.
Proof.
  intros E Hb. unfold parseObject.
  pose proof (consumeChar_unread p E) as H1.
  pose proof (reach_unread _ _ (skipWhitespace_reach (consumeChar p))) as H2.
  destruct (peekChar _ =? runeOf "}"); [eauto|].
  apply objectLoop_total; lia.
Qed.

Lemma parseArray_total p :
  isEOF p = false -> (unread p <= bound)%nat ->
  exists r, parseArray pv bound p = Some r.
Proof.
  intros E Hb. unfold parseArray.
  pose proof (consumeChar_unread p E) as H1.
  pose proof (reach_unread _ _ (skipWhitespace_reach (consumeChar p))) as H2.
  destruct (peekChar _ =? runeOf "]"); [eauto|].
  apply arrayLoop_total; lia.
Qed.

End GrammarTotal.

Lemma parseValue_reach Digit fuel p on err p' :
  parseValue Digit fuel p = Some (on, err, p') -> reach p p'.
Proof. intros H. apply parseValue_ok in H. apply H. Qed.

Lemma parseValue_total Digit fuel : forall p,
  (unread p < fuel)%nat -> exists r, parseValue Digit fuel p = Some r.
Proof.
  induction fuel as [|fuel IH]; intros p Hf; simpl.
  - lia.
  - pose proof (reach_unread _ _ (skipWhitespace_reach p)) as R.
    set (p1 := skipWhitespace p) in *.
    destruct (isEOF p1) eqn:E; [eauto|].
    destruct (peekChar p1 =? runeOf "{").
    { destruct (parseObject_total _ fuel (parseValue_reach Digit fuel) IH p1 E)
        as [[[n err] p'] ->]; [lia | simpl; eauto]. }
    destruct (peekChar p1 =? runeOf "[").
    { destruct (parseArray_total _ fuel (parseValue_reach Digit fuel) IH p1 E)
        as [[[n err] p'] ->]; [lia | simpl; eauto]. }
    destruct (peekChar p1 =? rQuote).
    { destruct (parseString_total p1) as [[[n err] p'] ->]. simpl; eauto. }
    destruct (_ || _).
    { destruct (parseBoolean p1) as [[n err] p']. simpl; eauto. }
    destruct (peekChar p1 =? runeOf "n").
    { destruct (parseNull p1) as [[n err] p']. simpl; eauto. }
    destruct (parseNumber Digit p1) as [[n err] p']. simpl; eauto.
Qed.

Section GrammarMono.

Variables pv pv' : Parser -> option (option Node * option string * Parser).
Hypothesis pv_mono : forall p r, pv p = Some r -> pv' p = Some r.







End GrammarMono.


(** [parseValue] returns a [nil] node only together with an error. *)
Lemma parseValue_node Digit fuel p on p' :
  parseValue Digit fuel p = Some (on, None, p') -> exists n, on = Some n.
Proof.
  intros H. apply parseValue_ok in H. destruct H as (_ & _ & H).
  destruct (H eq_refl) as (n & -> & _). eauto.
Qed.

(* ================================================================== *)
(** ** Spans of the nodes of a result *)

Lemma Parse_treeOk Digit p n err p' :
  Parse Digit p = Some (Some n, err, p') ->
  (err = None -> treeOk n) /\ (forall c, In c (Children n) -> treeOk c).
Proof.
  unfold Parse. intros H.
  destruct (parseValue _ _ _) as [[[on e] q]|] eqn:E; [|discriminate].
  apply parseValue_ok in E. destruct E as (_ & Hc & Hn).
  assert (Hon : on = Some n) by (destruct e; inv H; reflexivity).
  subst on. specialize (Hc n eq_refl). split; [|exact Hc].
  intros ->. destruct e; [discriminate|].
  destruct (Hn eq_refl) as (n0 & Hn0 & Hok & _). inv Hn0.
  apply treeOk_intro; assumption.
Qed.

(** C1, as stated, fails: the partial object that [Parse] returns for an
    unclosed object starts at line 1 and has its end line left at 0. *)
Lemma partial_root_span_unset :
  ~ (forall n err p' m,
        Parse latinDigit (NewParser unclosedObject) = Some (Some n, err, p') ->
        InTree m n -> spanOk m).
Proof.
  intros H.
  evaluate (Parse latinDigit (NewParser unclosedObject)) E.
  specialize (H _ _ _ _ E (InTree_root _)).
  destruct H as [H _]. vm_compute in H. apply H. reflexivity.
Qed.

(** C1 (amended): in the tree that [Parse] returns without an error, every
    node has [startLine <= endLine], and [startCol <= endCol] when the
    two lines are equal; in a partial tree returned together with an
    error, the same holds for every node below the root. *)
Theorem Parse_span_invariant Digit p n err p' :
  Parse Digit p = Some (Some n, err, p') ->
  (err = None -> forall m, InTree m n -> spanOk m)
  /\ (forall c m, In c (Children n) -> InTree m c -> spanOk m).
Proof.
  intros H. apply Parse_treeOk in H. destruct H as [Hn Hc]. split.
  - intros He m Hm. apply (Hn He m Hm).
  - intros c m Hin Hm. apply (Hc c Hin m Hm).
Qed.

Lemma Parse_span_invariant_witness :
  exists n p',
    Parse latinDigit (NewParser nestedDocument) = Some (Some n, None, p')
    /\ forall m, InTree m n -> spanOk m.
Proof.
  evaluate (Parse latinDigit (NewParser nestedDocument)) E.
  eexists; eexists. split; [exact E|].
  exact (proj1 (Parse_span_invariant _ _ _ _ _ E) eq_refl).
Defined.

(** C2: in every object that was parsed without an error, each child is
    the String node that [parseString] returned for the key, its end still
    where [parseString] left the cursor after the key string; the value is
    its single child and starts after that end, so the span of the key
    node does not enclose the span of its value. This holds for every
    object of a tree returned without an error and for every object below
    the root of a partial tree. *)
Theorem object_key_span Digit p root err p' obj k :
  Parse Digit p = Some (Some root, err, p') ->
  InTree obj root -> err = None \/ obj <> root ->
  Type_ obj = NodeObject -> In k (Children obj) ->
  exists k0 v q q',
    parseString q = Some (k0, None, q') /\ k = withChildren k0 [v]
    /\ Type_ k = NodeString /\ Children k = [v]
    /\ endPos k = cursor q'
    /\ posLt (endPos k) (startPos v)
    /\ posLt (endPos k) (endPos v)
    /\ ~ encloses k v.
Proof.
  intros H Hin Hor Hty Hk. apply Parse_treeOk in H. destruct H as [Hn Hc].
  assert (Hobj : nodeOk obj).
  { destruct Hor as [He | Hne].
    - exact (Hn He obj Hin).
    - apply InTree_inv in Hin. destruct Hin as [-> | (c & Hcin & Hm)];
        [contradiction | exact (Hc c Hcin obj Hm)]. }
  destruct Hobj as [_ Hkeys]. specialize (Hkeys Hty).
  rewrite Forall_forall in Hkeys.
  destruct (Hkeys k Hk) as (k0 & v & q & q' & Hq & Hs & -> & He & Hlt & Hv).
  exists k0, v, q, q'. split; [exact Hs|]. split; [reflexivity|].
  apply parseString_ok in Hs. destruct Hs as (_ & [Kt _ _ _] & _).
  split; [exact Kt|]. split; [reflexivity|]. split; [exact He|].
  split; [exact Hlt|].
  split; [eapply posLt_le_trans; [exact Hlt | exact Hv]|].
  intros [_ Hen]. eapply posLt_irrefl; [exact Hlt|].
  eapply posLe_trans; [exact Hv | exact Hen].
Qed.

Lemma object_key_span_witness :
  exists root p' k v,
    Parse latinDigit (NewParser nestedDocument) = Some (Some root, None, p')
    /\ In k (Children root) /\ Children k = [v]
    /\ posLt (endPos k) (startPos v) /\ ~ encloses k v.
Proof.
  evaluate (Parse latinDigit (NewParser nestedDocument)) E.
  destruct (object_key_span _ _ _ _ _ _ _ E (InTree_root _)
              (or_introl eq_refl) eq_refl (or_introl eq_refl))
    as (k0 & v & q & q' & _ & _ & _ & Hc & _ & Hlt & _ & Hne).
  eexists; eexists; eexists; exists v.
  split; [exact E|]. split; [left; reflexivity|].
  split; [exact Hc|]. split; [exact Hlt | exact Hne].
Defined.

(* ================================================================== *)
(** ** Exclusive ends *)

Lemma loopOk_end n p m p' :
  loopOk n p (m, None, p') -> endPos m = cursor p'.
Proof. intros (_ & _ & _ & _ & H). apply (H eq_refl). Qed.

(** C10: a node returned without an error ends where the cursor stands
    when the function returns, that is just after the last rune consumed
    for the node. This holds for [parseValue] and for each of the
    functions it dispatches to, and so for every node of a tree, each
    being returned by one of them. [true] read from column 1 ends at
    column 5, and [{}] read from column 1 ends at column 3. *)
Theorem end_is_cursor_after_node Digit :
  (forall fuel p n p',
      parseValue Digit fuel p = Some (Some n, None, p') -> endPos n = cursor p')
  /\ (forall fuel k p n p',
      parseObject (parseValue Digit fuel) k p = Some (n, None, p') ->
      endPos n = cursor p')
  /\ (forall fuel k p n p',
      parseArray (parseValue Digit fuel) k p = Some (n, None, p') ->
      endPos n = cursor p')
  /\ (forall p n p', parseString p = Some (n, None, p') -> endPos n = cursor p')
  /\ (forall p n p', parseNumber Digit p = (n, None, p') -> endPos n = cursor p')
  /\ (forall p n p', parseBoolean p = (n, None, p') -> endPos n = cursor p')
  /\ (forall p n p', parseNull p = (n, None, p') -> endPos n = cursor p')
  /\ (exists n p',
        Parse Digit (NewParser "true") = Some (Some n, None, p')
        /\ startPos n = (1, 1) /\ endPos n = (1, 5))
  /\ (exists n p',
        Parse Digit (NewParser "{}") = Some (Some n, None, p')
        /\ startPos n = (1, 1) /\ endPos n = (1, 3)).
Proof.
  repeat match goal with |- _ /\ _ => split end.
  - intros fuel p n p' H. apply parseValue_ok in H. destruct H as (_ & _ & H).
    destruct (H eq_refl) as (m & Hm & _ & _ & He). inv Hm. exact He.
  - intros fuel k p n p' H. eapply loopOk_end.
    eapply parseObject_ok; [|exact H]. intros q r. apply parseValue_ok.
  - intros fuel k p n p' H. eapply loopOk_end.
    eapply parseArray_ok; [|exact H]. intros q r. apply parseValue_ok.
  - intros p n p' H. apply parseString_ok in H. apply H. reflexivity.
  - intros p n p' H. apply parseNumber_ok in H. apply H.
  - intros p n p' H. apply parseBoolean_ok in H. apply H. reflexivity.
  - intros p n p' H. apply parseNull_ok in H. apply H. reflexivity.
  - eexists; eexists. split; [vm_compute; reflexivity|]. split; reflexivity.
  - eexists; eexists. split; [vm_compute; reflexivity|]. split; reflexivity.
Qed.

Lemma end_is_cursor_after_node_witness :
  exists n p',
    parseValue latinDigit 40 (NewParser nestedDocument) = Some (Some n, None, p')
    /\ endPos n = cursor p' /\ cursor p' = (2, 11).
Proof.
  evaluate (parseValue latinDigit 40 (NewParser nestedDocument)) E.
  eexists; eexists. split; [exact E|]. split.
  - exact (proj1 (end_is_cursor_after_node latinDigit) _ _ _ _ E).
  - reflexivity.
Defined.

(* ================================================================== *)
(** ** Termination *)

Lemma Parse_total Digit p : exists n err p', Parse Digit p = Some (n, err, p').
Proof.
  unfold Parse.
  destruct (parseValue_total Digit (S (length p - pos p)) p) as [[[n e] q] ->].
  { unfold unread. lia. }
  destruct e; eauto.
Qed.



(* ================================================================== *)
(** ** Errors of the test suite *)

(** C6: the four malformed inputs of the test suite make [Parse] return
    an error whose message contains the expected text. *)
Theorem Parse_errors Digit :
  (failed (Parse Digit (NewParser unclosedObject)) = true
   /\ Contains (errorOf (Parse Digit (NewParser unclosedObject)))
               "expected ',' or '}' in object" = true)
  /\ (failed (Parse Digit (NewParser unclosedArray)) = true
      /\ Contains (errorOf (Parse Digit (NewParser unclosedArray)))
                  "expected ',' or ']' in array" = true)
  /\ (failed (Parse Digit (NewParser unclosedString)) = true
      /\ Contains (errorOf (Parse Digit (NewParser unclosedString)))
                  "unexpected end of input in string" = true)
  /\ (failed (Parse Digit (NewParser invalidBoolean)) = true
      /\ Contains (errorOf (Parse Digit (NewParser invalidBoolean)))
                  "invalid boolean" = true).
Proof. repeat split; vm_compute; reflexivity. Qed.

(* ================================================================== *)
(** ** Strings: what [parseString] reads and what it stores *)

Lemma append_nil_r (s : string) : (s ++ EmptyString)%string = s.
Proof. induction s as [|c s IH]; simpl; [reflexivity | rewrite IH; reflexivity]. Qed.

Lemma append_assoc (a b c : string) : ((a ++ b) ++ c)%string = (a ++ (b ++ c))%string.
Proof. induction a as [|x a IH]; simpl; [reflexivity | rewrite IH; reflexivity]. Qed.

(** Every body is of one of three shapes: items up to the end of the
    input, items and a backslash at the end of the input, or items in
    front of a closing quote. *)
Lemma body_decomposition (l : list rune) :
  exists items,
    Forall itemOk items
    /\ (l = bodyRunes items
        \/ l = (bodyRunes items ++ [rBackslash])%list
        \/ exists rest, l = (bodyRunes items ++ rQuote :: rest)%list).
Proof.
  remember (List.length l) as k eqn:Hk.
  assert (Hle : (List.length l <= k)%nat) by lia. clear Hk.
  revert l Hle. induction k as [|k IH]; intros l Hle.
  - destruct l; [|simpl in Hle; lia].
    exists []. split; [constructor | left; reflexivity].
  - destruct l as [|c l].
    { exists []. split; [constructor | left; reflexivity]. }
    simpl in Hle.
    destruct (Z.eq_dec c rQuote) as [-> | Hq].
    { exists []. split; [constructor|]. right; right. exists l. reflexivity. }
    destruct (Z.eq_dec c rBackslash) as [-> | Hb].
    + destruct l as [|d l].
      { exists []. split; [constructor|]. right; left. reflexivity. }
      simpl in Hle. destruct (IH l ltac:(lia)) as (items & Hok & H).
      exists (Escaped d :: items). split; [constructor; [exact I | exact Hok]|].
      destruct H as [-> | [-> | (rest & ->)]];
        [left | right; left | right; right; exists rest]; reflexivity.
    + destruct (IH l ltac:(lia)) as (items & Hok & H).
      exists (Plain c :: items).
      split; [constructor; [split; assumption | exact Hok]|].
      destruct H as [-> | [-> | (rest & ->)]];
        [left | right; left | right; right; exists rest]; reflexivity.
Qed.

Lemma consumeChar_wf p : wf p -> wf (consumeChar p).
Proof. apply reach_wf, consumeChar_reach. Qed.

Lemma advance_skipn l1 : forall p l2,
  wf p -> skipn (pos p) (runes p) = (l1 ++ l2)%list ->
  let p' := advance (List.length l1) p in
  wf p' /\ skipn (pos p') (runes p') = l2
  /\ pos p' = (pos p + List.length l1)%nat.
Proof.
  induction l1 as [|c l1 IH]; intros p l2 Hwf Hs; simpl in Hs.
  - simpl. repeat split; auto.
  - change (List.length (c :: l1)) with (S (List.length l1)). rewrite advance_S.
    destruct (peekChar_skipn _ _ _ Hwf Hs) as [E _].
    destruct (IH (consumeChar p) l2 (consumeChar_wf p Hwf)
                 (consumeChar_skipn _ _ _ Hwf Hs)) as (H1 & H2 & H3).
    repeat split; auto. rewrite H3, (consumeChar_pos p E). lia.
Qed.

Lemma stringLoop_items items : forall fuel n sb p tail r,
  wf p -> skipn (pos p) (runes p) = (bodyRunes items ++ tail)%list ->
  Forall itemOk items ->
  stringLoop fuel n sb p = Some r ->
  exists fuel',
    stringLoop fuel' n (sb ++ bodyLit items)
               (advance (List.length (bodyRunes items)) p) = Some r.
Proof.
  induction items as [|i items IH]; intros fuel n sb p tail r Hwf Hs Hok H.
  - exists fuel. unfold bodyLit. simpl. rewrite append_nil_r. exact H.
  - destruct fuel as [|fuel]; [discriminate|]. simpl in H.
    inversion Hok as [|? ? Hi Hok']; subst.
    assert (Hlit : forall c, itemLit i = c ->
              ((sb ++ encodeRune c) ++ bodyLit items)%string
              = (sb ++ bodyLit (i :: items))%string).
    { intros c <-. unfold bodyLit. simpl. apply append_assoc. }
    destruct i as [c|c]; unfold bodyRunes in Hs; simpl in Hs.
    + destruct (peekChar_skipn _ _ _ Hwf Hs) as [E Hc].
      rewrite E, Hc in H. destruct Hi as [Hq Hb].
      apply Z.eqb_neq in Hq, Hb. rewrite Hq, Hb in H.
      apply (IH _ _ _ _ tail _ (consumeChar_wf p Hwf)
                (consumeChar_skipn _ _ _ Hwf Hs) Hok') in H.
      destruct H as [fuel' H]. exists fuel'.
      rewrite <- (Hlit c eq_refl).
      change (List.length (bodyRunes (Plain c :: items)))
        with (S (List.length (bodyRunes items))).
      rewrite advance_S. exact H.
    + destruct (peekChar_skipn _ _ _ Hwf Hs) as [E Hc].
      rewrite E, Hc in H.
      change (rBackslash =? rQuote) with false in H.
      rewrite Z.eqb_refl in H.
      pose proof (consumeChar_skipn _ _ _ Hwf Hs) as Hs1.
      pose proof (consumeChar_wf p Hwf) as Hwf1.
      destruct (peekChar_skipn _ _ _ Hwf1 Hs1) as [E1 Hc1].
      rewrite E1, Hc1 in H.
      apply (IH _ _ _ _ tail _ (consumeChar_wf _ Hwf1)
                (consumeChar_skipn _ _ _ Hwf1 Hs1) Hok') in H.
      destruct H as [fuel' H]. exists fuel'.
      rewrite <- (Hlit c eq_refl).
      change (List.length (bodyRunes (Escaped c :: items)))
        with (S (S (List.length (bodyRunes items)))).
      rewrite !advance_S. exact H.
Qed.

(** [parseString] on a string whose body is [items], followed by [tail]:
    the loop arrives in front of [tail] with the literal of [items]. *)
Lemma parseString_items p items tail :
  wf p -> peekChar p = rQuote ->
  skipn (S (pos p)) (runes p) = (bodyRunes items ++ tail)%list ->
  Forall itemOk items ->
  let p' := advance (S (List.length (bodyRunes items))) p in
  wf p' /\ skipn (pos p') (runes p') = tail
  /\ pos p' = (pos p + S (List.length (bodyRunes items)))%nat
  /\ exists fuel',
      parseString p
      = stringLoop fuel' (newNode NodeString p) (bodyLit items) p'.
Proof.
  intros Hwf Hq Hs Hok p'.
  assert (E : isEOF p = false)
    by (apply peekChar_nonzero; rewrite Hq; discriminate).
  pose proof (consumeChar_wf p Hwf) as Hwf1.
  assert (Hs1 : skipn (pos (consumeChar p)) (runes (consumeChar p))
                = (bodyRunes items ++ tail)%list).
  { rewrite (consumeChar_pos p E).
    destruct (consumeChar_reach p) as [-> _ _ _ _ _]. exact Hs. }
  destruct (advance_skipn _ _ _ Hwf1 Hs1) as (H1 & H2 & H3).
  unfold p'. rewrite advance_S.
  split; [exact H1|]. split; [exact H2|].
  split; [rewrite H3, (consumeChar_pos p E); lia|].
  destruct (parseString_total p) as [r Hr]. rewrite Hr.
  unfold parseString in Hr.
  apply (stringLoop_items items _ _ _ _ tail r Hwf1 Hs1 Hok) in Hr.
  destruct Hr as [fuel' Hr]. exists fuel'. simpl in Hr. symmetry. exact Hr.
Qed.

(** C3, as stated, fails when the input ends right after a backslash: for
    the input quote, [a], [b], backslash the error is not the one of the
    claim, and the node holds neither the literal [ab] nor an end. *)
Lemma string_eof_after_backslash :
  ~ (exists n p',
        parseString (NewParser danglingEscape)
        = Some (n, Some "unexpected end of input in string", p')
        /\ Value n = "ab" /\ endPos n = cursor p')
  /\ exists n p',
        parseString (NewParser danglingEscape)
        = Some (n, Some "unexpected end of input in string escape", p')
        /\ Value n = EmptyString /\ endPos n = (0, 0) /\ cursor p' = (1, 5).
Proof.
  evaluate (parseString (NewParser danglingEscape)) E. split.
  - intros (n & p' & H & _). rewrite E in H. discriminate.
  - eexists; eexists. split; [exact E|]. repeat split.
Qed.

(** C3 (amended): when the input ends inside a string, in front of a rune
    that is not escaped, [parseString] fails with the message
    [unexpected end of input in string] and returns a String node whose
    literal holds the runes accumulated so far and whose end is the
    cursor at the end of the input. When the input ends right after a
    backslash, the message is [unexpected end of input in string escape]. *)
Theorem parseString_eof p items :
  wf p -> peekChar p = rQuote -> Forall itemOk items ->
  (skipn (S (pos p)) (runes p) = bodyRunes items ->
   exists n p',
     parseString p = Some (n, Some "unexpected end of input in string", p')
     /\ Type_ n = NodeString /\ startPos n = cursor p
     /\ Value n = bodyLit items
     /\ endPos n = cursor p' /\ isEOF p' = true
     /\ pos p' = (pos p + S (List.length (bodyRunes items)))%nat)
  /\ (skipn (S (pos p)) (runes p) = (bodyRunes items ++ [rBackslash])%list ->
      exists n p',
        parseString p
        = Some (n, Some "unexpected end of input in string escape", p')
        /\ isEOF p' = true).
Proof.
  intros Hwf Hq Hok. split; intros Hs.
  - rewrite <- (app_nil_r (bodyRunes items)) in Hs.
    destruct (parseString_items p items [] Hwf Hq Hs Hok)
      as (Hwf' & Hs' & Hp' & fuel' & Hr).
    set (q := advance _ p) in *.
    destruct (parseString_total p) as [r Hr']. rewrite Hr' in Hr.
    destruct fuel' as [|fuel']; [discriminate|]. simpl in Hr.
    pose proof (skipn_nil_eof _ Hwf' Hs') as E. rewrite E in Hr.
    rewrite Hr'. inv Hr. eexists; eexists. split; [reflexivity|].
    repeat split; assumption.
  - destruct (parseString_items p items [rBackslash] Hwf Hq Hs Hok)
      as (Hwf' & Hs' & Hp' & fuel' & Hr).
    set (q := advance _ p) in *.
    destruct (parseString_total p) as [r Hr']. rewrite Hr' in Hr.
    destruct fuel' as [|fuel']; [discriminate|]. simpl in Hr.
    destruct (peekChar_skipn _ _ _ Hwf' Hs') as [E Hc].
    rewrite E, Hc in Hr.
    change (rBackslash =? rQuote) with false in Hr.
    rewrite Z.eqb_refl in Hr.
    pose proof (skipn_nil_eof _ (consumeChar_wf _ Hwf')
                  (consumeChar_skipn _ _ _ Hwf' Hs')) as E1.
    rewrite E1 in Hr. rewrite Hr'. inv Hr.
    eexists; eexists. split; [reflexivity | assumption].
Qed.

Lemma parseString_eof_witness :
  exists n p',
    parseString (NewParser (String quoteChar "a\nb"))
    = Some (n, Some "unexpected end of input in string", p')
    /\ Value n = "anb" /\ endPos n = cursor p' /\ isEOF p' = true.
Proof.
  destruct (parseString_eof (NewParser (String quoteChar "a\nb"))
              [Plain (runeOf "a"); Escaped (runeOf "n"); Plain (runeOf "b")]
              (NewParser_wf _) eq_refl)
    as [H _].
  { repeat constructor; discriminate. }
  destruct (H eq_refl) as (n & p' & Hr & _ & _ & Hv & He & Heof & _).
  exists n, p'. repeat split; assumption.
Defined.

(** C4, as stated, fails: for the input quote, [a], backslash, [n], [b],
    quote the literal is [anb]; the backslash is not in it. *)
Lemma string_escape_drops_backslash :
  ~ (exists n p',
        parseString (NewParser escapedN) = Some (n, None, p')
        /\ Value n = "a\nb")
  /\ exists n p',
        parseString (NewParser escapedN) = Some (n, None, p')
        /\ Value n = "anb".
Proof.
  evaluate (parseString (NewParser escapedN)) E. split.
  - intros (n & p' & H & Hv). rewrite E in H. inv H. discriminate.
  - eexists; eexists. split; [exact E | reflexivity].
Qed.

(** C4 (amended): [parseString] consumes a backslash without storing it
    and appends the rune after it to the literal as it is, with no
    interpretation: the literal of a closed string is the encoding of its
    runes with every escaping backslash left out. *)
Theorem parseString_literal p items rest :
  wf p -> peekChar p = rQuote -> Forall itemOk items ->
  skipn (S (pos p)) (runes p) = (bodyRunes items ++ rQuote :: rest)%list ->
  exists n p',
    parseString p = Some (n, None, p')
    /\ Type_ n = NodeString
    /\ Value n = stringOfRunes (map itemLit items)
    /\ skipn (pos p') (runes p') = rest
    /\ pos p' = (pos p + List.length (bodyRunes items) + 2)%nat.
Proof.
  intros Hwf Hq Hok Hs.
  destruct (parseString_items p items (rQuote :: rest) Hwf Hq Hs Hok)
    as (Hwf' & Hs' & Hp' & fuel' & Hr).
  set (q := advance _ p) in *.
  destruct (parseString_total p) as [r Hr']. rewrite Hr' in Hr.
  destruct fuel' as [|fuel']; [discriminate|]. simpl in Hr.
  destruct (peekChar_skipn _ _ _ Hwf' Hs') as [E Hc].
  rewrite E, Hc, Z.eqb_refl in Hr. rewrite Hr'. inv Hr.
  eexists; eexists. split; [reflexivity|].
  split; [reflexivity|]. split; [reflexivity|].
  split; [exact (consumeChar_skipn _ _ _ Hwf' Hs')|].
  rewrite (consumeChar_pos _ E), Hp'. lia.
Qed.

Lemma parseString_literal_witness :
  exists n p',
    parseString (NewParser escapedN) = Some (n, None, p')
    /\ Value n = stringOfRunes [runeOf "a"; runeOf "n"; runeOf "b"].
Proof.
  destruct (parseString_literal (NewParser escapedN)
              [Plain (runeOf "a"); Escaped (runeOf "n"); Plain (runeOf "b")] []
              (NewParser_wf _) eq_refl)
    as (n & p' & Hr & _ & Hv & _).
  { repeat constructor; discriminate. }
  { reflexivity. }
  exists n, p'. split; assumption.
Defined.

(* ================================================================== *)
(** ** Numbers *)

Lemma isNumberChar_iff Digit c :
  isNumberChar Digit c = true <-> numberRune Digit c.
Proof.
  unfold isNumberChar, numberRune.
  rewrite !orb_true_iff, !Z.eqb_eq. tauto.
Qed.

Lemma isNumberChar_false Digit c :
  isNumberChar Digit c = false <-> ~ numberRune Digit c.
Proof.
  rewrite <- isNumberChar_iff. destruct (isNumberChar Digit c); split; intro H;
    first [ discriminate | reflexivity
          | exfalso; apply H; reflexivity | intro H'; discriminate ].
Qed.

(** Every list splits into its longest prefix of number runes and a rest
    that is empty or starts with another rune. *)
Lemma number_prefix_exists Digit (l : list rune) :
  exists prefix rest,
    l = (prefix ++ rest)%list /\ Forall (numberRune Digit) prefix
    /\ match rest with
       | [] => True
       | c :: _ => ~ numberRune Digit c
       end.
Proof.
  induction l as [|c l (prefix & rest & Hl & Hp & Hr)].
  - exists [], []. repeat split; constructor.
  - destruct (isNumberChar Digit c) eqn:E.
    + exists (c :: prefix), rest. subst l. split; [reflexivity|].
      split; [|exact Hr]. constructor; [apply isNumberChar_iff|]; assumption.
    + exists [], (c :: l). split; [reflexivity|]. split; [constructor|].
      apply isNumberChar_false. exact E.
Qed.

Lemma numberLoop_prefix Digit prefix : forall fuel sb p rest,
  wf p -> skipn (pos p) (runes p) = (prefix ++ rest)%list ->
  Forall (numberRune Digit) prefix ->
  match rest with
  | [] => True
  | c :: _ => ~ numberRune Digit c
  end ->
  (List.length prefix <= fuel)%nat ->
  numberLoop Digit fuel sb p
  = ((sb ++ stringOfRunes prefix)%string, advance (List.length prefix) p).
Proof.
  induction prefix as [|c prefix IH]; intros fuel sb p rest Hwf Hs Hp Hr Hf.
  - simpl in *. rewrite append_nil_r.
    destruct fuel as [|fuel]; [reflexivity|]. simpl.
    destruct rest as [|c rest].
    + rewrite (skipn_nil_eof _ Hwf Hs). reflexivity.
    + destruct (peekChar_skipn _ _ _ Hwf Hs) as [E Hc]. rewrite E, Hc.
      apply isNumberChar_false in Hr. rewrite Hr. reflexivity.
  - destruct fuel as [|fuel]; [simpl in Hf; lia|].
    simpl in Hs. destruct (peekChar_skipn _ _ _ Hwf Hs) as [E Hc].
    inversion Hp as [|? ? Hc' Hp']; subst.
    apply isNumberChar_iff in Hc'.
    cbn [numberLoop]. rewrite E, Hc'.
    rewrite (IH fuel _ _ rest (consumeChar_wf p Hwf)
                (consumeChar_skipn _ _ _ Hwf Hs) Hp' Hr)
      by (simpl in Hf; lia).
    change (List.length (peekChar p :: prefix)) with (S (List.length prefix)).
    rewrite advance_S. simpl. rewrite append_assoc. reflexivity.
Qed.

(** C5: [parseNumber] never returns an error, and from every state of the
    cursor it consumes the longest prefix of the remaining input that is
    made of the runes [-], [+], [.] and digits, and stores it, possibly
    empty, as the literal. *)
Theorem parseNumber_maximal Digit :
  (forall p, exists n p', parseNumber Digit p = (n, None, p'))
  /\ (forall p, wf p ->
      exists prefix rest n p',
        skipn (pos p) (runes p) = (prefix ++ rest)%list
        /\ Forall (numberRune Digit) prefix
        /\ match rest with
           | [] => True
           | c :: _ => ~ numberRune Digit c
           end
        /\ parseNumber Digit p = (n, None, p')
        /\ Type_ n = NodeNumber
        /\ Value n = stringOfRunes prefix
        /\ pos p' = (pos p + List.length prefix)%nat
        /\ skipn (pos p') (runes p') = rest).
Proof.
  split.
  - intros p. unfold parseNumber.
    destruct (numberLoop _ _ _ _) as [sb q]. eauto.
  - intros p Hwf.
    destruct (number_prefix_exists Digit (skipn (pos p) (runes p)))
      as (prefix & rest & Hs & Hp & Hr).
    exists prefix, rest. unfold parseNumber.
    rewrite (numberLoop_prefix Digit prefix _ _ _ rest Hwf Hs Hp Hr).
    2:{ apply (f_equal (@List.length rune)) in Hs.
        rewrite length_skipn, length_app in Hs. unfold wf in Hwf. lia. }
    destruct (advance_skipn prefix p rest Hwf Hs) as (_ & H2 & H3).
    eexists; eexists. split; [exact Hs|]. split; [exact Hp|].
    split; [exact Hr|]. split; [reflexivity|].
    split; [reflexivity|]. split; [reflexivity|].
    split; [exact H3 | exact H2].
Qed.

Lemma parseNumber_maximal_witness :
  exists prefix rest n p',
    skipn 1 (runes (NewParser unclosedArray)) = (prefix ++ rest)%list
    /\ parseNumber latinDigit (advance 1 (NewParser unclosedArray)) = (n, None, p')
    /\ Value n = stringOfRunes prefix /\ Value n = "1".
Proof.
  destruct (proj2 (parseNumber_maximal latinDigit)
              (advance 1 (NewParser unclosedArray)) eq_refl)
    as (prefix & rest & n & p' & Hs & _ & _ & Hr & _ & Hv & _).
  exists prefix, rest, n, p'.
  split; [exact Hs|]. split; [exact Hr|]. split; [exact Hv|].
  evaluate (parseNumber latinDigit (advance 1 (NewParser unclosedArray))) E.
  rewrite E in Hr. inv Hr. reflexivity.
Defined.

(* ================================================================== *)
(** ** Debug context: the window of lines *)

Lemma wrap_small z : inInt z -> wrap z = z.
Proof.
  unfold inInt, wrap, min_int, max_int, int_bits. intros H.
  change (2 ^ (64 - 1)) with 9223372036854775808 in *.
  change (2 ^ 64) with 18446744073709551616.
  rewrite Z.mod_small; lia.
Qed.

Lemma wrap_add_l a b : wrap (wrap a + b) = wrap (a + b).
Proof.
  unfold wrap, int_bits.
  change (2 ^ (64 - 1)) with 9223372036854775808.
  change (2 ^ 64) with 18446744073709551616.
  f_equal.
  replace ((a + 9223372036854775808) mod 18446744073709551616
           - 9223372036854775808 + b + 9223372036854775808)
    with ((a + 9223372036854775808) mod 18446744073709551616 + b) by lia.
  rewrite Zplus_mod_idemp_l. f_equal. lia.
Qed.

Lemma splitLines_length s : (1 <= List.length (splitLines s))%nat.
Proof.
  induction s as [|c s IH]; simpl; [lia|].
  destruct (Ascii.eqb c _); simpl; [lia|].
  destruct (splitLines s); simpl in *; lia.
Qed.

Lemma contextIter_inside n i :
  0 <= i < Z.of_nat (List.length (splitLines (Source n))) ->
  i + 1 <= max_int ->
  contextIter n (splitLines (Source n)) i = Some (lineEmits n i).
Proof.
  intros Hi Hm. unfold contextIter, index, lineEmits, sourceLine.
  assert (Hw : int_add i 1 = i + 1).
  { apply wrap_small. unfold inInt, min_int, int_bits.
    change (- 2 ^ (64 - 1)) with (-9223372036854775808). lia. }
  rewrite Hw.
  destruct (i <? 0) eqn:E; [apply Z.ltb_lt in E; lia|].
  destruct (nth_error _ (Z.to_nat i)) as [text|] eqn:En.
  - rewrite (nth_error_nth _ _ EmptyString En). reflexivity.
  - apply nth_error_None in En. lia.
Qed.

Lemma caret_not_line mk c text :
  (forall z, isEmitLine (mk z) = false) -> filter isEmitLine (caret mk c text) = [].
Proof.
  intros H. unfold caret. destruct (_ && _); simpl; [rewrite H|]; reflexivity.
Qed.

Lemma lineEmits_lines n i : filter isEmitLine (lineEmits n i) = [sourceLine n i].
Proof.
  unfold lineEmits. cbn [filter sourceLine isEmitLine]. f_equal.
  rewrite filter_app.
  destruct (_ =? StartLine n); destruct (_ =? EndLine n);
    rewrite ?caret_not_line by reflexivity; reflexivity.
Qed.

Lemma contextLoop_inside n count : forall i out,
  0 <= i -> i + Z.of_nat count <= Z.of_nat (List.length (splitLines (Source n))) ->
  Z.of_nat (List.length (splitLines (Source n))) <= max_int ->
  contextLoop n (splitLines (Source n)) count i out
  = Some (out ++ flat_map (lineEmits n)
                   (map (fun k => i + Z.of_nat k) (seq 0 count)))%list.
Proof.
  induction count as [|count IH]; intros i out Hi Hc Hm.
  - simpl. rewrite app_nil_r. reflexivity.
  - cbn [contextLoop]. rewrite contextIter_inside by lia.
    assert (Hw : int_add i 1 = i + 1).
    { apply wrap_small. unfold inInt, min_int, int_bits.
      change (- 2 ^ (64 - 1)) with (-9223372036854775808). lia. }
    rewrite Hw, IH by lia.
    cbn [seq map flat_map]. rewrite <- app_assoc, Z.add_0_r.
    do 3 f_equal. rewrite <- seq_shift, map_map.
    f_equal. apply map_ext. intros k. lia.
Qed.

Lemma flat_map_lines n l :
  filter isEmitLine (flat_map (lineEmits n) l) = map (sourceLine n) l.
Proof.
  induction l as [|i l IH]; [reflexivity|].
  cbn [flat_map map]. rewrite filter_app, lineEmits_lines, IH. reflexivity.
Qed.

Lemma window_start n linesBefore :
  inInt (StartLine n - 1 - linesBefore) ->
  (let start := int_sub (int_sub (StartLine n) 1) linesBefore in
   if start <? 0 then 0 else start) = windowLo n linesBefore.
Proof.
  intros H. unfold int_sub, windowLo.
  replace (wrap (StartLine n - 1) - linesBefore)
    with (wrap (StartLine n - 1) + - linesBefore) by lia.
  rewrite wrap_add_l, wrap_small by (replace (StartLine n - 1 + - linesBefore)
                                       with (StartLine n - 1 - linesBefore) by lia;
                                     exact H).
  cbv zeta. destruct (_ <? 0) eqn:E;
    [apply Z.ltb_lt in E | apply Z.ltb_ge in E]; lia.
Qed.

Lemma window_end n linesAfter :
  inInt (EndLine n - 1 + linesAfter) ->
  Z.of_nat (List.length (splitLines (Source n))) <= max_int ->
  (let count := Z.of_nat (List.length (splitLines (Source n))) in
   let end_ := int_add (int_sub (EndLine n) 1) linesAfter in
   if end_ >=? count then int_sub count 1 else end_) = windowHi n linesAfter.
Proof.
  intros H Hm. unfold int_add, int_sub, windowHi.
  rewrite wrap_add_l, (wrap_small _ H).
  pose proof (splitLines_length (Source n)) as Hl.
  rewrite (wrap_small (_ - 1)).
  2:{ unfold inInt, min_int, int_bits.
      change (- 2 ^ (64 - 1)) with (-9223372036854775808). lia. }
  cbv zeta. destruct (_ >=? _) eqn:E;
    [apply Z.geb_le in E | rewrite Z.geb_leb in E; apply Z.leb_gt in E]; lia.
Qed.

(** C7 fails on the code: the clamp of [end] to the last line comes after
    the sum [endLine - 1 + linesAfter], which is not guarded. For the
    array that [Parse] returns for a bracket, a line break and a bracket,
    which ends on line 2, asking for [max_int] lines after the node makes
    the sum wrap around to a negative number; the loop does not run and
    nothing is printed, where the window of the claim holds the lines 0
    and 1. *)
Lemma DebugContext_window_wraps :
  exists n p',
    Parse latinDigit (NewParser ("[" ++ nl ++ "]")) = Some (Some n, None, p')
    /\ 0 <= max_int
    /\ DebugContext n 0 max_int = Some EmptyString
    /\ zrange (windowLo n 0) (windowHi n max_int) = [0; 1]
    /\ ~ windowSpec n 0 max_int.
Proof.
  evaluate (Parse latinDigit (NewParser ("[" ++ nl ++ "]"))) E.
  eexists; eexists. split; [exact E|].
  split; [discriminate|]. split; [vm_compute; reflexivity|].
  split; [vm_compute; reflexivity|].
  intros (emits & He & _ & Hl & _).
  vm_compute in He. inv He. vm_compute in Hl. discriminate.
Qed.

(** Away from the overflow the clamps work: for every node and all
    [linesBefore] and [linesAfter] for which [startLine - 1 - linesBefore] and [endLine - 1 + linesAfter]
    are in the range of [int], [DebugContext] returns without indexing
    outside the lines of the source, and the source lines it emits are
    those with the indices from [max 0 (startLine - 1 - linesBefore)]
    through [min lastLineIndex (endLine - 1 + linesAfter)], in order, each
    as its line number, a colon, a space and the text of the line. *)
Theorem DebugContext_window n linesBefore linesAfter :
  inInt (StartLine n - 1 - linesBefore) ->
  inInt (EndLine n - 1 + linesAfter) ->
  Z.of_nat (List.length (splitLines (Source n))) <= max_int ->
  windowSpec n linesBefore linesAfter
  /\ forall lineNum text,
       render (EmitLine lineNum text) = (itoa lineNum ++ ": " ++ text ++ nl)%string.
Proof.
  intros Hs He Hm. split; [|reflexivity].
  unfold windowSpec, DebugContext, DebugContextEmits.
  pose proof (window_start n linesBefore Hs) as Hlo.
  pose proof (window_end n linesAfter He Hm) as Hhi.
  cbv zeta in Hlo, Hhi |- *. rewrite Hlo, Hhi.
  set (lo := windowLo n linesBefore). set (hi := windowHi n linesAfter).
  assert (Hlo0 : 0 <= lo) by (unfold lo, windowLo; lia).
  assert (Hhi0 : hi <= Z.of_nat (List.length (splitLines (Source n))) - 1)
    by (unfold hi, windowHi; lia).
  assert (Hin : Forall (fun i => 0 <= i < Z.of_nat (List.length (splitLines (Source n))))
                       (zrange lo hi)).
  { unfold zrange. apply Forall_forall. intros i Hi.
    apply in_map_iff in Hi. destruct Hi as (k & <- & Hk).
    apply in_seq in Hk. lia. }
  destruct (Z.to_nat (hi - lo + 1)) as [|c] eqn:Ec.
  - exists []. simpl. unfold zrange. rewrite Ec. simpl. repeat split. constructor.
  - rewrite contextLoop_inside by lia.
    eexists. split; [reflexivity|]. split; [reflexivity|].
    split; [|exact Hin].
    rewrite app_nil_l, flat_map_lines. unfold zrange. rewrite Ec. reflexivity.
Qed.

Lemma DebugContext_window_witness :
  exists n p',
    Parse latinDigit (NewParser nestedDocument) = Some (Some n, None, p')
    /\ windowSpec n 5 5
    /\ zrange (windowLo n 5) (windowHi n 5) = [0; 1].
Proof.
  evaluate (Parse latinDigit (NewParser nestedDocument)) E.
  eexists; eexists. split; [exact E|]. split.
  - apply DebugContext_window.
    + unfold inInt. vm_compute. split; discriminate.
    + unfold inInt. vm_compute. split; discriminate.
    + vm_compute. discriminate.
  - vm_compute. reflexivity.
Defined.


(* ================================================================== *)
(** ** The model on the inputs of the test suite *)

Example test_parse_success Digit :
  summary (Parse Digit (NewParser "{}")) = Some (NodeObject, EmptyString, 0%nat)
  /\ summary (Parse Digit (NewParser ("{" ++ quoted "key" ++ ": " ++ quoted "value" ++ "}")))
     = Some (NodeObject, EmptyString, 1%nat)
  /\ summary (Parse Digit (NewParser "[]")) = Some (NodeArray, EmptyString, 0%nat)
  /\ summary (Parse Digit (NewParser "[1, 2, 3]")) = Some (NodeArray, EmptyString, 3%nat).
Proof. repeat split; vm_compute; reflexivity. Qed.

Example test_parse_types Digit :
  summary (Parse Digit (NewParser (quoted "test string")))
  = Some (NodeString, "test string", 0%nat)
  /\ summary (Parse Digit (NewParser "42.5")) = Some (NodeNumber, "42.5", 0%nat)
  /\ summary (Parse Digit (NewParser "true")) = Some (NodeBoolean, "true", 0%nat)
  /\ summary (Parse Digit (NewParser "false")) = Some (NodeBoolean, "false", 0%nat)
  /\ summary (Parse Digit (NewParser "null")) = Some (NodeNull, "null", 0%nat).
Proof. repeat split; vm_compute; reflexivity. Qed.

(** The root of [nestedDocument] spans both lines; the end column lies one
    past the last rune of line 2, so no end caret is drawn. *)
Example test_debug_context :
  match Parse latinDigit (NewParser nestedDocument) with
  | Some (Some n, None, _) =>
    DebugContextEmits n 0 0
    = Some [sourceLine n 0; EmitStart 1; sourceLine n 1]
  | _ => False
  end.
Proof. vm_compute. reflexivity. Qed.

(* ================================================================== *)
(** ** Line and column of an offset *)

Lemma isSpace_iff c : isSpace c = true <-> spaceRune c.
Proof.
  unfold isSpace, spaceRune. rewrite !orb_true_iff, !Z.eqb_eq. tauto.
Qed.

Lemma isSpace_false c : isSpace c = false <-> ~ spaceRune c.
Proof.
  rewrite <- isSpace_iff. destruct (isSpace c); split; intro H;
    first [ discriminate | reflexivity
          | exfalso; apply H; reflexivity | intro H'; discriminate ].
Qed.

Lemma lineOf_snoc l c :
  lineOf (l ++ [c]) = if c =? rNewline then lineOf l + 1 else lineOf l.
Proof.
  unfold lineOf, rune in *. rewrite count_occ_app. cbn [count_occ].
  destruct (Z.eq_dec c rNewline) as [He | Hne].
  - apply Z.eqb_eq in He. rewrite He. lia.
  - apply Z.eqb_neq in Hne. rewrite Hne. lia.
Qed.

Lemma colOf_snoc l c :
  colOf (l ++ [c]) = if c =? rNewline then 1 else colOf l + 1.
Proof.
  unfold colOf, rune in *. rewrite rev_app_distr.
  cbn [rev app plainPrefix].
  destruct (c =? rNewline); [reflexivity | lia].
Qed.

Lemma firstn_succ_nth (rs : list rune) i :
  (i < List.length rs)%nat -> firstn (S i) rs = (firstn i rs ++ [nth i rs 0])%list.
Proof.
  revert i. induction rs as [|c rs IH]; intros i Hi; simpl in Hi; [lia|].
  destruct i as [|i]; [reflexivity|].
  simpl. f_equal. apply IH. lia.
Qed.

Lemma consumeChar_cursor_eq p :
  isEOF p = false ->
  cursor (consumeChar p)
  = if peekChar p =? rNewline then (line p + 1, 1) else (line p, col p + 1).
Proof.
  unfold isEOF, consumeChar, peekChar. intros ->.
  destruct (_ =? rNewline); reflexivity.
Qed.

Lemma peekChar_nth p : isEOF p = false -> peekChar p = nth (pos p) (runes p) 0.
Proof. unfold isEOF, peekChar. intros ->. reflexivity. Qed.

Lemma consumeChar_tracked p : tracked p -> tracked (consumeChar p).
Proof.
  intros (Hwf & Hle & Hc).
  destruct (isEOF p) eqn:E.
  { rewrite (consumeChar_eof p E). repeat split; assumption. }
  pose proof (consumeChar_wf p Hwf) as Hwf'.
  pose proof E as Hlt. apply isEOF_false in Hlt.
  pose proof (consumeChar_pos p E) as Hp.
  pose proof (consumeChar_reach p) as [Hr Hl _ _ _ _].
  split; [exact Hwf'|]. split; [lia|].
  rewrite (consumeChar_cursor_eq p E), Hp, Hr, (peekChar_nth p E).
  unfold wf in Hwf. unfold cursor, posAt in *. injection Hc as Hline Hcol.
  rewrite firstn_succ_nth by lia.
  rewrite lineOf_snoc, colOf_snoc.
  destruct (_ =? rNewline); congruence.
Qed.

Lemma advance_tracked k : forall p, tracked p -> tracked (advance k p).
Proof.
  induction k as [|k IH]; intros p H; [exact H|].
  rewrite advance_S. apply IH, consumeChar_tracked, H.
Qed.

Lemma NewParser_tracked input : tracked (NewParser input).
Proof. split; [reflexivity|]. split; [simpl; lia | reflexivity]. Qed.

Lemma advance_pos_min k : forall p,
  (pos p <= length p)%nat ->
  pos (advance k p) = Nat.min (pos p + k) (length p).
Proof.
  induction k as [|k IH]; intros p Hle.
  - simpl. lia.
  - rewrite advance_S. destruct (isEOF p) eqn:E.
    + rewrite (consumeChar_eof p E). apply isEOF_true in E.
      rewrite IH by assumption. lia.
    + pose proof (consumeChar_pos p E) as Hp.
      pose proof (reach_length _ _ (consumeChar_reach p)) as Hl.
      apply isEOF_false in E. rewrite IH by lia. lia.
Qed.

(** X1: the line and column that the cursor keeps are those of its
    offset: after any number of [consumeChar] calls on a fresh parser the
    offset is the number of calls, capped by the length of the input, the
    line is one more than the number of line feeds in front of the offset,
    and the column is one more than the number of runes between the last
    of these line feeds and the offset. *)
Theorem cursor_position input k :
  let p := advance k (NewParser input) in
  runes p = runesOf input
  /\ pos p = Nat.min k (List.length (runesOf input))
  /\ line p = lineOf (firstn (pos p) (runesOf input))
  /\ col p = colOf (firstn (pos p) (runesOf input)).
Proof.
  intros p.
  pose proof (advance_tracked k _ (NewParser_tracked input)) as (_ & _ & Hc).
  pose proof (advance_reach k (NewParser input)) as [Hr _ _ _ _ _].
  fold p in Hc, Hr. unfold cursor, posAt in Hc. injection Hc as Hl Hcol.
  change (runes (NewParser input)) with (runesOf input) in Hr.
  rewrite Hr in Hl, Hcol.
  split; [exact Hr|]. split; [|split; assumption].
  unfold p. rewrite advance_pos_min by (simpl; lia). reflexivity.
Qed.

(* ================================================================== *)
(** ** White space *)

Lemma space_prefix_exists (l : list rune) :
  exists ws rest,
    l = (ws ++ rest)%list /\ Forall spaceRune ws
    /\ match rest with
       | [] => True
       | c :: _ => ~ spaceRune c
       end.
Proof.
  induction l as [|c l (ws & rest & Hl & Hw & Hr)].
  - exists [], []. repeat split; constructor.
  - destruct (isSpace c) eqn:E.
    + exists (c :: ws), rest. subst l. split; [reflexivity|].
      split; [|exact Hr]. constructor; [apply isSpace_iff|]; assumption.
    + exists [], (c :: l). split; [reflexivity|]. split; [constructor|].
      apply isSpace_false. exact E.
Qed.

Lemma skipWhitespaceLoop_prefix ws : forall fuel p rest,
  wf p -> skipn (pos p) (runes p) = (ws ++ rest)%list ->
  Forall spaceRune ws ->
  match rest with
  | [] => True
  | c :: _ => ~ spaceRune c
  end ->
  (List.length ws <= fuel)%nat ->
  skipWhitespaceLoop fuel p = advance (List.length ws) p.
Proof.
  induction ws as [|c ws IH]; intros fuel p rest Hwf Hs Hw Hr Hf.
  - simpl in *. destruct fuel as [|fuel]; [reflexivity|]. simpl.
    destruct rest as [|c rest].
    + rewrite (skipn_nil_eof _ Hwf Hs). reflexivity.
    + destruct (peekChar_skipn _ _ _ Hwf Hs) as [E Hc]. rewrite E, Hc.
      apply isSpace_false in Hr. rewrite Hr. reflexivity.
  - destruct fuel as [|fuel]; [simpl in Hf; lia|].
    simpl in Hs. destruct (peekChar_skipn _ _ _ Hwf Hs) as [E Hc].
    inversion Hw as [|? ? Hc' Hw']; subst.
    apply isSpace_iff in Hc'.
    cbn [skipWhitespaceLoop]. rewrite E, Hc'.
    rewrite (IH fuel _ rest (consumeChar_wf p Hwf)
                (consumeChar_skipn _ _ _ Hwf Hs) Hw' Hr)
      by (simpl in Hf; lia).
    change (List.length (peekChar p :: ws)) with (S (List.length ws)).
    rewrite advance_S. reflexivity.
Qed.

Lemma skipWhitespace_prefix p ws rest :
  wf p -> skipn (pos p) (runes p) = (ws ++ rest)%list ->
  Forall spaceRune ws ->
  match rest with
  | [] => True
  | c :: _ => ~ spaceRune c
  end ->
  skipWhitespace p = advance (List.length ws) p.
Proof.
  intros Hwf Hs Hw Hr. unfold skipWhitespace.
  apply (skipWhitespaceLoop_prefix ws _ p rest Hwf Hs Hw Hr).
  apply (f_equal (@List.length rune)) in Hs.
  rewrite length_skipn, length_app in Hs. unfold wf in Hwf. lia.
Qed.

(** X2: [skipWhitespace] consumes the longest prefix of the remaining
    input that is made of spaces, tabs, line feeds and carriage returns,
    and nothing else: it leaves the cursor at the end of the input or in
    front of the first rune of another kind, and a second call changes
    nothing. *)
Theorem skipWhitespace_maximal p :
  wf p ->
  exists ws rest,
    skipn (pos p) (runes p) = (ws ++ rest)%list
    /\ Forall spaceRune ws
    /\ match rest with
       | [] => True
       | c :: _ => ~ spaceRune c
       end
    /\ skipWhitespace p = advance (List.length ws) p
    /\ pos (skipWhitespace p) = (pos p + List.length ws)%nat
    /\ skipn (pos (skipWhitespace p)) (runes (skipWhitespace p)) = rest
    /\ skipWhitespace (skipWhitespace p) = skipWhitespace p.
Proof.
  intros Hwf.
  destruct (space_prefix_exists (skipn (pos p) (runes p)))
    as (ws & rest & Hs & Hw & Hr).
  exists ws, rest.
  pose proof (skipWhitespace_prefix p ws rest Hwf Hs Hw Hr) as He.
  destruct (advance_skipn ws p rest Hwf Hs) as (Hwf' & H2 & H3).
  rewrite He.
  split; [exact Hs|]. split; [exact Hw|]. split; [exact Hr|].
  split; [reflexivity|]. split; [exact H3|]. split; [exact H2|].
  apply (skipWhitespace_prefix _ [] rest Hwf' H2 (Forall_nil _) Hr).
Qed.

Lemma skipWhitespace_maximal_witness :
  exists ws rest,
    runes (NewParser ("  " ++ nl ++ "[1]")) = (ws ++ rest)%list
    /\ Forall spaceRune ws
    /\ pos (skipWhitespace (NewParser ("  " ++ nl ++ "[1]"))) = 3%nat
    /\ cursor (skipWhitespace (NewParser ("  " ++ nl ++ "[1]"))) = (2, 1).
Proof.
  destruct (skipWhitespace_maximal (NewParser ("  " ++ nl ++ "[1]"))
              (NewParser_wf _))
    as (ws & rest & Hs & Hw & _ & _ & _ & _ & _).
  exists ws, rest. split; [exact Hs|]. split; [exact Hw|].
  split; vm_compute; reflexivity.
Defined.

(* ================================================================== *)
(** ** Errors and the state they come with *)

Lemma consumedTo_refl p : consumedTo p p.
Proof. exists O. reflexivity. Qed.

Lemma consumedTo_trans p q r : consumedTo p q -> consumedTo q r -> consumedTo p r.
Proof. intros [j ->] [k ->]. exists (j + k)%nat. symmetry. apply advance_add. Qed.

Lemma consumedTo_consumeChar p : consumedTo p (consumeChar p).
Proof. exists 1%nat. reflexivity. Qed.

Lemma consumedTo_advance k p : consumedTo p (advance k p).
Proof. exists k. reflexivity. Qed.

Lemma consumedTo_tracked p p' : consumedTo p p' -> tracked p -> tracked p'.
Proof. intros [k ->]. apply advance_tracked. Qed.

Lemma skipWhitespaceLoop_consumedTo fuel : forall p,
  consumedTo p (skipWhitespaceLoop fuel p).
Proof.
  induction fuel as [|fuel IH]; intros p; simpl.
  - apply consumedTo_refl.
  - destruct (isEOF p); [apply consumedTo_refl|].
    destruct (isSpace _); [|apply consumedTo_refl].
    eapply consumedTo_trans; [apply consumedTo_consumeChar | apply IH].
Qed.

Lemma skipWhitespace_consumedTo p : consumedTo p (skipWhitespace p).
Proof. apply skipWhitespaceLoop_consumedTo. Qed.

Lemma errOk_none p p' : consumedTo p p' -> errOk p None p'.
Proof. intros H. split; [exact H | discriminate]. Qed.

Lemma errOk_at p p' msg :
  consumedTo p p' -> In msg positionalErrors -> errOk p (Some (errAt msg p')) p'.
Proof.
  intros H Hin. split; [exact H|]. intros e He. inv He.
  right. exists msg. split; [exact Hin | reflexivity].
Qed.

Lemma errOk_from q p err p' : consumedTo q p -> errOk p err p' -> errOk q err p'.
Proof.
  intros H [H1 H2]. split; [eapply consumedTo_trans; eassumption | exact H2].
Qed.

Lemma stringLoop_errOk fuel : forall n sb p n' err p',
  stringLoop fuel n sb p = Some (n', err, p') -> errOk p err p'.
Proof.
  induction fuel as [|fuel IH]; intros n sb p n' err p' H; simpl in H.
  - discriminate.
  - destruct (isEOF p) eqn:E.
    { inv H. split; [apply consumedTo_refl|]. intros e He. inv He.
      left. split; [exact E | right; left; reflexivity]. }
    destruct (peekChar p =? rQuote).
    { inv H. apply errOk_none, consumedTo_consumeChar. }
    destruct (peekChar p =? rBackslash).
    + destruct (isEOF (consumeChar p)) eqn:E'.
      { inv H. split; [apply consumedTo_consumeChar|]. intros e He. inv He.
        left. split; [exact E' | right; right; reflexivity]. }
      apply IH in H. eapply errOk_from; [|exact H].
      eapply consumedTo_trans; apply consumedTo_consumeChar.
    + apply IH in H. eapply errOk_from; [|exact H].
      apply consumedTo_consumeChar.
Qed.

Lemma parseString_errOk p n err p' :
  parseString p = Some (n, err, p') -> errOk p err p'.
Proof.
  unfold parseString. intros H. apply stringLoop_errOk in H.
  eapply errOk_from; [apply consumedTo_consumeChar | exact H].
Qed.

Lemma numberLoop_consumedTo Digit fuel : forall sb p sb' p',
  numberLoop Digit fuel sb p = (sb', p') -> consumedTo p p'.
Proof.
  induction fuel as [|fuel IH]; intros sb p sb' p' H; simpl in H.
  - inv H. apply consumedTo_refl.
  - destruct (isEOF p); [inv H; apply consumedTo_refl|].
    destruct (isNumberChar Digit (peekChar p)); [|inv H; apply consumedTo_refl].
    apply IH in H. eapply consumedTo_trans; [apply consumedTo_consumeChar | exact H].
Qed.

Lemma parseNumber_errOk Digit p n err p' :
  parseNumber Digit p = (n, err, p') -> errOk p err p'.
Proof.
  unfold parseNumber. destruct (numberLoop _ _ _ _) as [sb q] eqn:E.
  intros H. inv H. apply errOk_none. eapply numberLoop_consumedTo, E.
Qed.

Lemma parseBoolean_errOk p n err p' :
  parseBoolean p = (n, err, p') -> errOk p err p'.
Proof.
  unfold parseBoolean. intros H.
  destruct (HasPrefix _ "true"); [|destruct (HasPrefix _ "false")]; inv H.
  - apply errOk_none, (consumedTo_advance 4).
  - apply errOk_none, (consumedTo_advance 5).
  - apply errOk_at; [apply consumedTo_refl | simpl; tauto].
Qed.

Lemma parseNull_errOk p n err p' :
  parseNull p = (n, err, p') -> errOk p err p'.
Proof.
  unfold parseNull. intros H.
  destruct (HasPrefix _ "null"); inv H.
  - apply errOk_none, (consumedTo_advance 4).
  - apply errOk_at; [apply consumedTo_refl | simpl; tauto].
Qed.

Section GrammarErrors.

Variable pv : Parser -> option (option Node * option string * Parser).
Hypothesis pv_err : forall p on err p', pv p = Some (on, err, p') -> errOk p err p'.

Lemma objectIter_errOk n p : stepErr p (objectIter pv n p).
Proof.
  unfold objectIter.
  pose proof (skipWhitespace_consumedTo p) as R1.
  set (p1 := skipWhitespace p) in *.
  destruct (peekChar p1 =? rQuote); simpl.
  2:{ apply errOk_at; [assumption | simpl; tauto]. }
  destruct (parseString p1) as [[[k0 e] p2]|] eqn:Es; simpl; [|exact I].
  apply parseString_errOk in Es.
  destruct e as [e|]; simpl.
  { eapply errOk_from; eassumption. }
  destruct Es as [R2 _].
  pose proof (skipWhitespace_consumedTo p2) as R3.
  set (p3 := skipWhitespace p2) in *.
  assert (R13 : consumedTo p p3)
    by (eapply consumedTo_trans; [|exact R3]; eapply consumedTo_trans; eassumption).
  destruct (peekChar p3 =? runeOf ":"); simpl.
  2:{ apply errOk_at; [assumption | simpl; tauto]. }
  assert (R14 : consumedTo p (consumeChar p3))
    by (eapply consumedTo_trans; [exact R13 | apply consumedTo_consumeChar]).
  destruct (pv (consumeChar p3)) as [[[ov e] p5]|] eqn:Ev; simpl; [|exact I].
  apply pv_err in Ev.
  destruct e as [e|]; simpl.
  { eapply errOk_from; eassumption. }
  destruct Ev as [R5 _].
  pose proof (skipWhitespace_consumedTo p5) as R6.
  set (p6 := skipWhitespace p5) in *.
  assert (R16 : consumedTo p p6)
    by (eapply consumedTo_trans; [|exact R6]; eapply consumedTo_trans; eassumption).
  destruct (peekChar p6 =? runeOf "}"); simpl.
  { apply errOk_none. eapply consumedTo_trans; [exact R16 | apply consumedTo_consumeChar]. }
  destruct (peekChar p6 =? runeOf ","); simpl.
  - eapply consumedTo_trans; [exact R16 | apply consumedTo_consumeChar].
  - apply errOk_at; [assumption | simpl; tauto].
Qed.

Lemma arrayIter_errOk n p : stepErr p (arrayIter pv n p).
Proof.
  unfold arrayIter.
  destruct (pv p) as [[[ov e] p1]|] eqn:Ev; simpl; [|exact I].
  apply pv_err in Ev.
  destruct e as [e|]; simpl; [exact Ev|].
  destruct Ev as [R1 _].
  pose proof (skipWhitespace_consumedTo p1) as R2.
  set (p2 := skipWhitespace p1) in *.
  assert (R12 : consumedTo p p2) by (eapply consumedTo_trans; eassumption).
  destruct (peekChar p2 =? runeOf "]"); simpl.
  { apply errOk_none. eapply consumedTo_trans; [exact R12 | apply consumedTo_consumeChar]. }
  destruct (peekChar p2 =? runeOf ","); simpl.
  - eapply consumedTo_trans; [exact R12|].
    eapply consumedTo_trans; [apply consumedTo_consumeChar | apply skipWhitespace_consumedTo].
  - apply errOk_at; [assumption | simpl; tauto].
Qed.

Lemma objectLoop_errOk fuel : forall n p n' err p',
  objectLoop pv fuel n p = Some (n', err, p') -> errOk p err p'.
Proof.
  induction fuel as [|fuel IH]; intros n p n' err p' H; simpl in H.
  - discriminate.
  - pose proof (objectIter_errOk n p) as Hs.
    destruct (objectIter pv n p) as [m e q|m q|]; simpl in Hs.
    + inv H. exact Hs.
    + apply IH in H. eapply errOk_from; eassumption.
    + discriminate.
Qed.

Lemma arrayLoop_errOk fuel : forall n p n' err p',
  arrayLoop pv fuel n p = Some (n', err, p') -> errOk p err p'.
Proof.
  induction fuel as [|fuel IH]; intros n p n' err p' H; simpl in H.
  - discriminate.
  - pose proof (arrayIter_errOk n p) as Hs.
    destruct (arrayIter pv n p) as [m e q|m q|]; simpl in Hs.
    + inv H. exact Hs.
    + apply IH in H. eapply errOk_from; eassumption.
    + discriminate.
Qed.

Lemma parseObject_errOk fuel p n err p' :
  parseObject pv fuel p = Some (n, err, p') -> errOk p err p'.
Proof.
  unfold parseObject. intros H.
  assert (R : consumedTo p (skipWhitespace (consumeChar p)))
    by (eapply consumedTo_trans;
        [apply consumedTo_consumeChar | apply skipWhitespace_consumedTo]).
  destruct (peekChar _ =? runeOf "}").
  - inv H. apply errOk_none.
    eapply consumedTo_trans; [exact R | apply consumedTo_consumeChar].
  - apply objectLoop_errOk in H. eapply errOk_from; eassumption.
Qed.

Lemma parseArray_errOk fuel p n err p' :
  parseArray pv fuel p = Some (n, err, p') -> errOk p err p'.
Proof.
  unfold parseArray. intros H.
  assert (R : consumedTo p (skipWhitespace (consumeChar p)))
    by (eapply consumedTo_trans;
        [apply consumedTo_consumeChar | apply skipWhitespace_consumedTo]).
  destruct (peekChar _ =? runeOf "]").
  - inv H. apply errOk_none.
    eapply consumedTo_trans; [exact R | apply consumedTo_consumeChar].
  - apply arrayLoop_errOk in H. eapply errOk_from; eassumption.
Qed.

End GrammarErrors.

Lemma parseValue_errOk Digit fuel : forall p on err p',
  parseValue Digit fuel p = Some (on, err, p') -> errOk p err p'.
Proof.
  induction fuel as [|fuel IH]; intros p on err p' H; simpl in H.
  - discriminate.
  - pose proof (skipWhitespace_consumedTo p) as R.
    set (p1 := skipWhitespace p) in *.
    destruct (isEOF p1) eqn:E.
    { inv H. split; [assumption|]. intros e He. inv He.
      left. split; [exact E | left; reflexivity]. }
    apply (errOk_from p p1 _ _ R).
    destruct (peekChar p1 =? runeOf "{").
    { destruct (parseObject _ fuel p1) as [[[n e] q]|] eqn:Eo; [|discriminate].
      inv H. eapply parseObject_errOk; [exact IH | exact Eo]. }
    destruct (peekChar p1 =? runeOf "[").
    { destruct (parseArray _ fuel p1) as [[[n e] q]|] eqn:Eo; [|discriminate].
      inv H. eapply parseArray_errOk; [exact IH | exact Eo]. }
    destruct (peekChar p1 =? rQuote).
    { destruct (parseString p1) as [[[n e] q]|] eqn:Eo; [|discriminate].
      inv H. eapply parseString_errOk, Eo. }
    destruct (_ || _).
    { destruct (parseBoolean p1) as [[n e] q] eqn:Eo.
      inv H. eapply parseBoolean_errOk, Eo. }
    destruct (peekChar p1 =? runeOf "n").
    { destruct (parseNull p1) as [[n e] q] eqn:Eo.
      inv H. eapply parseNull_errOk, Eo. }
    destruct (parseNumber Digit p1) as [[n e] q] eqn:Eo.
    inv H. eapply parseNumber_errOk, Eo.
Qed.

Lemma Parse_consumedTo Digit p on err p' :
  Parse Digit p = Some (on, err, p') -> consumedTo p p'.
Proof.
  unfold Parse. intros H.
  destruct (parseValue _ _ _) as [[[on0 e] q]|] eqn:E; [|discriminate].
  apply parseValue_errOk in E. destruct E as [R _].
  destruct e; inv H; [exact R|].
  eapply consumedTo_trans; [exact R | apply skipWhitespace_consumedTo].
Qed.

(** X3: an error of [Parse] is one of nine: one of the three messages for
    the end of the input, and then the parser has stopped at the end of
    the input, or one of the six messages with a position, and then the
    line and column in the message are those of the state the parser has
    stopped in, which are the line and column of its rune offset in the
    input. *)
Theorem Parse_error_position Digit input on e p' :
  Parse Digit (NewParser input) = Some (on, Some e, p') ->
  knownError e p'
  /\ (pos p' <= List.length (runesOf input))%nat
  /\ cursor p' = posAt (runesOf input) (pos p').
Proof.
  intros H.
  pose proof (Parse_consumedTo _ _ _ _ _ H) as R.
  pose proof (consumedTo_tracked _ _ R (NewParser_tracked input))
    as (Hwf & Hle & Hc).
  destruct R as [k ->].
  pose proof (advance_reach k (NewParser input)) as [Hr Hl _ _ _ _].
  change (runes (NewParser input)) with (runesOf input) in Hr.
  rewrite Hr in Hc. rewrite Hl in Hle. simpl in Hle.
  split; [|split; assumption].
  unfold Parse in H.
  destruct (parseValue _ _ _) as [[[on0 e0] q]|] eqn:E; [|discriminate].
  apply parseValue_errOk in E. destruct E as [_ He].
  destruct e0 as [e0|]; inv H. apply He. reflexivity.
Qed.

Lemma Parse_error_position_witness :
  exists on e p',
    Parse latinDigit (NewParser invalidBoolean) = Some (on, Some e, p')
    /\ knownError e p' /\ e = "invalid boolean at line 1 col 9"
    /\ cursor p' = posAt (runesOf invalidBoolean) 8.
Proof.
  evaluate (Parse latinDigit (NewParser invalidBoolean)) E.
  destruct (Parse_error_position _ _ _ _ _ E) as (Hk & _ & Hc).
  eexists; eexists; eexists. split; [exact E|].
  split; [exact Hk|]. split; [reflexivity | exact Hc].
Defined.

(* ================================================================== *)
(** ** Debug context: no call fails *)

(** X4: [DebugContext] never indexes outside the lines of the source,
    whatever the node and the two numbers are, negative or large enough
    to wrap around included: what it emits is a run of consecutive lines
    of the source, each with its own number and text, with the carets
    among them. *)
Theorem DebugContext_safe n linesBefore linesAfter :
  Z.of_nat (List.length (splitLines (Source n))) <= max_int ->
  exists emits lo hi,
    DebugContextEmits n linesBefore linesAfter = Some emits
    /\ DebugContext n linesBefore linesAfter
       = Some (String.concat EmptyString (map render emits))
    /\ 0 <= lo /\ hi < Z.of_nat (List.length (splitLines (Source n)))
    /\ filter isEmitLine emits = map (sourceLine n) (zrange lo hi)
    /\ forall i, In i (zrange lo hi) ->
         nth_error (splitLines (Source n)) (Z.to_nat i)
         = Some (nth (Z.to_nat i) (splitLines (Source n)) EmptyString).
Proof.
  intros Hm. unfold DebugContext, DebugContextEmits. cbv zeta.
  pose proof (splitLines_length (Source n)) as Hl.
  set (count := Z.of_nat (List.length (splitLines (Source n)))) in *.
  set (start0 := int_sub (int_sub (StartLine n) 1) linesBefore).
  set (end0 := int_add (int_sub (EndLine n) 1) linesAfter).
  set (lo := if start0 <? 0 then 0 else start0).
  set (hi := if end0 >=? count then int_sub count 1 else end0).
  assert (Hlo : 0 <= lo).
  { unfold lo. destruct (start0 <? 0) eqn:E; [lia | apply Z.ltb_ge in E; lia]. }
  assert (Hhi : hi < count).
  { unfold hi. destruct (end0 >=? count) eqn:E.
    - unfold int_sub. rewrite wrap_small; [lia|].
      unfold inInt, min_int, int_bits.
      change (- 2 ^ (64 - 1)) with (-9223372036854775808). lia.
    - rewrite Z.geb_leb in E. apply Z.leb_gt in E. lia. }
  assert (Hin : forall i, In i (zrange lo hi) -> 0 <= i < count).
  { unfold zrange. intros i Hi. apply in_map_iff in Hi.
    destruct Hi as (k & <- & Hk). apply in_seq in Hk. lia. }
  assert (Hnth : forall i, In i (zrange lo hi) ->
            nth_error (splitLines (Source n)) (Z.to_nat i)
            = Some (nth (Z.to_nat i) (splitLines (Source n)) EmptyString)).
  { intros i Hi. apply Hin in Hi. apply nth_error_nth'. unfold count in Hi. lia. }
  destruct (Z.to_nat (hi - lo + 1)) as [|c] eqn:Ec.
  - exists [], lo, hi. simpl. unfold zrange. rewrite Ec. simpl.
    repeat split; auto. unfold zrange in Hnth. rewrite Ec in Hnth. exact Hnth.
  - rewrite contextLoop_inside by (fold count; lia).
    eexists; exists lo, hi. split; [reflexivity|]. split; [reflexivity|].
    split; [exact Hlo|]. split; [exact Hhi|]. split; [|exact Hnth].
    rewrite app_nil_l, flat_map_lines. unfold zrange. rewrite Ec. reflexivity.
Qed.

Lemma DebugContext_safe_witness :
  exists n p' emits,
    Parse latinDigit (NewParser nestedDocument) = Some (Some n, None, p')
    /\ DebugContextEmits n (-7) max_int = Some emits.
Proof.
  evaluate (Parse latinDigit (NewParser nestedDocument)) E.
  match type of E with _ = Some (Some ?n, _, ?q) =>
    destruct (DebugContext_safe n (-7) max_int) as (emits & lo & hi & He & _);
      [vm_compute; discriminate | exists n, q, emits; split; [exact E | exact He]]
  end.
Defined.

(* ================================================================== *)
(** ** Words: [true], [false], [null] *)

Lemma codeOf_byteOf z : codeOf (byteOf z) = z mod 256.
Proof.
  unfold codeOf, byteOf.
  assert (H : 0 <= z mod 256 < 256) by (apply Z.mod_pos_bound; lia).
  rewrite N_ascii_embedding by lia. apply Z2N.id. lia.
Qed.

Lemma byteOf_codeOf a : byteOf (codeOf a) = a.
Proof.
  unfold byteOf, codeOf.
  pose proof (N_ascii_bounded a) as Hb.
  rewrite Z.mod_small by lia. rewrite N2Z.id. apply ascii_N_embedding.
Qed.

Lemma high_bit_mod z : Z.testbit z 7 = true -> 128 <= z mod 256.
Proof.
  intros H.
  assert (Hm : 0 <= z mod 256 < 256) by (apply Z.mod_pos_bound; lia).
  destruct (Z_lt_le_dec (z mod 256) 128) as [Hlt|]; [|assumption].
  exfalso.
  assert (Hb : Z.testbit (z mod 2 ^ 8) 7 = true)
    by (rewrite Z.mod_pow2_bits_low by lia; exact H).
  change (2 ^ 8) with 256 in Hb.
  rewrite <- (Z.mod_small (z mod 256) (2 ^ 7)) in Hb by (change (2 ^ 7) with 128; lia).
  rewrite Z.mod_pow2_bits_high in Hb by lia. discriminate.
Qed.

Lemma lor_high_bit a x : Z.testbit a 7 = true -> 128 <= codeOf (byteOf (Z.lor a x)).
Proof.
  intros H. rewrite codeOf_byteOf. apply high_bit_mod.
  rewrite Z.lor_spec, H. reflexivity.
Qed.

(** The encoding of a rune below 128 is the rune as one byte; every other
    encoding starts with a byte from 128 on. *)
Lemma encodeRune_head r :
  (0 <= r <= 127 /\ encodeRune r = String (byteOf r) EmptyString)
  \/ (~ 0 <= r <= 127
      /\ exists b s, encodeRune r = String b s /\ 128 <= codeOf b).
Proof.
  unfold encodeRune.
  destruct ((r <? 0) || (MaxRune <? r) || ((55296 <=? r) && (r <=? 57343))) eqn:Ebad.
  - right. split.
    + rewrite !orb_true_iff, andb_true_iff in Ebad.
      rewrite !Z.ltb_lt, !Z.leb_le in Ebad. unfold MaxRune in Ebad. lia.
    + eexists; eexists. split; [vm_compute; reflexivity | vm_compute; discriminate].
  - rewrite !orb_false_iff in Ebad. destruct Ebad as [[H0 _] _].
    apply Z.ltb_ge in H0.
    destruct (r <=? 127) eqn:E1.
    { left. apply Z.leb_le in E1. split; [lia | reflexivity]. }
    apply Z.leb_gt in E1. right. split; [lia|].
    destruct (r <=? 2047); [|destruct (r <=? 65535)];
      (eexists; eexists; split; [reflexivity | apply lor_high_bit; reflexivity]).
Qed.

Lemma prefix_runes w : forall l,
  asciiWord w ->
  (String.prefix w (stringOfRunes l) = true
   <-> exists rest, l = (asciiRunes w ++ rest)%list).
Proof.
  induction w as [|a w IH]; intros l Hw.
  - simpl. destruct (stringOfRunes l); split; eauto.
  - destruct Hw as [Ha Hw]. destruct l as [|r l].
    { simpl. split; [discriminate | intros [rest H]; discriminate]. }
    cbn [stringOfRunes asciiRunes bytesOf].
    destruct (encodeRune_head r) as [[Hr ->] | (Hr & b & s & -> & Hb)];
      cbn [append String.prefix].
    + destruct (ascii_dec a (byteOf r)) as [-> | Hne].
      * rewrite (IH l Hw). fold (codeOf (byteOf r)).
        rewrite codeOf_byteOf, Z.mod_small by lia.
        split; intros [rest H]; exists rest.
        -- simpl. rewrite H. reflexivity.
        -- simpl in H. injection H as H. exact H.
      * split; [discriminate|]. intros [rest H]. simpl in H.
        injection H as Hr' _. exfalso. apply Hne.
        fold (codeOf a) in Hr'. rewrite Hr'. symmetry. apply byteOf_codeOf.
    + destruct (ascii_dec a b) as [-> | Hne]; [lia|].
      split; [discriminate|]. intros [rest H]. simpl in H.
      injection H as Hr' _. fold (codeOf a) in Hr'.
      exfalso. apply Hr. pose proof (N_ascii_bounded a). unfold codeOf in *. lia.
Qed.

Lemma remaining_runes p : wf p -> remaining p = stringOfRunes (skipn (pos p) (runes p)).
Proof.
  unfold remaining, wf. intros Hwf.
  destruct (length p <=? pos p)%nat eqn:E; [|reflexivity].
  apply Nat.leb_le in E. rewrite skipn_all2 by lia. reflexivity.
Qed.

Lemma HasPrefix_runes p w :
  wf p -> asciiWord w ->
  (HasPrefix (remaining p) w = true
   <-> exists rest, skipn (pos p) (runes p) = (asciiRunes w ++ rest)%list).
Proof.
  intros Hwf Hw. unfold HasPrefix. rewrite (remaining_runes p Hwf).
  apply prefix_runes. exact Hw.
Qed.

Lemma HasPrefix_runes_false p w :
  wf p -> asciiWord w ->
  (forall rest, skipn (pos p) (runes p) <> (asciiRunes w ++ rest)%list) ->
  HasPrefix (remaining p) w = false.
Proof.
  intros Hwf Hw Hno. destruct (HasPrefix (remaining p) w) eqn:E; [|reflexivity].
  apply (HasPrefix_runes p w Hwf Hw) in E. destruct E as [rest E].
  exfalso. exact (Hno rest E).
Qed.

Lemma true_not_false rest rest' :
  (asciiRunes "true" ++ rest)%list <> (asciiRunes "false" ++ rest')%list.
Proof. discriminate. Qed.

(** X5: [parseBoolean] decides on the runes in front of the cursor: when
    they start with the four runes of [true] or the five of [false] it
    consumes exactly these and returns a Boolean node with that word as
    its literal, whatever follows the word; in every other case it
    consumes nothing and fails with [invalid boolean] at the line and
    column of the cursor. *)
Theorem parseBoolean_word p :
  wf p ->
  (forall w rest,
      w = "true" \/ w = "false" ->
      skipn (pos p) (runes p) = (asciiRunes w ++ rest)%list ->
      exists n,
        parseBoolean p = (n, None, advance (String.length w) p)
        /\ Type_ n = NodeBoolean /\ Value n = w /\ Children n = []
        /\ startPos n = cursor p
        /\ endPos n = cursor (advance (String.length w) p)
        /\ pos (advance (String.length w) p) = (pos p + String.length w)%nat
        /\ skipn (pos (advance (String.length w) p)) (runes p) = rest)
  /\ ((forall rest, skipn (pos p) (runes p) <> (asciiRunes "true" ++ rest)%list) ->
      (forall rest, skipn (pos p) (runes p) <> (asciiRunes "false" ++ rest)%list) ->
      parseBoolean p
      = (newNode NodeBoolean p, Some (errAt "invalid boolean" p), p)).
Proof.
  intros Hwf. split.
  - intros w rest Hw Hs.
    assert (Hadv : pos (advance (String.length w) p) = (pos p + String.length w)%nat
                   /\ skipn (pos (advance (String.length w) p)) (runes p) = rest).
    { destruct (advance_skipn (asciiRunes w) p rest Hwf Hs) as (_ & H2 & H3).
      assert (Hlen : List.length (asciiRunes w) = String.length w)
        by (destruct Hw as [-> | ->]; reflexivity).
      rewrite Hlen in H2, H3.
      rewrite (reach_runes _ _ (advance_reach _ p)) in H2. split; assumption. }
    unfold parseBoolean. destruct Hw as [-> | ->].
    + assert (E : HasPrefix (remaining p) "true" = true)
        by (apply (HasPrefix_runes p "true" Hwf); [simpl; repeat split; reflexivity | eauto]).
      rewrite E. eexists. split; [reflexivity|].
      repeat (split; [reflexivity|]). exact Hadv.
    + assert (E : HasPrefix (remaining p) "true" = false).
      { apply (HasPrefix_runes_false p "true" Hwf); [simpl; repeat split; reflexivity|].
        intros r. rewrite Hs. intros H. symmetry in H. exact (true_not_false _ _ H). }
      assert (E' : HasPrefix (remaining p) "false" = true)
        by (apply (HasPrefix_runes p "false" Hwf); [simpl; repeat split; reflexivity | eauto]).
      rewrite E, E'. eexists. split; [reflexivity|].
      repeat (split; [reflexivity|]). exact Hadv.
  - intros Ht Hf. unfold parseBoolean.
    rewrite (HasPrefix_runes_false p "true" Hwf), (HasPrefix_runes_false p "false" Hwf);
      try assumption; try reflexivity; simpl; repeat split; reflexivity.
Qed.

Lemma parseBoolean_word_witness :
  exists n,
    parseBoolean (NewParser "truex") = (n, None, advance 4 (NewParser "truex"))
    /\ Value n = "true"
    /\ skipn (pos (advance 4 (NewParser "truex"))) (runes (NewParser "truex"))
       = [runeOf "x"].
Proof.
  destruct (proj1 (parseBoolean_word (NewParser "truex") (NewParser_wf _))
              "true" [runeOf "x"] (or_introl eq_refl) eq_refl)
    as (n & Hr & _ & Hv & _ & _ & _ & _ & Hs).
  exists n. split; [exact Hr|]. split; [exact Hv | exact Hs].
Defined.

(** X6: [parseNull] decides on the runes in front of the cursor: when they
    start with the four runes of [null] it consumes exactly these and
    returns a Null node with the literal [null], whatever follows; in
    every other case it consumes nothing and fails with [invalid null] at
    the line and column of the cursor. *)
Theorem parseNull_word p :
  wf p ->
  (forall rest,
      skipn (pos p) (runes p) = (asciiRunes "null" ++ rest)%list ->
      exists n,
        parseNull p = (n, None, advance 4 p)
        /\ Type_ n = NodeNull /\ Value n = "null" /\ Children n = []
        /\ startPos n = cursor p
        /\ endPos n = cursor (advance 4 p)
        /\ pos (advance 4 p) = (pos p + 4)%nat
        /\ skipn (pos (advance 4 p)) (runes p) = rest)
  /\ ((forall rest, skipn (pos p) (runes p) <> (asciiRunes "null" ++ rest)%list) ->
      parseNull p = (newNode NodeNull p, Some (errAt "invalid null" p), p)).
Proof.
  intros Hwf. split.
  - intros rest Hs.
    destruct (advance_skipn (asciiRunes "null") p rest Hwf Hs) as (_ & H2 & H3).
    change (List.length (asciiRunes "null")) with 4%nat in H2, H3.
    rewrite (reach_runes _ _ (advance_reach _ p)) in H2.
    unfold parseNull.
    assert (E : HasPrefix (remaining p) "null" = true)
      by (apply (HasPrefix_runes p "null" Hwf); [simpl; repeat split; reflexivity | eauto]).
    rewrite E. eexists. split; [reflexivity|].
    repeat (split; [reflexivity|]). split; assumption.
  - intros Hn. unfold parseNull.
    rewrite (HasPrefix_runes_false p "null" Hwf); try assumption; try reflexivity.
    simpl; repeat split; reflexivity.
Qed.

Lemma parseNull_word_witness :
  parseNull (NewParser "nul")
  = (newNode NodeNull (NewParser "nul"), Some "invalid null at line 1 col 1",
     NewParser "nul").
Proof.
  apply (proj2 (parseNull_word (NewParser "nul") (NewParser_wf _))).
  intros rest. discriminate.
Defined.

(* ================================================================== *)
(** ** Slices of the input *)

Lemma slice_nil (rs : list rune) i : slice rs i i = [].
Proof. unfold slice. rewrite Nat.sub_diag. reflexivity. Qed.

Lemma firstn_plus (A : Type) a : forall b (l : list A),
  firstn (a + b) l = (firstn a l ++ firstn b (skipn a l))%list.
Proof.
  induction a as [|a IH]; intros b l; [reflexivity|].
  destruct l as [|x l]; simpl.
  - rewrite firstn_nil. reflexivity.
  - rewrite IH. reflexivity.
Qed.

Lemma slice_app (rs : list rune) i j k :
  (i <= j <= k)%nat -> slice rs i k = (slice rs i j ++ slice rs j k)%list.
Proof.
  intros H. unfold slice.
  replace (k - i)%nat with ((j - i) + (k - j))%nat by lia.
  rewrite firstn_plus, skipn_skipn.
  replace (j - i + i)%nat with j by lia. reflexivity.
Qed.

Lemma slice_prefix (rs : list rune) i l1 l2 :
  skipn i rs = (l1 ++ l2)%list -> slice rs i (i + List.length l1) = l1.
Proof.
  intros H. unfold slice.
  replace (i + List.length l1 - i)%nat with (List.length l1 + 0)%nat by lia.
  rewrite H, firstn_app_2. simpl. apply app_nil_r.
Qed.

Lemma skipn_cons_nth (rs : list rune) i :
  (i < List.length rs)%nat -> skipn i rs = nth i rs 0 :: skipn (S i) rs.
Proof.
  revert i. induction rs as [|c rs IH]; intros i Hi; simpl in Hi; [lia|].
  destruct i as [|i]; [reflexivity|].
  simpl. apply IH. lia.
Qed.

Lemma Forall_slice_app (P : rune -> Prop) (rs : list rune) i j k :
  (i <= j <= k)%nat ->
  Forall P (slice rs i j) -> Forall P (slice rs j k) -> Forall P (slice rs i k).
Proof.
  intros H H1 H2. rewrite (slice_app rs i j k H). apply Forall_app. split; assumption.
Qed.

Lemma separated_lt rs a sep b : separated rs a sep b -> (a < b)%nat.
Proof. intros (c & Hc & _). lia. Qed.

Lemma separated_extend rs a sep b b' :
  separated rs a sep b -> (b <= b')%nat ->
  Forall spaceRune (slice rs b b') -> separated rs a sep b'.
Proof.
  intros (c & Hc & H1 & H2 & H3) Hb Hw. exists c.
  split; [lia|]. split; [exact H1|]. split; [exact H2|].
  apply (Forall_slice_app _ rs (S c) b b'); [lia | assumption | assumption].
Qed.

Lemma chained_snoc rs spans : forall e s,
  chained rs e spans ->
  separated rs (lastEnd e spans) (runeOf ",") (fst s) -> (fst s <= snd s)%nat ->
  chained rs e (spans ++ [s]).
Proof.
  induction spans as [|x spans IH]; intros e s Hc Hs Hle; simpl in *.
  - repeat split; assumption.
  - destruct Hc as (H1 & H2 & H3). repeat split; auto.
Qed.

Lemma lastEnd_snoc spans : forall e s, lastEnd e (spans ++ [s]) = snd s.
Proof.
  induction spans as [|x spans IH]; intros e s; simpl; [reflexivity | apply IH].
Qed.

Lemma chained_bounds rs spans : forall e s,
  chained rs e spans -> In s spans ->
  (e < fst s /\ fst s <= snd s /\ snd s <= lastEnd e spans)%nat.
Proof.
  induction spans as [|x spans IH]; intros e s Hc Hin; [destruct Hin|].
  simpl in Hc. destruct Hc as (H1 & H2 & H3).
  assert (Hmono : forall l a, chained rs a l -> (a <= lastEnd a l)%nat).
  { clear. induction l as [|y l IHl]; intros a Hc; simpl; [lia|].
    destruct Hc as (H1 & H2 & H3). apply separated_lt in H1.
    specialize (IHl _ H3). lia. }
  apply separated_lt in H1. simpl.
  destruct Hin as [<- | Hin].
  - specialize (Hmono _ _ H3). lia.
  - specialize (IH _ _ H3 Hin). lia.
Qed.

Lemma chained_mono rs spans : forall e,
  chained rs e spans -> (e <= lastEnd e spans)%nat.
Proof.
  induction spans as [|y l IHl]; intros a Hc; simpl; [lia|].
  destruct Hc as (H1 & H2 & H3). apply separated_lt in H1.
  specialize (IHl _ H3). lia.
Qed.

(* ================================================================== *)
(** ** Layout of a parsed tree over the input *)

Section LayoutPass.

Variable Digit : list (Z * Z * Z).
Variable input : string.

Lemma NewParser_onInput : onInput input (NewParser input).
Proof. split; [reflexivity|]. split; [reflexivity | apply NewParser_tracked]. Qed.

Lemma onInput_facts p :
  onInput input p ->
  wf p /\ runes p = runesOf input
  /\ (pos p <= List.length (runesOf input))%nat
  /\ cursor p = posAt (runesOf input) (pos p).
Proof.
  intros (Hr & _ & Hwf & Hle & Hc). unfold wf in *. rewrite Hr in *.
  repeat split; try assumption. lia.
Qed.

Lemma onInput_advance k p : onInput input p -> onInput input (advance k p).
Proof.
  intros (Hr & Hs & Ht). pose proof (advance_reach k p) as [Hr' _ Hs' _ _ _].
  split; [congruence|]. split; [congruence|]. apply advance_tracked, Ht.
Qed.

Lemma onInput_consumeChar p :
  onInput input p -> isEOF p = false ->
  onInput input (consumeChar p) /\ pos (consumeChar p) = S (pos p)
  /\ nth (pos p) (runesOf input) 0 = peekChar p
  /\ (pos p < List.length (runesOf input))%nat.
Proof.
  intros H E. pose proof (onInput_facts p H) as (Hwf & Hr & _).
  split; [apply (onInput_advance 1 p H)|].
  split; [apply consumeChar_pos, E|].
  split; [rewrite (peekChar_nth p E), Hr; reflexivity|].
  apply isEOF_false in E. unfold wf in Hwf. rewrite Hwf, Hr in E. exact E.
Qed.

Lemma onInput_skipWhitespace p :
  onInput input p ->
  onInput input (skipWhitespace p) /\ (pos p <= pos (skipWhitespace p))%nat
  /\ Forall spaceRune (slice (runesOf input) (pos p) (pos (skipWhitespace p))).
Proof.
  intros H. pose proof (onInput_facts p H) as (Hwf & Hr & _).
  destruct (space_prefix_exists (skipn (pos p) (runes p)))
    as (ws & rest & Hs & Hw & Hrest).
  rewrite (skipWhitespace_prefix p ws rest Hwf Hs Hw Hrest).
  destruct (advance_skipn ws p rest Hwf Hs) as (_ & _ & H3).
  split; [apply onInput_advance, H|]. rewrite H3. split; [lia|].
  rewrite Hr in Hs. rewrite (slice_prefix _ _ _ _ Hs). exact Hw.
Qed.

Lemma placed_between t p p' n :
  onInput input p -> onInput input p' -> (pos p <= pos p')%nat ->
  sameShape (newNode t p) n -> endPos n = cursor p' ->
  placed input n t (pos p) (pos p').
Proof.
  intros H H' Hle [Ht _ Hs Hsrc] He.
  pose proof (onInput_facts p H) as (_ & _ & _ & Hc).
  pose proof (onInput_facts p' H') as (_ & _ & Hb' & Hc').
  destruct H as (_ & Hsource & _).
  split; [lia|]. split; [exact Ht|]. split; [rewrite Hsrc; exact Hsource|].
  split; [rewrite Hs; exact Hc | rewrite He; exact Hc'].
Qed.

Lemma parseNumber_lay p n err p' :
  onInput input p -> parseNumber Digit p = (n, err, p') ->
  err = None /\ onInput input p' /\ (pos p <= pos p')%nat
  /\ Layout Digit input AsValue n (pos p) (pos p').
Proof.
  intros H Hp. pose proof (onInput_facts p H) as (Hwf & Hr & _).
  pose proof (parseNumber_ok _ _ _ _ _ Hp) as (_ & Hshape & -> & Hend).
  destruct (number_prefix_exists Digit (skipn (pos p) (runes p)))
    as (prefix & rest & Hs & Hpre & Hrest).
  unfold parseNumber in Hp.
  rewrite (numberLoop_prefix Digit prefix _ _ _ rest Hwf Hs Hpre Hrest) in Hp.
  2:{ apply (f_equal (@List.length rune)) in Hs.
      rewrite length_skipn, length_app in Hs. unfold wf in Hwf. lia. }
  destruct (advance_skipn prefix p rest Hwf Hs) as (_ & _ & H3).
  inv Hp. rewrite Hr in Hs.
  pose proof (slice_prefix _ _ _ _ Hs) as Hsl. rewrite <- H3 in Hsl.
  pose proof (onInput_advance (List.length prefix) p H) as H'.
  split; [reflexivity|]. split; [exact H'|]. split; [lia|].
  apply Lay_number.
  - apply (placed_between NodeNumber p _ _ H H'); [lia | exact Hshape | exact Hend].
  - reflexivity.
  - rewrite Hsl. exact Hpre.
  - rewrite Hsl. simpl. reflexivity.
Qed.

Lemma word_slice p w rest :
  onInput input p ->
  skipn (pos p) (runes p) = (asciiRunes w ++ rest)%list ->
  let p' := advance (List.length (asciiRunes w)) p in
  onInput input p' /\ (pos p <= pos p')%nat
  /\ slice (runesOf input) (pos p) (pos p') = asciiRunes w.
Proof.
  intros H Hs p'. pose proof (onInput_facts p H) as (Hwf & Hr & _).
  destruct (advance_skipn (asciiRunes w) p rest Hwf Hs) as (_ & _ & H3).
  fold p' in H3. split; [apply onInput_advance, H|]. split; [lia|].
  rewrite Hr in Hs. rewrite H3. apply (slice_prefix _ _ _ _ Hs).
Qed.

Lemma parseBoolean_lay p n p' :
  onInput input p -> parseBoolean p = (n, None, p') ->
  onInput input p' /\ Layout Digit input AsValue n (pos p) (pos p').
Proof.
  intros H Hp. pose proof (onInput_facts p H) as (Hwf & _).
  pose proof (parseBoolean_ok _ _ _ _ Hp) as (_ & Hshape & Hend).
  specialize (Hend eq_refl).
  unfold parseBoolean in Hp.
  destruct (HasPrefix (remaining p) "true") eqn:Et.
  - apply (HasPrefix_runes p "true" Hwf) in Et; [|simpl; repeat split; reflexivity].
    destruct Et as [rest Hs].
    destruct (word_slice p "true" rest H Hs) as (H' & Hle & Hsl).
    inv Hp. split; [exact H'|].
    apply (Lay_boolean _ _ _ _ _ "true"); auto.
    apply (placed_between NodeBoolean p _ _ H H' Hle Hshape Hend).
  - destruct (HasPrefix (remaining p) "false") eqn:Ef; [|discriminate].
    apply (HasPrefix_runes p "false" Hwf) in Ef; [|simpl; repeat split; reflexivity].
    destruct Ef as [rest Hs].
    destruct (word_slice p "false" rest H Hs) as (H' & Hle & Hsl).
    inv Hp. split; [exact H'|].
    apply (Lay_boolean _ _ _ _ _ "false"); auto.
    apply (placed_between NodeBoolean p _ _ H H' Hle Hshape Hend).
Qed.

Lemma parseNull_lay p n p' :
  onInput input p -> parseNull p = (n, None, p') ->
  onInput input p' /\ Layout Digit input AsValue n (pos p) (pos p').
Proof.
  intros H Hp. pose proof (onInput_facts p H) as (Hwf & _).
  pose proof (parseNull_ok _ _ _ _ Hp) as (_ & Hshape & Hend).
  specialize (Hend eq_refl).
  unfold parseNull in Hp.
  destruct (HasPrefix (remaining p) "null") eqn:Et; [|discriminate].
  apply (HasPrefix_runes p "null" Hwf) in Et; [|simpl; repeat split; reflexivity].
  destruct Et as [rest Hs].
  destruct (word_slice p "null" rest H Hs) as (H' & Hle & Hsl).
  inv Hp. split; [exact H'|].
  apply Lay_null; auto.
  apply (placed_between NodeNull p _ _ H H' Hle Hshape Hend).
Qed.

(** A string that [parseString] accepts: its opening quote, the items of
    its body, its closing quote. *)
Lemma parseString_lay p n p' :
  onInput input p -> peekChar p = rQuote ->
  parseString p = Some (n, None, p') ->
  onInput input p' /\ (pos p < pos p')%nat
  /\ placed input n NodeString (pos p) (pos p') /\ Children n = []
  /\ exists items,
       slice (runesOf input) (pos p) (pos p')
       = (rQuote :: bodyRunes items ++ [rQuote])%list
       /\ Forall itemOk items /\ Value n = bodyLit items.
Proof.
  intros H Hq Hp. pose proof (onInput_facts p H) as (Hwf & Hr & _).
  assert (E : isEOF p = false)
    by (apply peekChar_nonzero; rewrite Hq; discriminate).
  pose proof (parseString_ok _ _ _ _ Hp) as (_ & Hshape & Hend).
  specialize (Hend eq_refl).
  destruct (body_decomposition (skipn (S (pos p)) (runes p)))
    as (items & Hok & Hcases).
  assert (Htail : exists tail,
             skipn (S (pos p)) (runes p) = (bodyRunes items ++ tail)%list
             /\ (tail = [] \/ tail = [rBackslash] \/ exists rest, tail = rQuote :: rest)).
  { destruct Hcases as [Hc | [Hc | (rest & Hc)]].
    - exists []. rewrite app_nil_r. auto.
    - exists [rBackslash]. auto.
    - exists (rQuote :: rest). eauto. }
  destruct Htail as (tail & Hs & Htail).
  destruct (parseString_items p items tail Hwf Hq Hs Hok)
    as (Hwf' & Hs' & Hp' & fuel' & Hrun).
  set (q := advance (S (List.length (bodyRunes items))) p) in *.
  rewrite Hp in Hrun. destruct fuel' as [|fuel']; [discriminate|].
  simpl in Hrun.
  destruct Htail as [-> | [-> | (rest & ->)]].
  - rewrite (skipn_nil_eof _ Hwf' Hs') in Hrun. discriminate.
  - destruct (peekChar_skipn _ _ _ Hwf' Hs') as [Eq Hc].
    rewrite Eq, Hc in Hrun.
    change (rBackslash =? rQuote) with false in Hrun.
    rewrite Z.eqb_refl in Hrun.
    rewrite (skipn_nil_eof _ (consumeChar_wf _ Hwf')
               (consumeChar_skipn _ _ _ Hwf' Hs')) in Hrun.
    discriminate.
  - destruct (peekChar_skipn _ _ _ Hwf' Hs') as [Eq Hc].
    rewrite Eq, Hc, Z.eqb_refl in Hrun. inv Hrun.
    assert (Hq' : onInput input (consumeChar q)).
    { change (consumeChar q) with (advance 1 q). apply onInput_advance.
      apply onInput_advance, H. }
    assert (Hpos : pos (consumeChar q)
                   = (pos p + List.length (rQuote :: bodyRunes items ++ [rQuote]))%nat).
    { rewrite (consumeChar_pos _ Eq), Hp'. simpl. rewrite length_app. simpl. lia. }
    split; [exact Hq'|]. split; [rewrite Hpos; simpl; lia|].
    split; [apply (placed_between NodeString p _ _ H Hq'); [lia | exact Hshape | reflexivity]|].
    split; [reflexivity|].
    exists items. split; [|split; [exact Hok | reflexivity]].
    rewrite Hpos. apply (slice_prefix _ _ _ rest).
    rewrite <- Hr, (skipn_cons_nth (runes p) (pos p)), Hs.
    + rewrite <- (peekChar_nth p E), Hq. simpl. rewrite <- app_assoc. reflexivity.
    + apply isEOF_false in E. unfold wf in Hwf. lia.
Qed.

Lemma Layout_value_le n i j :
  Layout Digit input AsValue n i j ->
  (i <= j <= List.length (runesOf input))%nat.
Proof.
  intros H. inversion H; subst;
    match goal with Hp : placed _ _ _ _ _ |- _ => apply Hp end.
Qed.

Lemma Layout_le role n i j :
  Layout Digit input role n i j ->
  (i <= j <= List.length (runesOf input))%nat.
Proof.
  intros H. destruct role; [apply (Layout_value_le _ _ _ H)|].
  inversion H as [| | | | ? ? j0 ? v iv ? Hp _ _ _ _ Hsep Hv | |]; subst.
  apply Layout_value_le in Hv. apply separated_lt in Hsep.
  destruct Hp as (Hp & _). lia.
Qed.

Lemma placed_withChildren n t i j cs :
  placed input n t i j -> placed input (withChildren n cs) t i j.
Proof. intros H. exact H. Qed.

Lemma filling_child t role n i0 p ch iv jv :
  filling Digit input t role n i0 p ->
  (pos p <= iv)%nat ->
  Forall spaceRune (slice (runesOf input) (pos p) iv) ->
  Layout Digit input role ch iv jv ->
  filled Digit input t role (withChildren n (Children n ++ [ch])%list) i0 jv.
Proof.
  intros (Ht & Hsrc & Hv & Hs & Hlt & Hcases) Hle Hw Hl.
  pose proof (Layout_le _ _ _ _ Hl) as Hij.
  repeat (split; [assumption|]).
  destruct Hcases as [[Hnil Hw0] | (s & spans & Hb & Hw0 & Hch & Hall & Hsep)].
  - exists (iv, jv), []. simpl. rewrite Hnil. simpl.
    split; [lia|].
    split; [apply (Forall_slice_app _ _ (S i0) (pos p) iv); [lia | assumption | assumption]|].
    split; [exact I|]. split; [|reflexivity].
    constructor; [exact Hl | constructor].
  - exists s, (spans ++ [(iv, jv)])%list.
    split; [exact Hb|]. split; [exact Hw0|].
    split; [apply chained_snoc; [exact Hch | | simpl; lia];
            simpl; eapply separated_extend; eassumption|].
    split; [|apply lastEnd_snoc].
    change (s :: spans ++ [(iv, jv)])%list with ((s :: spans) ++ [(iv, jv)])%list.
    simpl Children. apply Forall2_app; [exact Hall|].
    constructor; [exact Hl | constructor].
Qed.

Lemma filled_close t role o c n i0 e p :
  Bracket t role o c -> nth i0 (runesOf input) 0 = o ->
  filled Digit input t role n i0 e ->
  onInput input p -> (e <= pos p)%nat ->
  Forall spaceRune (slice (runesOf input) e (pos p)) ->
  (peekChar p =? c) = true -> (c =? 0) = false ->
  onInput input (consumeChar p)
  /\ Layout Digit input AsValue
       (withEnd n (line (consumeChar p)) (col (consumeChar p)))
       i0 (pos (consumeChar p)).
Proof.
  intros Hb Ho (Ht & Hsrc & Hv & Hs & s & spans & Hb1 & Hw0 & Hch & Hall & He)
         H Hle Hw Hpeek Hc.
  pose proof (peekChar_is p c Hc Hpeek) as E.
  destruct (onInput_consumeChar p H E) as (H' & Hpos & Hnth & Hlen).
  pose proof (onInput_facts _ H') as (_ & _ & Hb' & Hcur).
  pose proof (chained_mono _ _ _ Hch) as Hmono.
  split; [exact H'|].
  apply Z.eqb_eq in Hpeek.
  apply (Lay_items Digit input _ i0 _ t role o c s spans); try assumption.
  - split; [lia|]. split; [exact Ht|]. split; [exact Hsrc|].
    split; [exact Hs | exact Hcur].
  - rewrite He, Hpos. lia.
  - rewrite He, Hpos. replace (S (pos p) - 1)%nat with (pos p) by lia. exact Hw.
  - rewrite Hpos. replace (S (pos p) - 1)%nat with (pos p) by lia. congruence.
Qed.

Lemma filled_continue t role n i0 e p :
  filled Digit input t role n i0 e ->
  separated (runesOf input) e (runeOf ",") (pos p) ->
  filling Digit input t role n i0 p.
Proof.
  intros (Ht & Hsrc & Hv & Hs & s & spans & Hb1 & Hw0 & Hch & Hall & He) Hsep.
  pose proof (chained_mono _ _ _ Hch) as Hmono.
  pose proof (separated_lt _ _ _ _ Hsep) as Hlt.
  repeat (split; [assumption|]). split; [lia|].
  right. exists s, spans. rewrite He. repeat (split; [assumption|]). exact Hsep.
Qed.

(** After the last child, white space and then a comma or the closing
    bracket. *)
Lemma filled_step t role o c n i0 p :
  Bracket t role o c -> nth i0 (runesOf input) 0 = o ->
  onInput input p ->
  filled Digit input t role n i0 (pos p) ->
  let q := skipWhitespace p in
  ((peekChar q =? c) = true ->
   onInput input (consumeChar q)
   /\ Layout Digit input AsValue
        (withEnd n (line (consumeChar q)) (col (consumeChar q)))
        i0 (pos (consumeChar q)))
  /\ ((peekChar q =? runeOf ",") = true ->
      onInput input (consumeChar q)
      /\ separated (runesOf input) (pos p) (runeOf ",") (pos (consumeChar q))).
Proof.
  intros Hb Ho H Hf q.
  destruct (onInput_skipWhitespace p H) as (Hq & Hle & Hw). fold q in Hq, Hle, Hw.
  split.
  - intros Hpeek. apply (filled_close t role o c n i0 (pos p) q); try assumption.
    destruct Hb; reflexivity.
  - intros Hpeek.
    pose proof (peekChar_is q (runeOf ",") eq_refl Hpeek) as E.
    destruct (onInput_consumeChar q Hq E) as (H' & Hpos & Hnth & Hlen).
    split; [exact H'|]. exists (pos q).
    split; [lia|]. split; [exact Hw|].
    split; [rewrite Hnth; apply Z.eqb_eq; exact Hpeek|].
    rewrite Hpos, slice_nil. constructor.
Qed.

Section GrammarLayout.

Variable pv : Parser -> option (option Node * option string * Parser).
Hypothesis pv_lay :
  forall p r, onInput input p -> pv p = Some r -> valueLay Digit input p r.

Lemma objectIter_lay n i0 p :
  nth i0 (runesOf input) 0 = runeOf "{" ->
  onInput input p -> filling Digit input NodeObject AsKey n i0 p ->
  stepLay Digit input NodeObject AsKey n i0 (objectIter pv n p).
Proof.
  intros Ho H Hfill. unfold objectIter.
  destruct (onInput_skipWhitespace p H) as (H1 & L1 & W1).
  set (p1 := skipWhitespace p) in *.
  destruct (peekChar p1 =? rQuote) eqn:Eq; simpl; [|exact I].
  destruct (parseString p1) as [[[k0 [e|]] p2]|] eqn:Es; simpl; try exact I.
  apply Z.eqb_eq in Eq.
  destruct (parseString_lay p1 k0 p2 H1 Eq Es)
    as (H2 & L2 & Pk & Ck & items & Sk & Ik & Vk).
  destruct (onInput_skipWhitespace p2 H2) as (H3 & L3 & W3).
  set (p3 := skipWhitespace p2) in *.
  destruct (peekChar p3 =? runeOf ":") eqn:Ec; simpl; [|exact I].
  destruct (onInput_consumeChar p3 H3 (peekChar_is p3 (runeOf ":") eq_refl Ec))
    as (H4 & P4 & N4 & _).
  set (p4 := consumeChar p3) in *.
  destruct (pv p4) as [[[ov [e|]] p5]|] eqn:Ev; simpl; try exact I.
  destruct (pv_lay p4 _ H4 Ev eq_refl) as (v & iv & -> & H5 & Liv & Wv & Lv).
  simpl.
  pose proof (Layout_value_le _ _ _ Lv) as Hv.
  assert (Lkey : Layout Digit input AsKey (withChildren k0 [v]) (pos p1) (pos p5)).
  { apply (Lay_key Digit input _ (pos p1) (pos p2) items v iv (pos p5));
      try assumption; try reflexivity.
    exists (pos p3). split; [lia|]. split; [exact W3|].
    split; [rewrite N4; apply Z.eqb_eq; exact Ec|].
    rewrite <- P4. exact Wv. }
  pose proof (filling_child _ _ _ _ _ _ _ _ Hfill L1 W1 Lkey) as Hfilled.
  set (n1 := withChildren n (Children n ++ [withChildren k0 [v]])%list) in *.
  destruct (filled_step NodeObject AsKey _ _ n1 i0 p5 Bracket_object Ho H5 Hfilled)
    as [Hclose Hnext].
  destruct (peekChar (skipWhitespace p5) =? runeOf "}") eqn:Eb; simpl.
  { apply Hclose. reflexivity. }
  destruct (peekChar (skipWhitespace p5) =? runeOf ",") eqn:Em; simpl; [|exact I].
  destruct (Hnext eq_refl) as [H7 Hsep].
  split; [exact H7|]. apply (filled_continue _ _ _ _ _ _ Hfilled Hsep).
Qed.

Lemma arrayIter_lay n i0 p :
  nth i0 (runesOf input) 0 = runeOf "[" ->
  onInput input p -> filling Digit input NodeArray AsValue n i0 p ->
  stepLay Digit input NodeArray AsValue n i0 (arrayIter pv n p).
Proof.
  intros Ho H Hfill. unfold arrayIter.
  destruct (pv p) as [[[ov [e|]] p1]|] eqn:Ev; simpl; try exact I.
  destruct (pv_lay p _ H Ev eq_refl) as (v & iv & -> & H1 & Liv & Wv & Lv).
  simpl.
  pose proof (filling_child _ _ _ _ _ _ _ _ Hfill Liv Wv Lv) as Hfilled.
  set (n1 := withChildren n (Children n ++ [v])%list) in *.
  destruct (filled_step NodeArray AsValue _ _ n1 i0 p1 Bracket_array Ho H1 Hfilled)
    as [Hclose Hnext].
  destruct (peekChar (skipWhitespace p1) =? runeOf "]") eqn:Eb; simpl.
  { apply Hclose. reflexivity. }
  destruct (peekChar (skipWhitespace p1) =? runeOf ",") eqn:Em; simpl; [|exact I].
  destruct (Hnext eq_refl) as [H3 Hsep].
  destruct (onInput_skipWhitespace _ H3) as (H4 & L4 & W4).
  split; [exact H4|].
  apply (filled_continue _ _ _ _ _ _ Hfilled).
  eapply separated_extend; eassumption.
Qed.

Lemma objectLoop_lay fuel : forall n i0 p n' p',
  nth i0 (runesOf input) 0 = runeOf "{" ->
  onInput input p -> filling Digit input NodeObject AsKey n i0 p ->
  objectLoop pv fuel n p = Some (n', None, p') ->
  onInput input p' /\ Layout Digit input AsValue n' i0 (pos p').
Proof.
  induction fuel as [|fuel IH]; intros n i0 p n' p' Ho H Hfill Hr; simpl in Hr.
  - discriminate.
  - pose proof (objectIter_lay n i0 p Ho H Hfill) as Hs.
    destruct (objectIter pv n p) as [m e q|m q|]; simpl in Hs.
    + inv Hr. exact Hs.
    + destruct Hs as [Hq Hf]. exact (IH _ _ _ _ _ Ho Hq Hf Hr).
    + discriminate.
Qed.

Lemma arrayLoop_lay fuel : forall n i0 p n' p',
  nth i0 (runesOf input) 0 = runeOf "[" ->
  onInput input p -> filling Digit input NodeArray AsValue n i0 p ->
  arrayLoop pv fuel n p = Some (n', None, p') ->
  onInput input p' /\ Layout Digit input AsValue n' i0 (pos p').
Proof.
  induction fuel as [|fuel IH]; intros n i0 p n' p' Ho H Hfill Hr; simpl in Hr.
  - discriminate.
  - pose proof (arrayIter_lay n i0 p Ho H Hfill) as Hs.
    destruct (arrayIter pv n p) as [m e q|m q|]; simpl in Hs.
    + inv Hr. exact Hs.
    + destruct Hs as [Hq Hf]. exact (IH _ _ _ _ _ Ho Hq Hf Hr).
    + discriminate.
Qed.

(** The start of a composite: the bracket, then white space. *)
Lemma bracket_open t role o c p :
  Bracket t role o c -> onInput input p -> (peekChar p =? o) = true ->
  let n := withChildren (newNode t p) [] in
  let q := skipWhitespace (consumeChar p) in
  nth (pos p) (runesOf input) 0 = o
  /\ onInput input q
  /\ filling Digit input t role n (pos p) q
  /\ ((peekChar q =? c) = true ->
      onInput input (consumeChar q)
      /\ Layout Digit input AsValue
           (withEnd n (line (consumeChar q)) (col (consumeChar q)))
           (pos p) (pos (consumeChar q))).
Proof.
  intros Hb H Hpeek n q.
  assert (Ho0 : (o =? 0) = false) by (destruct Hb; reflexivity).
  assert (Hc0 : (c =? 0) = false) by (destruct Hb; reflexivity).
  destruct (onInput_consumeChar p H (peekChar_is p o Ho0 Hpeek))
    as (H1 & P1 & N1 & _).
  destruct (onInput_skipWhitespace _ H1) as (H2 & L2 & W2). fold q in H2, L2, W2.
  pose proof (onInput_facts p H) as (_ & _ & _ & Hcur).
  apply Z.eqb_eq in Hpeek.
  assert (Hsrc : Source n = input) by (destruct H as (_ & Hs & _); exact Hs).
  split; [congruence|]. split; [exact H2|]. split.
  - split; [reflexivity|]. split; [exact Hsrc|]. split; [reflexivity|].
    split; [exact Hcur|]. split; [lia|].
    left. split; [reflexivity|]. rewrite <- P1. exact W2.
  - intros Hclose.
    destruct (onInput_consumeChar q H2 (peekChar_is q c Hc0 Hclose))
      as (H3 & P3 & N3 & _).
    pose proof (onInput_facts _ H3) as (_ & _ & Hb3 & Hcur3).
    split; [exact H3|].
    apply (Lay_empty Digit input _ (pos p) _ t role o c); try assumption;
      try reflexivity.
    + split; [lia|]. split; [reflexivity|]. split; [exact Hsrc|].
      split; [exact Hcur | exact Hcur3].
    + congruence.
    + lia.
    + rewrite P3. replace (S (pos q) - 1)%nat with (pos q) by lia.
      rewrite <- P1. exact W2.
    + rewrite P3. replace (S (pos q) - 1)%nat with (pos q) by lia.
      rewrite N3. apply Z.eqb_eq. exact Hclose.
Qed.

Lemma parseObject_lay fuel p n p' :
  onInput input p -> (peekChar p =? runeOf "{") = true ->
  parseObject pv fuel p = Some (n, None, p') ->
  onInput input p' /\ Layout Digit input AsValue n (pos p) (pos p').
Proof.
  intros H Hpeek Hr. unfold parseObject in Hr.
  destruct (bracket_open _ _ _ _ p Bracket_object H Hpeek)
    as (Ho & Hq & Hfill & Hclose).
  destruct (peekChar _ =? runeOf "}").
  - inv Hr. apply Hclose. reflexivity.
  - exact (objectLoop_lay _ _ _ _ _ _ Ho Hq Hfill Hr).
Qed.

Lemma parseArray_lay fuel p n p' :
  onInput input p -> (peekChar p =? runeOf "[") = true ->
  parseArray pv fuel p = Some (n, None, p') ->
  onInput input p' /\ Layout Digit input AsValue n (pos p) (pos p').
Proof.
  intros H Hpeek Hr. unfold parseArray in Hr.
  destruct (bracket_open _ _ _ _ p Bracket_array H Hpeek)
    as (Ho & Hq & Hfill & Hclose).
  destruct (peekChar _ =? runeOf "]").
  - inv Hr. apply Hclose. reflexivity.
  - exact (arrayLoop_lay _ _ _ _ _ _ Ho Hq Hfill Hr).
Qed.

End GrammarLayout.

Lemma parseValue_lay fuel : forall p r,
  onInput input p -> parseValue Digit fuel p = Some r ->
  valueLay Digit input p r.
Proof.
  induction fuel as [|fuel IH]; intros p r H Hr; simpl in Hr.
  - discriminate.
  - destruct (onInput_skipWhitespace p H) as (H1 & L1 & W1).
    set (p1 := skipWhitespace p) in *.
    destruct (isEOF p1); [inv Hr; discriminate|].
    assert (Hwrap : forall n err p',
               (err = None ->
                onInput input p' /\ Layout Digit input AsValue n (pos p1) (pos p')) ->
               valueLay Digit input p (Some n, err, p')).
    { intros n err p' Hn He. destruct (Hn He) as [Hq Hl].
      exists n, (pos p1). split; [reflexivity|]. split; [exact Hq|].
      split; [exact L1|]. split; [exact W1 | exact Hl]. }
    destruct (peekChar p1 =? runeOf "{") eqn:Eo.
    { destruct (parseObject _ fuel p1) as [[[n e] q]|] eqn:E; [|discriminate].
      inv Hr. apply Hwrap. intros ->.
      exact (parseObject_lay _ IH fuel p1 n q H1 Eo E). }
    destruct (peekChar p1 =? runeOf "[") eqn:Ea.
    { destruct (parseArray _ fuel p1) as [[[n e] q]|] eqn:E; [|discriminate].
      inv Hr. apply Hwrap. intros ->.
      exact (parseArray_lay _ IH fuel p1 n q H1 Ea E). }
    destruct (peekChar p1 =? rQuote) eqn:Eq.
    { destruct (parseString p1) as [[[n e] q]|] eqn:E; [|discriminate].
      inv Hr. apply Hwrap. intros ->. apply Z.eqb_eq in Eq.
      destruct (parseString_lay p1 n q H1 Eq E)
        as (Hq & _ & Hp & Hc & items & Hs & Hi & Hv).
      split; [exact Hq|]. exact (Lay_string Digit input _ _ _ items Hp Hc Hs Hi Hv). }
    destruct (_ || _).
    { destruct (parseBoolean p1) as [[n e] q] eqn:E.
      inv Hr. apply Hwrap. intros ->. exact (parseBoolean_lay p1 n q H1 E). }
    destruct (peekChar p1 =? runeOf "n").
    { destruct (parseNull p1) as [[n e] q] eqn:E.
      inv Hr. apply Hwrap. intros ->. exact (parseNull_lay p1 n q H1 E). }
    destruct (parseNumber Digit p1) as [[n e] q] eqn:E.
    inv Hr. apply Hwrap. intros _.
    destruct (parseNumber_lay p1 n e q H1 E) as (_ & Hq & _ & Hl).
    split; assumption.
Qed.

End LayoutPass.

Lemma Forall2_In_left (A B : Type) (R : A -> B -> Prop) l1 l2 x :
  Forall2 R l1 l2 -> In x l1 -> exists y, In y l2 /\ R x y.
Proof.
  induction 1 as [|a b l1 l2 Hab _ IH]; intros Hin; [destruct Hin|].
  destruct Hin as [<- | Hin].
  - exists b. split; [left; reflexivity | exact Hab].
  - destruct (IH Hin) as (y & Hy & Hr). exists y. split; [right; exact Hy | exact Hr].
Qed.

(** The spans of the children of a composite lie between its brackets. *)
Lemma items_bounds rs i0 s spans sp :
  (S i0 <= fst s <= snd s)%nat -> chained rs (snd s) spans ->
  In sp (s :: spans) ->
  (S i0 <= fst sp /\ fst sp <= snd sp /\ snd sp <= lastEnd (snd s) spans)%nat.
Proof.
  intros Hs Hc [<- | Hin].
  - pose proof (chained_mono _ _ _ Hc). lia.
  - pose proof (chained_bounds _ _ _ _ Hc Hin). lia.
Qed.

(** Every node of a laid out tree is laid out, inside the span of the
    root. *)
Lemma Layout_sub Digit input m n :
  InTree m n ->
  forall role i j, Layout Digit input role n i j ->
  exists role' i' j',
    Layout Digit input role' m i' j' /\ (i <= i' /\ j' <= j)%nat.
Proof.
  induction 1 as [|c n Hin _ IH]; intros role i j Hl.
  - exists role, i, j. split; [exact Hl | lia].
  - inversion Hl as
      [ ? ? ? _ Hc | ? ? ? ? _ Hc | ? ? ? _ Hc | ? ? ? ? _ Hc
      | ? ? j0 ? v iv ? Hp _ _ _ Hc Hsep Hv
      | ? ? ? ? ? ? ? _ _ _ Hc
      | ? ? ? ? role0 ? ? s spans _ Hp _ _ Hs _ Hch Hall Hlast ]; subst;
      try solve [rewrite Hc in Hin; destruct Hin].
    + rewrite Hc in Hin. destruct Hin as [<- | []].
      destruct (IH _ _ _ Hv) as (r' & i' & j' & Hl' & Hb).
      exists r', i', j'. split; [exact Hl'|].
      apply separated_lt in Hsep. destruct Hp as (Hp & _). lia.
    + destruct (Forall2_In_left _ _ _ _ _ _ Hall Hin) as (sp & Hsp & Hlc).
      destruct (IH _ _ _ Hlc) as (r' & i' & j' & Hl' & Hb).
      exists r', i', j'. split; [exact Hl'|].
      pose proof (items_bounds _ _ _ _ _ Hs Hch Hsp). lia.
Qed.

(** A successful [Parse]: white space, the text of the root, and the white
    space that [Parse] skips behind it. *)
Lemma Parse_layout Digit input root p' :
  Parse Digit (NewParser input) = Some (Some root, None, p') ->
  exists i j,
    Forall spaceRune (slice (runesOf input) 0 i)
    /\ Layout Digit input AsValue root i j
    /\ (j <= pos p' <= List.length (runesOf input))%nat
    /\ Forall spaceRune (slice (runesOf input) j (pos p')).
Proof.
  unfold Parse. intros H.
  destruct (parseValue _ _ _) as [[[on e] q]|] eqn:E; [|discriminate].
  destruct e as [e|]; [discriminate|]. inv H.
  destruct (parseValue_lay Digit input _ _ _ (NewParser_onInput input) E eq_refl)
    as (n & i & Hn & Hq & Hi & Hw & Hl).
  inv Hn.
  destruct (onInput_skipWhitespace input q Hq) as (Hq' & Hle & Hw').
  pose proof (onInput_facts input _ Hq') as (_ & _ & Hb & _).
  exists i, (pos q). split; [exact Hw|]. split; [exact Hl|].
  split; [lia | exact Hw'].
Qed.

Lemma tree_layout Digit input root p' m :
  Parse Digit (NewParser input) = Some (Some root, None, p') ->
  InTree m root ->
  exists role i j, Layout Digit input role m i j.
Proof.
  intros H Hin. destruct (Parse_layout _ _ _ _ H) as (i & j & _ & Hl & _).
  destruct (Layout_sub _ _ _ _ Hin _ _ _ Hl) as (r & i' & j' & Hl' & _).
  eauto.
Qed.

Lemma Layout_placed Digit input role n i j :
  Layout Digit input role n i j ->
  exists j', placed input n (Type_ n) i j' /\ (j' <= j)%nat.
Proof.
  intros H.
  inversion H as
      [ ? ? ? Hp | ? ? ? ? Hp | ? ? ? Hp | ? ? ? ? Hp
      | ? ? j0 ? v iv ? Hp _ _ _ _ Hsep Hv
      | ? ? ? ? ? ? ? _ Hp | ? ? ? ? ? ? ? ? ? _ Hp ]; subst;
    try (exists j; split; [|lia];
         pose proof Hp as (_ & Ht & _); rewrite Ht; exact Hp).
  exists j0. split.
  - pose proof Hp as (_ & Ht & _). rewrite Ht. exact Hp.
  - apply separated_lt in Hsep. apply Layout_value_le in Hv. lia.
Qed.

Lemma posAt_ge_1 rs i : 1 <= fst (posAt rs i) /\ 1 <= snd (posAt rs i).
Proof. unfold posAt, lineOf, colOf. cbn [fst snd]. lia. Qed.

(** X7: every node of a tree that [Parse] returns without an error
    carries the whole input as its source, and its span is a true one:
    its start and its end are the line and column of two rune offsets of
    the input, the first not behind the second, and so all four numbers
    are at least 1. *)
Theorem node_positions Digit input root p' m :
  Parse Digit (NewParser input) = Some (Some root, None, p') ->
  InTree m root ->
  Source m = input
  /\ (exists i j,
        (i <= j <= List.length (runesOf input))%nat
        /\ startPos m = posAt (runesOf input) i
        /\ endPos m = posAt (runesOf input) j)
  /\ 1 <= StartLine m /\ 1 <= StartCol m /\ 1 <= EndLine m /\ 1 <= EndCol m.
Proof.
  intros H Hin. destruct (tree_layout _ _ _ _ _ H Hin) as (role & i & j & Hl).
  destruct (Layout_placed _ _ _ _ _ _ Hl) as (j' & (Hb & _ & Hsrc & Hs & He) & _).
  split; [exact Hsrc|]. split; [exists i, j'; repeat split; assumption || lia|].
  pose proof (posAt_ge_1 (runesOf input) i) as [H1 H2].
  pose proof (posAt_ge_1 (runesOf input) j') as [H3 H4].
  rewrite <- Hs in H1, H2. rewrite <- He in H3, H4.
  repeat split; assumption.
Qed.

Lemma node_positions_witness :
  exists root p',
    Parse latinDigit (NewParser nestedDocument) = Some (Some root, None, p')
    /\ Source root = nestedDocument /\ 1 <= StartLine root /\ 1 <= EndCol root.
Proof.
  evaluate (Parse latinDigit (NewParser nestedDocument)) E.
  destruct (node_positions _ _ _ _ _ E (InTree_root _))
    as (Hs & _ & H1 & _ & _ & H4).
  eexists; eexists. split; [exact E|]. split; [exact Hs|]. split; assumption.
Defined.

Lemma Layout_value_placed Digit input n i j :
  Layout Digit input AsValue n i j -> placed input n (Type_ n) i j.
Proof.
  intros H. inversion H; subst;
    match goal with
    | Hp : placed _ _ _ _ _ |- _ =>
      pose proof Hp as (_ & Ht & _); rewrite Ht; exact Hp
    end.
Qed.

Lemma stringOfRunes_word w :
  w = "true" \/ w = "false" \/ w = "null" -> stringOfRunes (asciiRunes w) = w.
Proof. intros [-> | [-> | ->]]; reflexivity. Qed.

Lemma Layout_textOf Digit input role n i j :
  Layout Digit input role n i j ->
  exists j', (i <= j' <= j)%nat /\ placed input n (Type_ n) i j'
             /\ textOf Digit (runesOf input) n i j'.
Proof.
  intros H. unfold textOf.
  destruct H as
      [ n i j Hp Hc Hf Hv | n i j w Hp Hc Hw Hs Hv | n i j Hp Hc Hs Hv
      | n i j items Hp Hc Hs Hi Hv
      | n i j items v iv jv Hp Hs Hi Hv Hc Hsep Hlv
      | n i j t r o c Hb Hp Hv Hc Ho Hlt Hw Hcl
      | n i j t r o c s spans Hb Hp Hv Ho Hs Hw Hch Hall Hlast Hw' Hcl ];
    pose proof Hp as (Hij & Ht & _).
  - exists j. rewrite Ht. split; [lia|]. split; [exact Hp|].
    split; assumption.
  - exists j. rewrite Ht. split; [lia|]. split; [exact Hp|].
    split; [rewrite Hv; exact Hw|]. rewrite Hs, Hv. symmetry.
    apply stringOfRunes_word. tauto.
  - exists j. rewrite Ht. split; [lia|]. split; [exact Hp|].
    split; [exact Hv|]. rewrite Hs. exact Hv.
  - exists j. rewrite Ht. split; [lia|]. split; [exact Hp|].
    exists items. repeat split; assumption.
  - exists j. rewrite Ht. apply separated_lt in Hsep.
    apply Layout_value_le in Hlv.
    split; [lia|]. split; [exact Hp|].
    exists items. repeat split; assumption.
  - exists j. rewrite Ht. split; [lia|]. split; [exact Hp|].
    destruct Hb; (split; [exact Hv|]; split; [lia|]; split; assumption).
  - exists j. rewrite Ht. split; [lia|]. split; [exact Hp|].
    pose proof (chained_mono _ _ _ Hch).
    destruct Hb; (split; [exact Hv|]; split; [lia|]; split; assumption).
Qed.

(** X8: the literal of every node of a tree returned without an error is
    the text of its span: for the two rune offsets that its start and end
    are the positions of, a Number, a Boolean and a Null node hold the
    runes between them as they are (made of sign, point and digit runes;
    [true] or [false]; [null]), a String node holds the runes between its
    two quotes with the escaping backslashes left out, and an Array or
    Object node holds nothing, its span running from [[] to []]
    or from [{] to [}]. *)
Theorem node_literal Digit input root p' m :
  Parse Digit (NewParser input) = Some (Some root, None, p') ->
  InTree m root ->
  exists i j,
    (i <= j <= List.length (runesOf input))%nat
    /\ startPos m = posAt (runesOf input) i
    /\ endPos m = posAt (runesOf input) j
    /\ textOf Digit (runesOf input) m i j.
Proof.
  intros H Hin. destruct (tree_layout _ _ _ _ _ H Hin) as (role & i & j & Hl).
  destruct (Layout_textOf _ _ _ _ _ _ Hl) as (j' & _ & (Hb & _ & _ & Hs & He) & Ht).
  exists i, j'. repeat split; try assumption; lia.
Qed.

Lemma node_literal_witness :
  exists root p' i j,
    Parse latinDigit (NewParser "  -12.5,") = Some (Some root, None, p')
    /\ startPos root = posAt (runesOf "  -12.5,") i
    /\ textOf latinDigit (runesOf "  -12.5,") root i j
    /\ Value root = "-12.5".
Proof.
  evaluate (Parse latinDigit (NewParser "  -12.5,")) E.
  destruct (node_literal _ _ _ _ _ E (InTree_root _))
    as (i & j & _ & Hs & _ & Ht).
  eexists; eexists; exists i, j. split; [exact E|].
  split; [exact Hs|]. split; [exact Ht | reflexivity].
Defined.

(* ================================================================== *)
(** ** Shape of a parsed tree *)

Lemma Layout_value_leaf Digit input v i j :
  Layout Digit input AsValue v i j -> leafValue v.
Proof.
  intros H Ht. inversion H; subst; try assumption;
    match goal with
    | Hp : placed _ _ _ _ _ |- _ => destruct Hp as (_ & Hp & _)
    end;
    try congruence;
    match goal with
    | Hb : Bracket _ _ _ _ |- _ => destruct Hb; congruence
    end.
Qed.

Lemma Layout_key_shape Digit input k i j :
  Layout Digit input AsKey k i j -> keyShape k.
Proof.
  intros H. inversion H; subst.
  match goal with
  | Hp : placed _ _ _ _ _, Hc : Children _ = [?v],
    Hv : Layout _ _ AsValue ?v _ _ |- _ =>
    destruct Hp as (_ & Hp & _); split; [exact Hp|];
    exists v; split; [exact Hc | exact (Layout_value_leaf _ _ _ _ _ Hv)]
  end.
Qed.

Lemma Forall2_Forall_left (A B : Type) (R : A -> B -> Prop) (P : A -> Prop) l1 l2 :
  (forall x y, R x y -> P x) -> Forall2 R l1 l2 -> Forall P l1.
Proof. intros HP H. induction H; constructor; eauto. Qed.

Lemma Layout_shape Digit input role n i j :
  Layout Digit input role n i j -> shapeOk n.
Proof.
  intros H. unfold shapeOk.
  destruct H as
      [ n i j Hp Hc Hf Hv | n i j w Hp Hc Hw Hs Hv | n i j Hp Hc Hs Hv
      | n i j items Hp Hc Hs Hi Hv
      | n i j items v iv jv Hp Hs Hi Hv Hc Hsep Hlv
      | n i j t r o c Hb Hp Hv Hc Ho Hlt Hw Hcl
      | n i j t r o c s spans Hb Hp Hv Ho Hs Hw Hch Hall Hlast Hw' Hcl ];
    pose proof Hp as (_ & Ht & _); rewrite Ht; try assumption.
  - left. exact Hc.
  - right. split; [exact Ht|]. exists v. split; [exact Hc|].
    exact (Layout_value_leaf _ _ _ _ _ Hlv).
  - destruct Hb; rewrite Hc; constructor.
  - destruct Hb.
    + eapply Forall2_Forall_left; [|exact Hall].
      intros x y Hxy. exact (Layout_value_leaf _ _ _ _ _ Hxy).
    + eapply Forall2_Forall_left; [|exact Hall].
      intros x y Hxy. exact (Layout_key_shape _ _ _ _ _ Hxy).
Qed.

(** X9: in a tree returned without an error every node has a kind other
    than Unknown and the children of its kind: a Number, Boolean or Null
    node has none; an Array has values; every child of an Object is a
    String node, the key, with exactly one child, the value; and a String
    node has a child only when it is such a key, so a string that stands
    as a value, the root included, has none. *)
Theorem node_shape Digit input root p' :
  Parse Digit (NewParser input) = Some (Some root, None, p') ->
  leafValue root /\ forall m, InTree m root -> shapeOk m.
Proof.
  intros H. split.
  - destruct (Parse_layout _ _ _ _ H) as (i & j & _ & Hl & _).
    exact (Layout_value_leaf _ _ _ _ _ Hl).
  - intros m Hin.
    destruct (tree_layout _ _ _ _ _ H Hin) as (role & i & j & Hl).
    exact (Layout_shape _ _ _ _ _ _ Hl).
Qed.

Lemma node_shape_witness :
  exists root p',
    Parse latinDigit (NewParser nestedDocument) = Some (Some root, None, p')
    /\ Forall keyShape (Children root).
Proof.
  evaluate (Parse latinDigit (NewParser nestedDocument)) E.
  eexists; eexists. split; [exact E|].
  exact (proj2 (node_shape _ _ _ _ E) _ (InTree_root _)).
Defined.

(* ================================================================== *)
(** ** Order of the positions *)

Lemma posAt_step rs i :
  (i < List.length rs)%nat -> posLt (posAt rs i) (posAt rs (S i)).
Proof.
  intros Hi. unfold posAt, posLt. cbn [fst snd].
  rewrite (firstn_succ_nth rs i Hi), lineOf_snoc, colOf_snoc.
  destruct (_ =? rNewline); lia.
Qed.

Lemma posAt_le rs i j :
  (i <= j <= List.length rs)%nat -> posLe (posAt rs i) (posAt rs j).
Proof.
  intros [Hij Hj]. induction Hij as [|j Hij IH].
  - apply posLe_refl.
  - eapply posLe_trans; [apply IH; lia|]. apply posLt_le, posAt_step. lia.
Qed.

Lemma posAt_lt rs i j :
  (i < j <= List.length rs)%nat -> posLt (posAt rs i) (posAt rs j).
Proof.
  intros [Hij Hj]. eapply posLt_le_trans; [apply (posAt_step rs i); lia|].
  apply posAt_le. lia.
Qed.

Lemma chained_consecutive rs pre : forall e a b post,
  chained rs e (pre ++ a :: b :: post) -> (snd a < fst b)%nat.
Proof.
  induction pre as [|x pre IH]; intros e a b post H; simpl in H.
  - destruct H as (_ & _ & H & _). exact (separated_lt _ _ _ _ H).
  - destruct H as (_ & _ & H). exact (IH _ _ _ _ H).
Qed.

Lemma items_consecutive rs s spans pre a b post :
  chained rs (snd s) spans ->
  (s :: spans = pre ++ a :: b :: post)%list -> (snd a < fst b)%nat.
Proof.
  intros Hc He. destruct pre as [|x pre]; simpl in He; injection He as -> ->.
  - simpl in Hc. destruct Hc as (H & _). exact (separated_lt _ _ _ _ H).
  - exact (chained_consecutive _ _ _ _ _ _ Hc).
Qed.

(** The children of a composite: each between the brackets, each behind
    the one in front of it. *)
Lemma items_children Digit input r i j s spans cs :
  (S i <= fst s <= snd s)%nat -> chained (runesOf input) (snd s) spans ->
  Forall2 (fun ch sp => Layout Digit input r ch (fst sp) (snd sp)) cs (s :: spans) ->
  (lastEnd (snd s) spans < j)%nat ->
  (forall c, In c cs ->
     exists ic jc, Layout Digit input r c ic jc /\ (i < ic /\ ic <= jc /\ jc < j)%nat)
  /\ (forall l1 c1 c2 l2, cs = (l1 ++ c1 :: c2 :: l2)%list ->
        exists i1 j1 i2 j2,
          Layout Digit input r c1 i1 j1 /\ Layout Digit input r c2 i2 j2
          /\ (j1 < i2)%nat).
Proof.
  intros Hs Hch Hall Hlast. split.
  - intros c Hin.
    destruct (Forall2_In_left _ _ _ _ _ _ Hall Hin) as (sp & Hsp & Hl).
    pose proof (items_bounds _ _ _ _ _ Hs Hch Hsp).
    exists (fst sp), (snd sp). split; [exact Hl | lia].
  - intros l1 c1 c2 l2 ->.
    apply Forall2_app_inv_l in Hall.
    destruct Hall as (l1' & l2' & _ & H2 & He).
    inversion H2 as [|? sp1 ? l3 Hl1 H3]; subst.
    inversion H3 as [|? sp2 ? l4 Hl2 _]; subst.
    exists (fst sp1), (snd sp1), (fst sp2), (snd sp2).
    split; [exact Hl1|]. split; [exact Hl2|].
    exact (items_consecutive _ _ _ _ _ _ _ Hch He).
Qed.

Lemma Layout_composite Digit input role m i j :
  Layout Digit input role m i j ->
  Type_ m = NodeArray \/ Type_ m = NodeObject ->
  placed input m (Type_ m) i j
  /\ (Children m = []
      \/ exists r o c s spans,
           Bracket (Type_ m) r o c
           /\ (S i <= fst s <= snd s)%nat
           /\ chained (runesOf input) (snd s) spans
           /\ Forall2 (fun ch sp => Layout Digit input r ch (fst sp) (snd sp))
                      (Children m) (s :: spans)
           /\ (lastEnd (snd s) spans < j)%nat).
Proof.
  intros H Ht.
  destruct H as
      [ n i j Hp Hc Hf Hv | n i j w Hp Hc Hw Hs Hv | n i j Hp Hc Hs Hv
      | n i j items Hp Hc Hs Hi Hv
      | n i j items v iv jv Hp Hs Hi Hv Hc Hsep Hlv
      | n i j t r o c Hb Hp Hv Hc Ho Hlt Hw Hcl
      | n i j t r o c s spans Hb Hp Hv Ho Hs Hw Hch Hall Hlast Hw' Hcl ];
    pose proof Hp as (_ & Hty & _);
    try (rewrite Hty in Ht; destruct Ht; discriminate).
  - rewrite Hty. split; [exact Hp | left; exact Hc].
  - rewrite Hty. split; [exact Hp|]. right.
    exists r, o, c, s, spans. repeat split; try assumption; lia.
Qed.

Lemma slice_nonempty (rs : list rune) i j x l :
  slice rs i j = x :: l -> (i < j)%nat.
Proof.
  unfold slice. intros H. destruct (j - i)%nat eqn:E; [discriminate | lia].
Qed.

Lemma Layout_key_inv Digit input k i j :
  Layout Digit input AsKey k i j ->
  exists jk v iv,
    placed input k NodeString i jk /\ Children k = [v]
    /\ (i < jk /\ jk < iv)%nat /\ Layout Digit input AsValue v iv j.
Proof.
  intros H. inversion H; subst.
  match goal with
  | Hp : placed _ _ _ _ ?jk, Hc : Children _ = [?v],
    Hsl : slice _ _ ?jk = _,
    Hs : separated _ _ _ ?iv, Hv : Layout _ _ AsValue ?v _ _ |- _ =>
    exists jk, v, iv;
    split; [exact Hp|]; split; [exact Hc|];
    split; [split; [exact (slice_nonempty _ _ _ _ _ Hsl)
                   | exact (separated_lt _ _ _ _ Hs)]
           | exact Hv]
  end.
Qed.

(** X10: in a tree returned without an error the elements of an Array lie
    inside it and in the order of the source: each starts behind the start
    of the array and ends in front of its end, and each ends in front of
    the start of the next. *)
Theorem array_children_order Digit input root p' m :
  Parse Digit (NewParser input) = Some (Some root, None, p') ->
  InTree m root -> Type_ m = NodeArray ->
  (forall c, In c (Children m) ->
     posLt (startPos m) (startPos c) /\ posLe (startPos c) (endPos c)
     /\ posLt (endPos c) (endPos m))
  /\ (forall l1 c1 c2 l2, Children m = (l1 ++ c1 :: c2 :: l2)%list ->
        posLt (endPos c1) (startPos c2)).
Proof.
  intros H Hin Ht.
  destruct (tree_layout _ _ _ _ _ H Hin) as (role & i & j & Hl).
  destruct (Layout_composite _ _ _ _ _ _ Hl (or_introl Ht))
    as ((Hij & _ & _ & Hs & He) & Hcs).
  destruct Hcs as [Hnil | (r & o & c & s & spans & Hb & Hsb & Hch & Hall & Hlast)].
  { rewrite Hnil. split; [intros c []|].
    intros l1 c1 c2 l2 Hc. destruct l1; discriminate. }
  rewrite Ht in Hb. inversion Hb; subst.
  destruct (items_children _ _ _ i j _ _ _ Hsb Hch Hall Hlast) as [Hin' Hnext].
  split.
  - intros ch Hch'. destruct (Hin' ch Hch') as (ic & jc & Hlc & Hb').
    destruct (Layout_value_placed _ _ _ _ _ Hlc) as (_ & _ & _ & Hsc & Hec).
    rewrite Hs, He, Hsc, Hec.
    split; [apply posAt_lt; lia|]. split; [apply posAt_le; lia | apply posAt_lt; lia].
  - intros l1 c1 c2 l2 Hc.
    destruct (Hnext _ _ _ _ Hc) as (i1 & j1 & i2 & j2 & L1 & L2 & Hlt).
    destruct (Layout_value_placed _ _ _ _ _ L1) as (_ & _ & _ & _ & He1).
    destruct (Layout_value_placed _ _ _ _ _ L2) as (Hb2 & _ & _ & Hs2 & _).
    rewrite He1, Hs2. apply posAt_lt. lia.
Qed.

Lemma array_children_order_witness :
  exists root p' c1 c2 c3,
    Parse latinDigit (NewParser "[1, 2, 3]") = Some (Some root, None, p')
    /\ Children root = [c1; c2; c3]
    /\ posLt (endPos c1) (startPos c2) /\ posLt (endPos c2) (startPos c3)
    /\ posLt (endPos c3) (endPos root).
Proof.
  evaluate (Parse latinDigit (NewParser "[1, 2, 3]")) E.
  destruct (array_children_order _ _ _ _ _ E (InTree_root _) eq_refl) as [Hin Hnext].
  eexists; eexists; eexists; eexists; eexists.
  split; [exact E|]. split; [reflexivity|].
  split; [exact (Hnext [] _ _ [_] eq_refl)|].
  split; [exact (Hnext [_] _ _ [] eq_refl)|].
  apply Hin. right; right; left; reflexivity.
Defined.

(** X11: in a tree returned without an error the members of an Object lie
    inside it and in the order of the source: each key starts behind the
    start of the object, its value starts behind the end of the key and
    ends in front of the end of the object, and the value of a member ends
    in front of the start of the next key. *)
Theorem object_members_order Digit input root p' m :
  Parse Digit (NewParser input) = Some (Some root, None, p') ->
  InTree m root -> Type_ m = NodeObject ->
  (forall k, In k (Children m) ->
     exists v,
       Children k = [v]
       /\ posLt (startPos m) (startPos k) /\ posLt (startPos k) (endPos k)
       /\ posLt (endPos k) (startPos v) /\ posLe (startPos v) (endPos v)
       /\ posLt (endPos v) (endPos m))
  /\ (forall l1 k1 k2 l2 v1,
        Children m = (l1 ++ k1 :: k2 :: l2)%list -> Children k1 = [v1] ->
        posLt (endPos v1) (startPos k2)).
Proof.
  intros H Hin Ht.
  destruct (tree_layout _ _ _ _ _ H Hin) as (role & i & j & Hl).
  destruct (Layout_composite _ _ _ _ _ _ Hl (or_intror Ht))
    as ((Hij & _ & _ & Hs & He) & Hcs).
  destruct Hcs as [Hnil | (r & o & c & s & spans & Hb & Hsb & Hch & Hall & Hlast)].
  { rewrite Hnil. split; [intros c []|].
    intros l1 c1 c2 l2 v1 Hc. destruct l1; discriminate. }
  rewrite Ht in Hb. inversion Hb; subst.
  destruct (items_children _ _ _ i j _ _ _ Hsb Hch Hall Hlast) as [Hin' Hnext].
  split.
  - intros k Hk. destruct (Hin' k Hk) as (ik & jv & Hlk & Hb').
    destruct (Layout_key_inv _ _ _ _ _ Hlk)
      as (jk & v & iv & (Hkb & _ & _ & Hks & Hke) & Hkc & [Hq Hlt] & Hlv).
    destruct (Layout_value_placed _ _ _ _ _ Hlv) as (Hvb & _ & _ & Hvs & Hve).
    exists v. rewrite Hs, He, Hks, Hke, Hvs, Hve.
    split; [exact Hkc|].
    split; [apply posAt_lt; lia|]. split; [apply posAt_lt; lia|].
    split; [apply posAt_lt; lia|]. split; [apply posAt_le; lia | apply posAt_lt; lia].
  - intros l1 k1 k2 l2 v1 Hc Hc1.
    destruct (Hnext _ _ _ _ Hc) as (i1 & j1 & i2 & j2 & L1 & L2 & Hlt).
    destruct (Layout_key_inv _ _ _ _ _ L1) as (jk1 & v & iv & _ & Hkc & _ & Hlv).
    rewrite Hc1 in Hkc. injection Hkc as <-.
    destruct (Layout_value_placed _ _ _ _ _ Hlv) as (_ & _ & _ & _ & Hve).
    destruct (Layout_key_inv _ _ _ _ _ L2) as (jk2 & v2 & iv2 & (Hkb & _ & _ & Hks & _) & _).
    rewrite Hve, Hks. apply posAt_lt. lia.
Qed.

Lemma object_members_order_witness :
  exists root p' k1 k2 v1,
    Parse latinDigit (NewParser nestedDocument) = Some (Some root, None, p')
    /\ Children root = [k1; k2] /\ Children k1 = [v1]
    /\ posLt (endPos v1) (startPos k2).
Proof.
  evaluate (Parse latinDigit (NewParser nestedDocument)) E.
  destruct (object_members_order _ _ _ _ _ E (InTree_root _) eq_refl) as [_ Hnext].
  eexists; eexists; eexists; eexists; eexists.
  split; [exact E|]. split; [reflexivity|]. split; [reflexivity|].
  exact (Hnext [] _ _ [] _ eq_refl eq_refl).
Defined.

(** X12: a [Parse] without an error has read a text of the grammar: the
    input starts with white space, then comes the text of the root, laid
    out over the runes as [Layout] says (a number, a word, a quoted
    string, or brackets around children that are separated by one comma
    each and by white space, a key being separated from its value by one
    colon and white space), then white space up to the place where the
    parser stops, which is the end of the input or a rune that is not
    white space and that is never read. *)
Theorem Parse_grammar Digit input root p' :
  Parse Digit (NewParser input) = Some (Some root, None, p') ->
  exists i j,
    Forall spaceRune (slice (runesOf input) 0 i)
    /\ Layout Digit input AsValue root i j
    /\ (j <= pos p' <= List.length (runesOf input))%nat
    /\ Forall spaceRune (slice (runesOf input) j (pos p'))
    /\ (isEOF p' = true \/ ~ spaceRune (peekChar p')).
Proof.
  intros H. destruct (Parse_layout _ _ _ _ H) as (i & j & H1 & H2 & H3 & H4).
  exists i, j. repeat (split; [assumption|]).
  unfold Parse in H.
  destruct (parseValue _ _ _) as [[[on e] q]|]; [|discriminate].
  destruct e; inv H.
  destruct (skipWhitespace_stops q) as [He | Hs]; [left; exact He|].
  right. apply isSpace_false. exact Hs.
Qed.

Lemma Parse_grammar_witness :
  exists root p' i j,
    Parse latinDigit (NewParser nestedDocument) = Some (Some root, None, p')
    /\ Layout latinDigit nestedDocument AsValue root i j.
Proof.
  evaluate (Parse latinDigit (NewParser nestedDocument)) E.
  destruct (Parse_grammar _ _ _ _ E) as (i & j & _ & Hl & _).
  eexists; eexists; exists i, j. split; [exact E | exact Hl].
Defined.

(* ================================================================== *)
(** ** Dispatch on the first rune *)

Lemma kindOf_number c :
  kindOf c = NodeNumber ->
  (c =? runeOf "{") = false /\ (c =? runeOf "[") = false
  /\ (c =? rQuote) = false
  /\ ((c =? runeOf "t") || (c =? runeOf "f")) = false
  /\ (c =? runeOf "n") = false.
Proof.
  unfold kindOf.
  destruct (c =? runeOf "{"); [discriminate|].
  destruct (c =? runeOf "["); [discriminate|].
  destruct (c =? rQuote); [discriminate|].
  destruct (_ || _); [discriminate|].
  destruct (c =? runeOf "n"); [discriminate|].
  repeat split.
Qed.

(** The value that starts with the rune under the cursor. *)
Lemma parseValue_dispatch Digit fuel p on err p' :
  isEOF p = false -> ~ spaceRune (peekChar p) -> wf p ->
  parseValue Digit (S fuel) p = Some (on, err, p') ->
  exists n,
    on = Some n /\ Type_ n = kindOf (peekChar p) /\ startPos n = cursor p
    /\ (kindOf (peekChar p) = NodeNumber -> err = None).
Proof.
  intros E Hns Hwf H.
  assert (Hskip : skipWhitespace p = p).
  { destruct (skipn (pos p) (runes p)) as [|c rest] eqn:Hs.
    - apply skipn_nil_eof in Hs; [congruence | exact Hwf].
    - destruct (peekChar_skipn _ _ _ Hwf Hs) as [_ Hc].
      apply (skipWhitespace_prefix p [] (c :: rest) Hwf Hs (Forall_nil _)).
      rewrite <- Hc. exact Hns. }
  cbn [parseValue] in H. rewrite Hskip, E in H.
  assert (Hpv : forall q r, parseValue Digit fuel q = Some r -> valueOk q r)
    by (intros q r; apply parseValue_ok).
  unfold kindOf.
  destruct (peekChar p =? runeOf "{").
  { destruct (parseObject _ fuel p) as [[[n e] q]|] eqn:Eo; [|discriminate].
    inv H. apply (parseObject_ok _ Hpv) in Eo.
    destruct Eo as (_ & Hs & Ht & _). exists n. repeat split; auto. discriminate. }
  destruct (peekChar p =? runeOf "[").
  { destruct (parseArray _ fuel p) as [[[n e] q]|] eqn:Eo; [|discriminate].
    inv H. apply (parseArray_ok _ Hpv) in Eo.
    destruct Eo as (_ & Hs & Ht & _). exists n. repeat split; auto. discriminate. }
  destruct (peekChar p =? rQuote).
  { destruct (parseString p) as [[[n e] q]|] eqn:Eo; [|discriminate].
    inv H. apply parseString_ok in Eo. destruct Eo as (_ & [Ht _ Hs _] & _).
    exists n. repeat split; auto. discriminate. }
  destruct (_ || _).
  { destruct (parseBoolean p) as [[n e] q] eqn:Eo.
    inv H. apply parseBoolean_ok in Eo. destruct Eo as (_ & [Ht _ Hs _] & _).
    exists n. repeat split; auto. discriminate. }
  destruct (peekChar p =? runeOf "n").
  { destruct (parseNull p) as [[n e] q] eqn:Eo.
    inv H. apply parseNull_ok in Eo. destruct Eo as (_ & [Ht _ Hs _] & _).
    exists n. repeat split; auto. discriminate. }
  destruct (parseNumber Digit p) as [[n e] q] eqn:Eo.
  inv H. apply parseNumber_ok in Eo. destruct Eo as (_ & [Ht _ Hs _] & He & _).
  exists n. repeat split; auto.
Qed.

(** X13: [Parse] goes by the first rune that is not white space. When
    there is none, the input being empty or white space only, it returns
    no node and the error [unexpected end of input], and this is the
    only case without a node. Otherwise it returns a node, complete or
    partial, of the kind that this rune stands for, starting at the
    position of this rune; when the rune is none of [{], [[], the quote,
    [t], [f] and [n], the node is a Number and there is no error. *)
Theorem Parse_dispatch Digit input :
  (Forall spaceRune (runesOf input) ->
   exists p',
     Parse Digit (NewParser input)
     = Some (None, Some "unexpected end of input", p')
     /\ pos p' = List.length (runesOf input))
  /\ (forall ws c rest,
        runesOf input = (ws ++ c :: rest)%list ->
        Forall spaceRune ws -> ~ spaceRune c ->
        exists n err p',
          Parse Digit (NewParser input) = Some (Some n, err, p')
          /\ Type_ n = kindOf c
          /\ startPos n = posAt (runesOf input) (List.length ws)
          /\ (kindOf c = NodeNumber -> err = None))
  /\ (forall err p',
        Parse Digit (NewParser input) = Some (None, err, p') ->
        Forall spaceRune (runesOf input)).
Proof.
  set (p0 := NewParser input).
  assert (Hwf : wf p0) by apply NewParser_wf.
  assert (Hfirst : forall ws c rest,
            runesOf input = (ws ++ c :: rest)%list ->
            Forall spaceRune ws -> ~ spaceRune c ->
            exists n err p',
              Parse Digit p0 = Some (Some n, err, p')
              /\ Type_ n = kindOf c
              /\ startPos n = posAt (runesOf input) (List.length ws)
              /\ (kindOf c = NodeNumber -> err = None)).
  { intros ws c rest Hrs Hws Hc.
    assert (Hs : skipn (pos p0) (runes p0) = (ws ++ c :: rest)%list) by exact Hrs.
    pose proof (skipWhitespace_prefix p0 ws (c :: rest) Hwf Hs Hws Hc) as Hskip.
    destruct (advance_skipn ws p0 (c :: rest) Hwf Hs) as (Hwf1 & Hs1 & Hp1).
    pose proof (advance_tracked (List.length ws) _ (NewParser_tracked input))
      as (_ & _ & Hcur).
    fold p0 in Hcur.
    rewrite (reach_runes _ _ (advance_reach (List.length ws) p0)) in Hcur.
    change (runes p0) with (runesOf input) in Hcur.
    rewrite Hp1 in Hcur. change (pos p0) with O in Hcur.
    rewrite Nat.add_0_l in Hcur.
    set (p1 := advance (List.length ws) p0) in *.
    destruct (peekChar_skipn _ _ _ Hwf1 Hs1) as [E1 Hpeek].
    destruct (Parse_total Digit p0) as (on & err & p' & HP).
    pose proof HP as HP'. unfold Parse in HP'.
    destruct (parseValue Digit (S (length p0 - pos p0)) p0)
      as [[[on0 e] q]|] eqn:Ev; [|discriminate].
    assert (Ev1 : parseValue Digit (S (length p0 - pos p0)) p1 = Some (on0, e, q)).
    { cbn [parseValue] in Ev |- *. rewrite Hskip in Ev.
      assert (Hid : skipWhitespace p1 = p1).
      { apply (skipWhitespace_prefix p1 [] (c :: rest) Hwf1 Hs1 (Forall_nil _) Hc). }
      rewrite Hid. exact Ev. }
    rewrite <- Hpeek in Hc.
    destruct (parseValue_dispatch _ _ _ _ _ _ E1 Hc Hwf1 Ev1)
      as (n & -> & Ht & Hst & Hnum).
    rewrite Hpeek in Ht, Hnum. rewrite Hcur in Hst.
    exists n. destruct e as [e|]; inv HP'.
    - exists (Some e), p'. rewrite HP. repeat split; auto.
    - exists None. eexists. rewrite HP. repeat split; auto. }
  split; [|split; [exact Hfirst|]].
  - intros Hall.
    assert (Hs : skipn (pos p0) (runes p0) = (runesOf input ++ [])%list)
      by (rewrite app_nil_r; reflexivity).
    pose proof (skipWhitespace_prefix p0 _ [] Hwf Hs Hall I) as Hskip.
    destruct (advance_skipn _ p0 [] Hwf Hs) as (Hwf1 & Hs1 & Hp1).
    pose proof (skipn_nil_eof _ Hwf1 Hs1) as E1.
    unfold Parse. cbn [parseValue]. fold p0. rewrite Hskip, E1.
    eexists. split; [reflexivity | exact Hp1].
  - intros err p' HP.
    destruct (space_prefix_exists (runesOf input)) as (ws & rest & Hrs & Hws & Hrest).
    destruct rest as [|c rest].
    + rewrite Hrs, app_nil_r. exact Hws.
    + destruct (Hfirst ws c rest Hrs Hws Hrest) as (n & e & q & HP' & _).
      fold p0 in HP. rewrite HP in HP'. discriminate.
Qed.

Lemma Parse_dispatch_witness :
  exists n p',
    Parse latinDigit (NewParser "  xyz") = Some (Some n, None, p')
    /\ Type_ n = NodeNumber
    /\ startPos n = posAt (runesOf "  xyz") 2.
Proof.
  destruct (proj1 (proj2 (Parse_dispatch latinDigit "  xyz"))
              [rSpace; rSpace] (runeOf "x") [runeOf "y"; runeOf "z"] eq_refl)
    as (n & err & p' & HP & Ht & Hs & Hnum).
  { repeat constructor. }
  { intros [H | [H | [H | H]]]; discriminate. }
  exists n, p'. rewrite (Hnum eq_refl) in HP.
  split; [exact HP|]. split; [exact Ht | exact Hs].
Defined.

(* ================================================================== *)
(** ** Lines of the source and lines of the cursor *)

Lemma lor_shift_newline A k B :
  6 <= k -> Z.lor (Z.shiftl A k) B = rNewline -> A = 0 /\ B = rNewline.
Proof.
  intros Hk H.
  assert (HA : A = 0).
  { pose proof (f_equal (fun z => Z.shiftr z 6) H) as H6. cbv beta in H6.
    change (Z.shiftr rNewline 6) with 0 in H6.
    rewrite Z.shiftr_lor, Z.shiftr_shiftl_l in H6 by lia.
    apply Z.lor_eq_0_l in H6. apply Z.shiftl_eq_0_iff in H6; [exact H6 | lia]. }
  split; [exact HA|]. rewrite HA, Z.shiftl_0_l, Z.lor_0_l in H. exact H.
Qed.

Lemma land_mask a n : 0 <= n -> Z.land a (Z.ones n) = a mod 2 ^ n.
Proof. apply Z.land_ones. Qed.

Lemma leadByte_spec s0 sz lo hi :
  leadByte s0 = Some (sz, lo, hi) ->
  (128 <= lo /\ hi <= 191)
  /\ ((sz = 2 /\ 194 <= s0 <= 223)
      \/ (sz = 3 /\ 224 <= s0 <= 239 /\ (s0 = 224 -> lo = 160))
      \/ (sz = 4 /\ 240 <= s0 <= 244 /\ (s0 = 240 -> lo = 144))).
Proof.
  unfold leadByte.
  repeat match goal with
         | |- context [if ?b then _ else _] =>
           let E := fresh "E" in destruct b eqn:E
         end;
    intros H; try discriminate; injection H as <- <- <-;
    repeat match goal with
           | E : (_ <? _) = _ |- _ =>
             first [apply Z.ltb_lt in E | apply Z.ltb_ge in E]
           | E : (_ <=? _) = _ |- _ =>
             first [apply Z.leb_le in E | apply Z.leb_gt in E]
           | E : (_ =? _) = _ |- _ =>
             first [apply Z.eqb_eq in E | apply Z.eqb_neq in E]
           end;
    (split; [lia|]); lia.
Qed.

(** Decoding keeps the line feeds: a byte 10 is a rune 10, and no other
    rune is. *)
Lemma newlines_decodeBytes bs : newlines (decodeBytes bs) = newlines bs.
Proof.
  unfold newlines.
  remember (List.length bs) as k eqn:Hk.
  assert (Hle : (List.length bs <= k)%nat) by lia. clear Hk.
  revert bs Hle. induction k as [|k IH]; intros bs Hle.
  { destruct bs; [reflexivity | simpl in Hle; lia]. }
  destruct bs as [|s0 t0]; [reflexivity|].
  simpl in Hle. cbn [decodeBytes].
  assert (Hcons : forall r l1 l2,
             r <> rNewline -> s0 <> rNewline ->
             count_occ Z.eq_dec l1 rNewline = count_occ Z.eq_dec t0 rNewline ->
             l2 = t0 ->
             count_occ Z.eq_dec (r :: l1) rNewline
             = count_occ Z.eq_dec (s0 :: l2) rNewline).
  { intros r l1 l2 Hr Hs H ->. rewrite !count_occ_cons_neq by assumption. exact H. }
  destruct (s0 <? 128) eqn:E0.
  { cbn [count_occ]. rewrite (IH t0) by lia. reflexivity. }
  apply Z.ltb_ge in E0.
  assert (Hs0 : s0 <> rNewline) by (unfold rNewline; lia).
  assert (Herr : count_occ Z.eq_dec (RuneError :: decodeBytes t0) rNewline
                 = count_occ Z.eq_dec (s0 :: t0) rNewline).
  { apply Hcons; [discriminate | exact Hs0 | apply IH; lia | reflexivity]. }
  destruct (leadByte s0) as [[[sz lo] hi]|] eqn:El; [|exact Herr].
  destruct (leadByte_spec _ _ _ _ El) as ((Hlo & Hhi) & Hsz).
  destruct t0 as [|s1 t1]; [exact Herr|].
  destruct ((s1 <? lo) || (hi <? s1)) eqn:E1; [exact Herr|].
  apply orb_false_iff in E1. destruct E1 as [E1 E1'].
  apply Z.ltb_ge in E1. apply Z.ltb_ge in E1'.
  assert (Hs1 : s1 <> rNewline) by (unfold rNewline; lia).
  simpl in Hle.
  assert (Hm5 : forall a, Z.land a 31 = a mod 32) by (intros a; apply (land_mask a 5); lia).
  assert (Hm4 : forall a, Z.land a 15 = a mod 16) by (intros a; apply (land_mask a 4); lia).
  assert (Hm3 : forall a, Z.land a 7 = a mod 8) by (intros a; apply (land_mask a 3); lia).
  assert (Hm6 : forall a, Z.land a 63 = a mod 64) by (intros a; apply (land_mask a 6); lia).
  destruct (sz <=? 2) eqn:Z2.
  { apply Z.leb_le in Z2.
    rewrite (count_occ_cons_neq Z.eq_dec (s1 :: t1) Hs0).
    rewrite (count_occ_cons_neq Z.eq_dec t1 Hs1).
    rewrite count_occ_cons_neq; [apply IH; lia|].
    intros H. apply lor_shift_newline in H; [|lia]. destruct H as [HA _].
    rewrite Hm5 in HA. Z.to_euclidean_division_equations. lia. }
  apply Z.leb_gt in Z2.
  destruct t1 as [|s2 t2]; [exact Herr|].
  destruct (contByte s2) eqn:C2; [|exact Herr]. cbn [negb].
  unfold contByte in C2. apply andb_true_iff in C2. destruct C2 as [C2 _].
  apply Z.leb_le in C2.
  assert (Hs2 : s2 <> rNewline) by (unfold rNewline; lia).
  simpl in Hle.
  destruct (sz <=? 3) eqn:Z3.
  { apply Z.leb_le in Z3.
    rewrite (count_occ_cons_neq Z.eq_dec (s1 :: s2 :: t2) Hs0).
    rewrite (count_occ_cons_neq Z.eq_dec (s2 :: t2) Hs1).
    rewrite (count_occ_cons_neq Z.eq_dec t2 Hs2).
    rewrite count_occ_cons_neq; [apply IH; lia|].
    intros H. apply lor_shift_newline in H; [|lia]. destruct H as [HA H].
    apply lor_shift_newline in H; [|lia]. destruct H as [HB _].
    rewrite Hm4 in HA. rewrite Hm6 in HB.
    Z.to_euclidean_division_equations. lia. }
  apply Z.leb_gt in Z3.
  destruct t2 as [|s3 t3]; [exact Herr|].
  destruct (contByte s3) eqn:C3; [|exact Herr]. cbn [negb].
  unfold contByte in C3. apply andb_true_iff in C3. destruct C3 as [C3 _].
  apply Z.leb_le in C3.
  assert (Hs3 : s3 <> rNewline) by (unfold rNewline; lia).
  simpl in Hle.
  rewrite (count_occ_cons_neq Z.eq_dec (s1 :: s2 :: s3 :: t3) Hs0).
  rewrite (count_occ_cons_neq Z.eq_dec (s2 :: s3 :: t3) Hs1).
  rewrite (count_occ_cons_neq Z.eq_dec (s3 :: t3) Hs2).
  rewrite (count_occ_cons_neq Z.eq_dec t3 Hs3).
  rewrite count_occ_cons_neq; [apply IH; lia|].
  intros H. apply lor_shift_newline in H; [|lia]. destruct H as [HA H].
  apply lor_shift_newline in H; [|lia]. destruct H as [HB _].
  rewrite Hm3 in HA. rewrite Hm6 in HB.
  Z.to_euclidean_division_equations. lia.
Qed.

Lemma byte_newline c :
  Ascii.eqb c (ascii_of_nat 10) = (Z.of_N (N_of_ascii c) =? rNewline).
Proof.
  destruct c as [b0 b1 b2 b3 b4 b5 b6 b7].
  destruct b0, b1, b2, b3, b4, b5, b6, b7; reflexivity.
Qed.

(** [strings.Split] yields one line more than the source has line feeds. *)
Lemma splitLines_count s :
  List.length (splitLines s) = S (newlines (bytesOf s)).
Proof.
  unfold newlines. induction s as [|c s IH]; [reflexivity|].
  cbn [splitLines bytesOf]. rewrite byte_newline.
  destruct (Z.eqb_spec (Z.of_N (N_of_ascii c)) rNewline) as [He|Hne].
  - rewrite He. rewrite count_occ_cons_eq by reflexivity.
    cbn [List.length]. rewrite IH. reflexivity.
  - rewrite count_occ_cons_neq by exact Hne.
    rewrite <- IH. destruct (splitLines s); [discriminate IH | reflexivity].
Qed.

Lemma lineOf_firstn j rs : lineOf (firstn j rs) <= lineOf rs.
Proof.
  unfold lineOf, rune in *.
  rewrite <- (firstn_skipn j rs) at 2. rewrite count_occ_app. lia.
Qed.

(** The lines of the source are the lines that the cursor counts. *)
Lemma lines_of_input input :
  Z.of_nat (List.length (splitLines input))
  = lineOf (runesOf input).
Proof.
  rewrite splitLines_count. unfold lineOf, runesOf.
  fold (newlines (decodeBytes (bytesOf input))).
  rewrite newlines_decodeBytes. lia.
Qed.

Lemma node_lines Digit input root p' m :
  Parse Digit (NewParser input) = Some (Some root, None, p') ->
  InTree m root ->
  Source m = input
  /\ 1 <= StartLine m <= EndLine m
  /\ EndLine m <= Z.of_nat (List.length (splitLines input)).
Proof.
  intros H Hin. destruct (tree_layout _ _ _ _ _ H Hin) as (role & i & j & Hl).
  destruct (Layout_placed _ _ _ _ _ _ Hl) as (j' & (Hb & _ & Hsrc & Hs & He) & _).
  split; [exact Hsrc|].
  pose proof (posAt_ge_1 (runesOf input) i) as [H1 _].
  pose proof (posAt_le (runesOf input) i j' ltac:(lia)) as Hle.
  pose proof (lineOf_firstn j' (runesOf input)) as Hn.
  rewrite <- lines_of_input in Hn.
  rewrite <- Hs in H1, Hle. rewrite <- He in Hle.
  assert (He' : EndLine m = lineOf (firstn j' (runesOf input))).
  { change (EndLine m) with (fst (endPos m)). rewrite He. reflexivity. }
  unfold posLe, startPos, endPos in *. cbn [fst snd] in *. lia.
Qed.

(** X14: [DebugContext] of a node of a tree that [Parse] returns without
    an error shows the node. The lines of the node are lines of the
    source: [1 <= StartLine <= EndLine <= ] the number of lines. With
    non-negative context sizes that do not overflow, the call returns, the
    source lines it prints are those with the indices of the window, in
    order, and the window holds every line of the node. *)
Theorem DebugContext_shows_node Digit input root p' m linesBefore linesAfter :
  Parse Digit (NewParser input) = Some (Some root, None, p') ->
  InTree m root ->
  Z.of_nat (List.length (splitLines input)) <= max_int ->
  0 <= linesBefore <= max_int ->
  0 <= linesAfter ->
  EndLine m - 1 + linesAfter <= max_int ->
  1 <= StartLine m <= EndLine m
  /\ EndLine m <= Z.of_nat (List.length (splitLines (Source m)))
  /\ exists emits lo hi,
       DebugContextEmits m linesBefore linesAfter = Some emits
       /\ DebugContext m linesBefore linesAfter
          = Some (String.concat EmptyString (map render emits))
       /\ filter isEmitLine emits = map (sourceLine m) (zrange lo hi)
       /\ lo = Z.max 0 (StartLine m - 1 - linesBefore)
       /\ hi = Z.min (Z.of_nat (List.length (splitLines (Source m))) - 1)
                     (EndLine m - 1 + linesAfter)
       /\ lo <= StartLine m - 1 /\ EndLine m - 1 <= hi.
Proof.
  intros HP Hin Hm Hb Ha Hov.
  destruct (node_lines _ _ _ _ _ HP Hin) as (Hsrc & Hse & Hc).
  rewrite Hsrc. split; [exact Hse|]. split; [exact Hc|].
  assert (Hs : inInt (StartLine m - 1 - linesBefore)).
  { unfold inInt, min_int, max_int, int_bits in *.
    change (2 ^ (64 - 1)) with 9223372036854775808 in *. lia. }
  assert (He : inInt (EndLine m - 1 + linesAfter)).
  { unfold inInt, min_int, max_int, int_bits in *.
    change (2 ^ (64 - 1)) with 9223372036854775808 in *. lia. }
  rewrite <- Hsrc in Hm, Hc.
  pose proof (window_start m linesBefore Hs) as Hlo.
  pose proof (window_end m linesAfter He Hm) as Hhi.
  unfold DebugContext, DebugContextEmits. cbv zeta in *.
  rewrite Hlo, Hhi. rewrite <- Hsrc.
  set (lo := windowLo m linesBefore) in *.
  set (hi := windowHi m linesAfter) in *.
  assert (Hlo1 : 0 <= lo <= StartLine m - 1) by (unfold lo, windowLo; lia).
  assert (Hhi1 : EndLine m - 1 <= hi
                 /\ hi < Z.of_nat (List.length (splitLines (Source m))))
    by (unfold hi, windowHi; lia).
  rewrite contextLoop_inside by lia.
  eexists; exists lo, hi. split; [reflexivity|]. split; [reflexivity|].
  rewrite app_nil_l, flat_map_lines.
  split; [reflexivity|]. split; [reflexivity|]. split; [reflexivity|]. lia.
Qed.

Lemma DebugContext_shows_node_witness :
  exists root p' emits,
    Parse latinDigit (NewParser nestedDocument) = Some (Some root, None, p')
    /\ DebugContextEmits root 1 1 = Some emits
    /\ 1 <= StartLine root <= EndLine root.
Proof.
  evaluate (Parse latinDigit (NewParser nestedDocument)) E.
  match type of E with
  | _ = Some (Some ?r, None, ?q) =>
    destruct (DebugContext_shows_node latinDigit nestedDocument r q r 1 1 E
                (InTree_root _))
      as (Hse & _ & emits & lo & hi & Hemits & _)
  end.
  - vm_compute. discriminate.
  - vm_compute. split; discriminate.
  - lia.
  - vm_compute. discriminate.
  - eexists; eexists; exists emits.
    split; [exact E|]. split; [exact Hemits | exact Hse].
Defined.

(* ================================================================== *)
(** ** Two calls, two trees in memory *)

Local Open Scope list_scope.

Lemma store_app_last h c t f :
  store (h ++ c :: t) (List.length h) f = (h ++ f c :: t)%list.
Proof. induction h as [|x h IH]; simpl; [reflexivity | rewrite IH; reflexivity]. Qed.

Lemma store_length h a f : List.length (store h a f) = List.length h.
Proof.
  revert a. induction h as [|x h IH]; intros [|a]; simpl; auto.
Qed.

Lemma store_other h a b f :
  a <> b -> nth_error (store h b f) a = nth_error h a.
Proof.
  revert a b. induction h as [|x h IH]; intros [|a] [|b] H; simpl;
    try reflexivity; try contradiction.
  apply IH. lia.
Qed.

Lemma nth_error_mid (h : Heap) c t :
  nth_error (h ++ c :: t) (List.length h) = Some c.
Proof. rewrite nth_error_app2, Nat.sub_diag by lia. reflexivity. Qed.

Lemma TreeAt_unfold lo h n a :
  TreeAt lo h n a
  <-> (lo <= a)%nat
      /\ exists ps, nth_error h a = Some (cellOf n ps)
                    /\ Forall2 (TreeAt lo h) (Children n) ps.
Proof.
  destruct n as [t v cs sl sc el ec src]. cbn [TreeAt Children].
  assert (Hall : forall ps,
             (fix all (cs : list Node) (ps : list ptr) {struct cs} : Prop :=
                match cs, ps with
                | [], [] => True
                | c :: cs', p :: ps' => TreeAt lo h c p /\ all cs' ps'
                | _, _ => False
                end) cs ps <-> Forall2 (TreeAt lo h) cs ps).
  { induction cs as [|c cs IH]; intros [|p ps]; simpl.
    - split; intros _; constructor.
    - split; intros H; [contradiction | inversion H].
    - split; intros H; [contradiction | inversion H].
    - split; intros H.
      + destruct H as [H1 H2]. constructor; [exact H1 | apply IH; exact H2].
      + inversion H as [|? ? ? ? H1 H2]; subst.
        split; [exact H1 | apply IH; exact H2]. }
  split; intros (Hlo & ps & Hc & Hcs); (split; [exact Hlo|]); exists ps;
    (split; [exact Hc | apply Hall; exact Hcs]).
Qed.

(** A tree stays where it is when the memory changes outside it. *)
Lemma TreeAt_frame lo lo' h h' n : forall a,
  (lo' <= lo)%nat ->
  (forall b, (lo <= b)%nat -> nth_error h b <> None ->
             nth_error h' b = nth_error h b) ->
  TreeAt lo h n a -> TreeAt lo' h' n a.
Proof.
  induction n as [n IH] using Node_induction. intros a Hlo Hsame H.
  apply TreeAt_unfold in H. destruct H as (Ha & ps & Hc & Hcs).
  apply TreeAt_unfold. split; [lia|]. exists ps. split.
  - rewrite Hsame; [exact Hc | exact Ha | congruence].
  - clear Hc. induction Hcs as [|c p cs ps' Hp _ IHcs]; constructor.
    + inv IH. eauto.
    + inv IH. auto.
Qed.

Lemma TreeAt_weaken lo lo' h n a :
  (lo' <= lo)%nat -> TreeAt lo h n a -> TreeAt lo' h n a.
Proof. intros H. apply TreeAt_frame; auto. Qed.

Lemma TreeAt_app lo h t n a : TreeAt lo h n a -> TreeAt lo (h ++ t) n a.
Proof.
  apply TreeAt_frame; [lia|]. intros b _ Hb.
  apply nth_error_app1. apply nth_error_Some. exact Hb.
Qed.

Lemma TreeAt_store lo h b f n a :
  (b < lo)%nat -> TreeAt lo h n a -> TreeAt lo (store h b f) n a.
Proof.
  intros Hb. apply TreeAt_frame; [lia|]. intros c Hc _.
  apply store_other. lia.
Qed.

Lemma treeAt_app lo h t n a : treeAt lo h n a -> treeAt lo (h ++ t) n a.
Proof. destruct n, a; simpl; auto using TreeAt_app. Qed.

Lemma treeAt_weaken lo lo' h n a :
  (lo' <= lo)%nat -> treeAt lo h n a -> treeAt lo' h n a.
Proof. destruct n, a; simpl; eauto using TreeAt_weaken. Qed.

Lemma Forall2_impl_left {A B} (P Q : A -> B -> Prop) l l' :
  (forall a b, P a b -> Q a b) -> Forall2 P l l' -> Forall2 Q l l'.
Proof. intros H F. induction F; constructor; auto. Qed.

Lemma building_new h t p : building h (newNode t p) (h ++ [newCell t p]).
Proof. exists [], []. split; [reflexivity | constructor]. Qed.

(** An assignment to a field of the node that is being filled. *)
Lemma building_store h n n' H f :
  building h n H ->
  Children n' = Children n ->
  (forall ps, f (cellOf n ps) = cellOf n' ps) ->
  building h n' (store H (List.length h) f).
Proof.
  intros (ps & t & -> & Hcs) Hch Hf. exists ps, t.
  rewrite store_app_last, Hf. split; [reflexivity|].
  rewrite Hch. rewrite <- (Hf ps), <- store_app_last.
  eapply Forall2_impl_left; [|exact Hcs].
  intros c a. apply TreeAt_store. lia.
Qed.

Lemma building_app h n H t : building h n H -> building h n (H ++ t).
Proof.
  intros (ps & t0 & -> & Hcs). exists ps, (t0 ++ t)%list.
  rewrite <- app_assoc. split; [reflexivity|].
  change (h ++ (cellOf n ps :: t0) ++ t)%list
    with (h ++ cellOf n ps :: t0 ++ t)%list.
  replace (h ++ cellOf n ps :: t0 ++ t)%list
    with ((h ++ cellOf n ps :: t0) ++ t)%list
    by (rewrite <- app_assoc; reflexivity).
  eapply Forall2_impl_left; [|exact Hcs].
  intros c a. apply TreeAt_app.
Qed.

Lemma building_length h n H : building h n H -> (List.length h < List.length H)%nat.
Proof.
  intros (ps & t & -> & _). rewrite length_app. simpl. lia.
Qed.

(** [n.Children = append(n.Children, ...)] with the children that a nested
    call has made. *)
Lemma building_append h n H cs ps :
  building h n H ->
  Forall2 (TreeAt (S (List.length h)) H) cs ps ->
  building h (withChildren n (Children n ++ cs))
           (store H (List.length h) (fun c => setChildren (cChildren c ++ ps) c)).
Proof.
  intros (ps0 & t & -> & Hcs) Hnew. exists (ps0 ++ ps)%list, t.
  rewrite store_app_last. split; [reflexivity|].
  cbn [withChildren Children cellOf cChildren].
  change (mkCell (Type_ n) (Value n) (ps0 ++ ps) (StartLine n) (StartCol n)
                 (EndLine n) (EndCol n) (Source n))
    with ((fun c => setChildren (cChildren c ++ ps) c) (cellOf n ps0)).
  rewrite <- store_app_last.
  apply Forall2_app;
    (eapply Forall2_impl_left; [|eassumption]);
    intros c a; apply TreeAt_store; lia.
Qed.

(** A node that is filled is a tree in memory. *)
Lemma building_tree h n H :
  building h n H ->
  exists t, H = (h ++ t)%list /\ TreeAt (List.length h) H n (List.length h).
Proof.
  intros (ps & t & -> & Hcs). eexists. split; [reflexivity|].
  apply TreeAt_unfold. split; [lia|]. exists ps.
  split; [apply nth_error_mid|].
  eapply Forall2_impl_left; [|exact Hcs].
  intros c a. apply TreeAt_weaken. lia.
Qed.

Lemma leaf_tree h n :
  Children n = [] ->
  TreeAt (List.length h) (h ++ [cellOf n []]) n (List.length h).
Proof.
  intros Hc. apply TreeAt_unfold. split; [lia|]. exists [].
  split; [apply nth_error_mid | rewrite Hc; constructor].
Qed.

(** *** The scalars *)

Lemma stringLoop_mem fuel : forall n sb p h,
  match stringLoop fuel n sb p with
  | Some (n', e, p') =>
    Mem.stringLoop fuel (List.length h) sb p (h ++ [cellOf n []])
    = Some (List.length h, e, p', h ++ [cellOf n' []])
    /\ Children n' = Children n
  | None =>
    Mem.stringLoop fuel (List.length h) sb p (h ++ [cellOf n []]) = None
  end.
Proof.
  induction fuel as [|fuel IH]; intros n sb p h;
    cbn [stringLoop Mem.stringLoop]; [reflexivity|].
  destruct (isEOF p).
  { rewrite !store_app_last. split; reflexivity. }
  destruct (peekChar p =? rQuote).
  { rewrite !store_app_last. split; reflexivity. }
  destruct (peekChar p =? rBackslash); [|apply IH].
  destruct (isEOF (consumeChar p)); [split; reflexivity | apply IH].
Qed.

Lemma parseString_mem p h :
  match parseString p with
  | Some (n, e, p') =>
    Mem.parseString p h = Some (List.length h, e, p', h ++ [cellOf n []])
    /\ Children n = []
  | None => Mem.parseString p h = None
  end.
Proof.
  unfold parseString, Mem.parseString, alloc.
  pose proof (stringLoop_mem (S (length (consumeChar p) - pos (consumeChar p)))
                (newNode NodeString p) EmptyString (consumeChar p) h) as H.
  change (newCell NodeString p) with (cellOf (newNode NodeString p) []).
  destruct (stringLoop _ (newNode NodeString p) _ _) as [[[n e] q]|];
    exact H.
Qed.

Lemma parseNumber_mem Digit p h :
  let '(n, e, p') := parseNumber Digit p in
  Mem.parseNumber Digit p h = (List.length h, e, p', h ++ [cellOf n []])
  /\ Children n = [].
Proof.
  unfold parseNumber, Mem.parseNumber, alloc.
  destruct (numberLoop Digit _ _ _) as [sb q].
  change (newCell NodeNumber p) with (cellOf (newNode NodeNumber p) []).
  rewrite !store_app_last. split; reflexivity.
Qed.

Lemma parseBoolean_mem p h :
  let '(n, e, p') := parseBoolean p in
  Mem.parseBoolean p h = (List.length h, e, p', h ++ [cellOf n []])
  /\ Children n = [].
Proof.
  unfold parseBoolean, Mem.parseBoolean, alloc.
  change (newCell NodeBoolean p) with (cellOf (newNode NodeBoolean p) []).
  destruct (HasPrefix (remaining p) "true").
  { rewrite !store_app_last. split; reflexivity. }
  destruct (HasPrefix (remaining p) "false").
  { rewrite !store_app_last. split; reflexivity. }
  split; reflexivity.
Qed.

Lemma parseNull_mem p h :
  let '(n, e, p') := parseNull p in
  Mem.parseNull p h = (List.length h, e, p', h ++ [cellOf n []])
  /\ Children n = [].
Proof.
  unfold parseNull, Mem.parseNull, alloc.
  change (newCell NodeNull p) with (cellOf (newNode NodeNull p) []).
  destruct (HasPrefix (remaining p) "null").
  { rewrite !store_app_last. split; reflexivity. }
  split; reflexivity.
Qed.

(** *** Objects and arrays *)

Lemma building_empty h t p :
  building h (withChildren (newNode t p) [])
           (store (h ++ [newCell t p]) (List.length h) (setChildren [])).
Proof.
  rewrite store_app_last. exists [], []. split; [reflexivity | constructor].
Qed.

Lemma building_end h n H l k :
  building h n H ->
  building h (withEnd n l k) (store H (List.length h) (setEnd l k)).
Proof. intros Hb. apply (building_store h n); auto. Qed.

Section MemPass.

Variable pv : Parser -> option (option Node * option string * Parser).
Variable pvm
  : Parser -> Heap -> option (option ptr * option string * Parser * Heap).
Hypothesis pv_mem : forall p h, valueSim (pv p) (pvm p h) h.

Lemma single_trees lo h v a :
  treeAt lo h v a -> Forall2 (TreeAt lo h) (single v) (Mem.single a).
Proof.
  destruct v, a; simpl; intros H; try contradiction; repeat constructor.
  exact H.
Qed.

Lemma objectIter_mem n p h H :
  building h n H ->
  stepSim h (objectIter pv n p) (Mem.objectIter pvm (List.length h) p H).
Proof.
  intros Hb. pose proof (building_length _ _ _ Hb) as Hlen.
  unfold objectIter, Mem.objectIter.
  set (p1 := skipWhitespace p).
  destruct (negb (peekChar p1 =? rQuote)).
  { simpl. auto. }
  pose proof (parseString_mem p1 H) as Hs.
  destruct (parseString p1) as [[[k e] q]|]; [|rewrite Hs; exact I].
  destruct Hs as [Hs Hk]. rewrite Hs.
  destruct e as [e|].
  { simpl. auto using building_app. }
  set (q1 := skipWhitespace q).
  destruct (negb (peekChar q1 =? runeOf ":")).
  { simpl. auto using building_app. }
  pose proof (pv_mem (consumeChar q1) (H ++ [cellOf k []])) as Hv.
  unfold valueSim in Hv.
  destruct (pv (consumeChar q1)) as [[[v e] r]|]; [|rewrite Hv; exact I].
  destruct Hv as (a & t & Hv & Ht). rewrite Hv.
  destruct e as [e|].
  { simpl. auto using building_app. }
  rewrite <- app_assoc in *. cbn [app] in *.
  rewrite store_app_last.
  change (setChildren (Mem.single a) (cellOf k []))
    with (cellOf (withChildren k (single v)) (Mem.single a)).
  set (k' := withChildren k (single v)).
  set (H3 := H ++ cellOf k' (Mem.single a) :: t).
  assert (Hk' : TreeAt (S (List.length h)) H3 k' (List.length H)).
  { apply TreeAt_unfold. split; [lia|]. exists (Mem.single a).
    split; [apply nth_error_mid|]. cbn [k' withChildren Children].
    apply single_trees.
    apply (treeAt_weaken (List.length (H ++ [cellOf k []]))).
    { rewrite length_app. simpl. lia. }
    destruct v as [v|], a as [a|]; simpl in *; try contradiction; [|exact I].
    unfold H3. rewrite <- (store_app_last H (cellOf k []) t
                             (fun _ => cellOf k' [a])).
    apply TreeAt_store; [rewrite length_app; simpl; lia | exact Ht]. }
  assert (Hb3 : building h n H3) by (apply building_app; exact Hb).
  pose proof (building_append h n H3 [k'] [List.length H] Hb3
                (Forall2_cons _ _ Hk' (Forall2_nil _))) as Hb4.
  change (fun c => setChildren (cChildren c ++ [List.length H]) c)
    with (appendChild (List.length H)) in Hb4.
  set (n4 := withChildren n (Children n ++ [k'])) in *.
  set (H4 := store H3 (List.length h) (appendChild (List.length H))) in *.
  set (r1 := skipWhitespace r).
  destruct (peekChar r1 =? runeOf "}").
  { simpl. split; [reflexivity|]. split; [reflexivity|].
    apply building_end. exact Hb4. }
  destruct (negb (peekChar r1 =? runeOf ",")); simpl; auto.
Qed.

Lemma objectLoop_mem fuel h : forall n p H,
  building h n H ->
  fillSim h (objectLoop pv fuel n p) (Mem.objectLoop pvm fuel (List.length h) p H).
Proof.
  induction fuel as [|fuel IH]; intros n p H Hb; cbn [objectLoop Mem.objectLoop];
    [reflexivity|].
  pose proof (objectIter_mem n p h H Hb) as Hs. unfold stepSim in Hs.
  destruct (objectIter pv n p) as [n' e q|n' q|];
    destruct (Mem.objectIter pvm (List.length h) p H) as [e' q' H'|q' H'|];
    try contradiction.
  - destruct Hs as (-> & -> & Hb'). simpl. eauto.
  - destruct Hs as (-> & Hb'). apply IH. exact Hb'.
  - reflexivity.
Qed.

Lemma parseObject_mem fuel p h :
  fillSim h (parseObject pv fuel p) (Mem.parseObject pvm fuel p h).
Proof.
  unfold parseObject, Mem.parseObject, alloc.
  pose proof (building_empty h NodeObject p) as Hb.
  set (p1 := skipWhitespace (consumeChar p)).
  destruct (peekChar p1 =? runeOf "}").
  - simpl. eexists. split; [reflexivity|]. apply building_end. exact Hb.
  - apply objectLoop_mem. exact Hb.
Qed.

Lemma arrayIter_mem n p h H :
  building h n H ->
  stepSim h (arrayIter pv n p) (Mem.arrayIter pvm (List.length h) p H).
Proof.
  intros Hb. pose proof (building_length _ _ _ Hb) as Hlen.
  unfold arrayIter, Mem.arrayIter.
  pose proof (pv_mem p H) as Hv. unfold valueSim in Hv.
  destruct (pv p) as [[[v e] r]|]; [|rewrite Hv; exact I].
  destruct Hv as (a & t & Hv & Ht). rewrite Hv.
  destruct e as [e|].
  { simpl. auto using building_app. }
  assert (Hb3 : building h n (H ++ t)) by (apply building_app; exact Hb).
  pose proof (building_append h n (H ++ t) (single v) (Mem.single a) Hb3)
    as Hb4.
  specialize (Hb4 (single_trees _ _ _ _
                     (treeAt_weaken _ (S (List.length h)) _ _ _ Hlen Ht))).
  set (n4 := withChildren n (Children n ++ single v)) in *.
  set (H4 := store (H ++ t) (List.length h) _) in *.
  set (r1 := skipWhitespace r).
  destruct (peekChar r1 =? runeOf "]").
  { simpl. split; [reflexivity|]. split; [reflexivity|].
    apply building_end. exact Hb4. }
  destruct (negb (peekChar r1 =? runeOf ",")); simpl; auto.
Qed.

Lemma arrayLoop_mem fuel h : forall n p H,
  building h n H ->
  fillSim h (arrayLoop pv fuel n p) (Mem.arrayLoop pvm fuel (List.length h) p H).
Proof.
  induction fuel as [|fuel IH]; intros n p H Hb; cbn [arrayLoop Mem.arrayLoop];
    [reflexivity|].
  pose proof (arrayIter_mem n p h H Hb) as Hs. unfold stepSim in Hs.
  destruct (arrayIter pv n p) as [n' e q|n' q|];
    destruct (Mem.arrayIter pvm (List.length h) p H) as [e' q' H'|q' H'|];
    try contradiction.
  - destruct Hs as (-> & -> & Hb'). simpl. eauto.
  - destruct Hs as (-> & Hb'). apply IH. exact Hb'.
  - reflexivity.
Qed.

Lemma parseArray_mem fuel p h :
  fillSim h (parseArray pv fuel p) (Mem.parseArray pvm fuel p h).
Proof.
  unfold parseArray, Mem.parseArray, alloc.
  pose proof (building_empty h NodeArray p) as Hb.
  set (p1 := skipWhitespace (consumeChar p)).
  destruct (peekChar p1 =? runeOf "]").
  - simpl. eexists. split; [reflexivity|]. apply building_end. exact Hb.
  - apply arrayLoop_mem. exact Hb.
Qed.

End MemPass.

Lemma fillSim_value h r m :
  fillSim h r m -> valueSim (nodeResult r) (Mem.nodeResult m) h.
Proof.
  unfold fillSim, valueSim. destruct r as [[[n e] p]|]; simpl.
  - intros (H & -> & Hb). destruct (building_tree _ _ _ Hb) as (t & -> & Ht).
    exists (Some (List.length h)), t. split; [reflexivity | exact Ht].
  - intros ->. reflexivity.
Qed.

Lemma leaf_value h n e p :
  Children n = [] ->
  valueSim (Some (Some n, e, p))
           (Some (Some (List.length h), e, p, h ++ [cellOf n []])) h.
Proof.
  intros Hc. exists (Some (List.length h)), [cellOf n []].
  split; [reflexivity | apply leaf_tree; exact Hc].
Qed.

Lemma parseValue_mem Digit fuel : forall p h,
  valueSim (parseValue Digit fuel p) (Mem.parseValue Digit fuel p h) h.
Proof.
  induction fuel as [|fuel IH]; intros p h;
    cbn [parseValue Mem.parseValue]; [reflexivity|].
  set (p1 := skipWhitespace p).
  destruct (isEOF p1).
  { exists None, []. rewrite app_nil_r. split; [reflexivity | exact I]. }
  destruct (peekChar p1 =? runeOf "{").
  { apply fillSim_value, parseObject_mem, IH. }
  destruct (peekChar p1 =? runeOf "[").
  { apply fillSim_value, parseArray_mem, IH. }
  destruct (peekChar p1 =? rQuote).
  { pose proof (parseString_mem p1 h) as Hs.
    destruct (parseString p1) as [[[n e] q]|].
    - destruct Hs as [-> Hc]. apply leaf_value, Hc.
    - rewrite Hs. reflexivity. }
  destruct (_ || _).
  { pose proof (parseBoolean_mem p1 h) as Hs.
    destruct (parseBoolean p1) as [[n e] q].
    destruct Hs as [-> Hc]. apply leaf_value, Hc. }
  destruct (peekChar p1 =? runeOf "n").
  { pose proof (parseNull_mem p1 h) as Hs.
    destruct (parseNull p1) as [[n e] q].
    destruct Hs as [-> Hc]. apply leaf_value, Hc. }
  pose proof (parseNumber_mem Digit p1 h) as Hs.
  destruct (parseNumber Digit p1) as [[n e] q].
  destruct Hs as [-> Hc]. apply leaf_value, Hc.
Qed.

Lemma Parse_mem Digit p h :
  valueSim (Parse Digit p) (Mem.Parse Digit p h) h.
Proof.
  unfold Parse, Mem.Parse.
  pose proof (parseValue_mem Digit (S (length p - pos p)) p h) as Hv.
  unfold valueSim in *.
  destruct (parseValue Digit _ p) as [[[n e] q]|]; [|rewrite Hv; reflexivity].
  destruct Hv as (a & t & -> & Ht).
  destruct e as [e|]; exists a, t; split; (reflexivity || exact Ht).
Qed.

(** A pointer leads to one tree only. *)
Lemma TreeAt_unique h n : forall lo lo' n' a,
  TreeAt lo h n a -> TreeAt lo' h n' a -> n = n'.
Proof.
  induction n as [n IH] using Node_induction. intros lo lo' n' a H H'.
  apply TreeAt_unfold in H. destruct H as (_ & ps & Hc & Hcs).
  apply TreeAt_unfold in H'. destruct H' as (_ & ps' & Hc' & Hcs').
  rewrite Hc in Hc'. injection Hc' as Ht Hv Hps Hsl Hsc Hel Hec Hsrc.
  subst ps'.
  assert (Hch : Children n = Children n').
  { clear Hc Ht Hv Hsl Hsc Hel Hec Hsrc.
    revert IH Hcs Hcs'. generalize (Children n) (Children n'). clear n n'.
    intros cs cs' IH Hcs. revert cs'.
    induction Hcs as [|c p cs ps Hp _ IHcs]; intros cs' Hcs'.
    - inversion Hcs'. reflexivity.
    - inversion Hcs' as [|c' ? cs'' ? Hp' Hrest]; subst.
      inversion IH as [|? ? Hc IHrest]; subst.
      f_equal; [exact (Hc _ _ _ _ Hp Hp') | apply IHcs; assumption]. }
  destruct n, n'. simpl in *. congruence.
Qed.

(** C8: two calls of [Parse], each on a parser that [NewParser] makes from
    the same input, give the same outcome whatever is in memory. Both
    return, with the same error and the same final cursor. Each returns a
    pointer to a tree of objects that it has made itself, and leaves the
    objects that were there before as they were; so after the second call
    there are two trees, of different objects, and they are equal: node by
    node the same kind, literal, span and source and as many children.
    This tree is the one that [Parse] returns in the model on values, of
    which the other properties speak. *)
Theorem Parse_twice Digit input :
  exists n e p,
    Parse Digit (NewParser input) = Some (n, e, p)
    /\ (forall h, exists r t,
          Mem.Parse Digit (NewParser input) h = Some (r, e, p, h ++ t)
          /\ treeAt (List.length h) (h ++ t) n r)
    /\ (forall h, exists r1 t1 r2 t2,
          let h1 := h ++ t1 in
          let h2 := h1 ++ t2 in
          Mem.Parse Digit (NewParser input) h = Some (r1, e, p, h1)
          /\ Mem.Parse Digit (NewParser input) h1 = Some (r2, e, p, h2)
          /\ treeAt (List.length h) h1 n r1
          /\ treeAt (List.length h) h2 n r1
          /\ treeAt (List.length h1) h2 n r2
          /\ (forall a1 a2, r1 = Some a1 -> r2 = Some a2 ->
                (a1 < List.length h1 <= a2)%nat)
          /\ (forall n1 n2 a1 a2,
                r1 = Some a1 -> r2 = Some a2 ->
                TreeAt 0 h2 n1 a1 -> TreeAt 0 h2 n2 a2 -> n1 = n2)).
Proof.
  destruct (Parse_total Digit (NewParser input)) as (n & e & p & HP).
  assert (Hany : forall h, exists r t,
             Mem.Parse Digit (NewParser input) h = Some (r, e, p, h ++ t)
             /\ treeAt (List.length h) (h ++ t) n r).
  { intros h. pose proof (Parse_mem Digit (NewParser input) h) as Hs.
    unfold valueSim in Hs. rewrite HP in Hs. exact Hs. }
  exists n, e, p. split; [exact HP|]. split; [exact Hany|].
  intros h. destruct (Hany h) as (r1 & t1 & H1 & T1).
  destruct (Hany (h ++ t1)) as (r2 & t2 & H2 & T2).
  exists r1, t1, r2, t2. cbv zeta.
  assert (T1' : treeAt (List.length h) ((h ++ t1) ++ t2) n r1)
    by (apply treeAt_app; exact T1).
  split; [exact H1|]. split; [exact H2|].
  split; [exact T1|]. split; [exact T1'|]. split; [exact T2|]. split.
  - intros a1 a2 -> ->. destruct n as [n|]; [|contradiction]. simpl in T1, T2.
    apply TreeAt_unfold in T1. destruct T1 as (_ & ps & Hc & _).
    apply TreeAt_unfold in T2. destruct T2 as (Hlo & _).
    split; [|exact Hlo].
    apply nth_error_Some. congruence.
  - intros n1 n2 a1 a2 -> -> Hn1 Hn2.
    destruct n as [n|]; [|contradiction]. simpl in T1', T2.
    rewrite (TreeAt_unique _ _ _ _ _ _ Hn1 T1').
    exact (TreeAt_unique _ _ _ _ _ _ T2 Hn2).
Qed.

(** Two calls on a bracket, a one and a bracket, from an empty memory:
    the array of the first call is the object 0 and its element the
    object 1; the second call makes the objects 2 and 3 and leaves the
    first two alone. *)
Lemma test_parse_twice :
  exists p h1 h2,
    Mem.Parse latinDigit (NewParser "[1]") [] = Some (Some 0%nat, None, p, h1)
    /\ Mem.Parse latinDigit (NewParser "[1]") h1 = Some (Some 2%nat, None, p, h2)
    /\ map cType h2 = [NodeArray; NodeNumber; NodeArray; NodeNumber]
    /\ map cChildren h2 = [[1%nat]; []; [3%nat]; []]
    /\ firstn 2 h2 = h1.
Proof.
  evaluate (Mem.Parse latinDigit (NewParser "[1]") []) E1.
  match type of E1 with
  | _ = Some (_, _, _, ?h) =>
    evaluate (Mem.Parse latinDigit (NewParser "[1]") h) E2
  end.
  eexists; eexists; eexists. split; [exact E1|]. split; [exact E2|].
  repeat split; reflexivity.
Qed.
